(** * tinydb storage core: extendible hash table, LRU-K replacer,
      buffer pool manager and B+-tree insertion, as a shallow embedding.

    Conventions of the embedding.
    - C++ [int] and [size_t] values are integers of [Z]; where the source
      relies on unsigned wrap-around ([k_ - 1], [cur_size_--]) the wrap is
      written out with [wrap64].  Shifts [1 << d] are [Z.shiftl 1 d].
    - A [std::vector] indexed by position is a [list] with stdpp's lookup
      [l !! i]; an access outside the vector is undefined in C++ and is the
      result [None] here.
    - Objects reached through [std::shared_ptr] live in an explicit store and
      are named by their position in it, so that two directory slots holding
      the same pointer alias the same bucket.
    - [std::unordered_map] is stdpp's [gmap].
    - A [while (true)] loop takes a fuel argument; [None] from such a
      function means that the loop did not return within the fuel.
    - Mutexes and latches have no effect on a sequential run and are left
      out. *)

From Stdlib Require Import ZArith Lia.
From stdpp Require Import base option list sorting gmap.

Open Scope Z_scope.

(** Unsigned 64-bit wrap-around of [size_t] arithmetic. *)
Definition wrap64 (z : Z) : Z := z mod 2 ^ 64.

(** ** Extendible hash table (container/hash/extendible_hash_table.cpp) *)

Module EHT.

Section Table.

Context {V : Type} `{EqDecision V}.

(** [std::hash<K>()]: part of the C++ library, a parameter here. *)
Variable hash : Z → Z.

(** [Bucket]: capacity [size_], local depth [depth_] and the item list. *)
Record Bucket := mkBucket {
  size_ : nat;
  depth_ : Z;
  list_ : list (Z * V)
}.

(** The table. [buckets_] is the store of bucket objects; [dir_] holds
    references into it. *)
Record Table := mkTable {
  global_depth_ : Z;
  bucket_size_ : nat;
  num_buckets_ : Z;
  dir_ : list nat;
  buckets_ : list Bucket
}.

(** Constructor: one empty bucket of local depth 0, global depth 0. *)
Definition ExtendibleHashTable (bucket_size : nat) : Table :=
  mkTable 0 bucket_size 1 [0%nat] [mkBucket bucket_size 0 []].

(** [Bucket::Find]: the value of the first item whose key matches. *)
Fixpoint Bucket_Find (l : list (Z * V)) (key : Z) : option V :=
  match l with
  | [] => None
  | (k, v) :: r => if Z.eqb k key then Some v else Bucket_Find r key
  end.

(** [Bucket::Remove]: at the first item whose key matches, [list_.remove(item)]
    drops every pair equal to it. *)
Definition Bucket_Remove (b : Bucket) (key : Z) : bool * Bucket :=
  match Bucket_Find (list_ b) key with
  | Some v =>
      (true, mkBucket (size_ b) (depth_ b)
               (filter (λ item, item ≠ (key, v)) (list_ b)))
  | None => (false, b)
  end.

(** The update loop of [Bucket::Insert]: overwrite the value of the first
    item with this key. *)
Fixpoint Bucket_update (l : list (Z * V)) (key : Z) (value : V)
  : option (list (Z * V)) :=
  match l with
  | [] => None
  | (k, v) :: r =>
      if Z.eqb k key then Some ((k, value) :: r)
      else match Bucket_update r key value with
           | Some r' => Some ((k, v) :: r')
           | None => None
           end
  end.

(** Modelled from the spec: [IsFullWithGuard] is declared in the header; a
    bucket of capacity [bucket_size] has room while it holds fewer items. *)
Definition IsFull (b : Bucket) : bool := (size_ b <=? length (list_ b))%nat.

(** [Bucket::Insert]. *)
Definition Bucket_Insert (b : Bucket) (key : Z) (value : V) : bool * Bucket :=
  match Bucket_update (list_ b) key value with
  | Some l' => (true, mkBucket (size_ b) (depth_ b) l')
  | None =>
      if IsFull b then (false, b)
      else (true, mkBucket (size_ b) (depth_ b) (list_ b ++ [(key, value)]))
  end.

Definition IncrementDepth (b : Bucket) : Bucket :=
  mkBucket (size_ b) (depth_ b + 1) (list_ b).

(** [IndexOf]: [hash(key) & ((1 << global_depth_) - 1)]. *)
Definition IndexOf (t : Table) (key : Z) : Z :=
  Z.land (hash key) (Z.shiftl 1 (global_depth_ t) - 1).

(** [dir_[i]] followed through the pointer. *)
Definition bucket_at (t : Table) (i : Z) : option Bucket :=
  r ← dir_ t !! Z.to_nat i; buckets_ t !! r.

Definition GetGlobalDepth (t : Table) : Z := global_depth_ t.

Definition GetLocalDepth (t : Table) (dir_index : Z) : option Z :=
  depth_ <$> bucket_at t dir_index.

Definition GetNumBuckets (t : Table) : Z := num_buckets_ t.

(** [Find]. *)
Definition Find (t : Table) (key : Z) : option V :=
  b ← bucket_at t (IndexOf t key); Bucket_Find (list_ b) key.

Definition set_buckets (t : Table) (bs : list Bucket) : Table :=
  mkTable (global_depth_ t) (bucket_size_ t) (num_buckets_ t) (dir_ t) bs.

(** [Remove]. *)
Definition Remove (t : Table) (key : Z) : option (bool * Table) :=
  r ← dir_ t !! Z.to_nat (IndexOf t key);
  b ← buckets_ t !! r;
  let '(ok, b') := Bucket_Remove b key in
  Some (ok, set_buckets t (<[r := b']> (buckets_ t))).

(** [Expansion]: the directory doubles; slot [i] of the new half copies the
    pointer of slot [i - old_size]. *)
Definition Expansion (t : Table) : Table :=
  let old_size := Z.shiftl 1 (global_depth_ t) in
  mkTable (global_depth_ t + 1) (bucket_size_ t) (num_buckets_ t)
          (dir_ t ++ take (Z.to_nat old_size) (dir_ t)) (buckets_ t).

(** One round of the rewiring loop [for (int i = 0; i <= 1; ++i)]:
    [old_bucket] and [new_bucket] are references to the directory slots
    [old_idx] and [new_slot], read when the assignment runs. *)
Definition rewire (old_depth old_idx : Z) (new_slot : nat)
    (dir : option (list nat)) (i : Z) : option (list nat) :=
  d ← dir;
  let index := Z.to_nat (Z.shiftl i old_depth + old_idx) in
  src ← d !! (if Z.odd i then new_slot else Z.to_nat old_idx);
  if (index <? length d)%nat then Some (<[index := src]> d) else None.

(** The last loop of [RedistributeBucket]:
    [dir_[IndexOf(k)]->Insert(k, v)] for every moved item; the outcome of the
    bucket insertion is not looked at. *)
Definition reinsert (t : option Table) (kv : Z * V) : option Table :=
  t ← t;
  r ← dir_ t !! Z.to_nat (IndexOf t kv.1);
  b ← buckets_ t !! r;
  Some (set_buckets t (<[r := (Bucket_Insert b kv.1 kv.2).2]> (buckets_ t))).

(** [RedistributeBucket]. The item list of the old bucket is moved out
    ([std::move] of [GetItems()], which leaves the bucket empty) and every
    item is inserted again through the directory. *)
Definition RedistributeBucket (t : Table) (idx : Z) : option Table :=
  b0 ← bucket_at t idx;
  let old_depth := depth_ b0 in
  let old_size := Z.shiftl 1 (global_depth_ t - 1) in
  let old_idx := Z.land idx (Z.shiftl 1 old_depth - 1) in
  let new_slot := Z.to_nat (old_idx + old_size) in
  _ ← dir_ t !! new_slot;
  (* new_bucket.reset(new Bucket(bucket_size_, old_depth)) *)
  let nb := length (buckets_ t) in
  let dir1 := <[new_slot := nb]> (dir_ t) in
  let bs1 := buckets_ t ++ [mkBucket (bucket_size_ t) old_depth []] in
  (* old_bucket->IncrementDepth(); new_bucket->IncrementDepth() *)
  ob ← dir1 !! Z.to_nat old_idx;
  o ← bs1 !! ob;
  let bs2 := <[ob := IncrementDepth o]> bs1 in
  nr ← dir1 !! new_slot;
  n ← bs2 !! nr;
  let bs3 := <[nr := IncrementDepth n]> bs2 in
  dir2 ← foldl (rewire old_depth old_idx new_slot) (Some dir1) [0; 1];
  (* auto list = std::move(old_bucket->GetItems()) *)
  ob' ← dir2 !! Z.to_nat old_idx;
  o' ← bs3 !! ob';
  let bs4 := <[ob' := mkBucket (size_ o') (depth_ o') []]> bs3 in
  foldl reinsert
    (Some (mkTable (global_depth_ t) (bucket_size_ t) (num_buckets_ t + 1)
                   dir2 bs4))
    (list_ o').

(** [Insert]: the retry loop, one round per unit of fuel. *)
Fixpoint Insert (fuel : nat) (t : Table) (key : Z) (value : V)
  : option Table :=
  match fuel with
  | O => None
  | S fuel' =>
      let idx := IndexOf t key in
      r ← dir_ t !! Z.to_nat idx;
      b ← buckets_ t !! r;
      let '(ok, b') := Bucket_Insert b key value in
      if ok then Some (set_buckets t (<[r := b']> (buckets_ t)))
      else if Z.eqb (depth_ b) (global_depth_ t)
           then t' ← RedistributeBucket (Expansion t) idx;
                Insert fuel' t' key value
           else t' ← RedistributeBucket t idx;
                Insert fuel' t' key value
  end.

(** A sequence of [Insert] calls. *)
Definition InsertAll (fuel : nat) (t : Table) (kvs : list (Z * V))
  : option Table :=
  foldl (λ ot kv, t ← ot; Insert fuel t kv.1 kv.2) (Some t) kvs.

(** The directory invariant of the specification, at slot [i]: every key of
    the bucket [dir_[i]] agrees with [i] on the low [local_depth] bits of its
    hash. *)
Definition slot_ok (t : Table) (i : nat) : Prop :=
  ∀ b k v, bucket_at t (Z.of_nat i) = Some b → (k, v) ∈ list_ b →
    Z.land (hash k) (Z.shiftl 1 (depth_ b) - 1)
    = Z.land (Z.of_nat i) (Z.shiftl 1 (depth_ b) - 1).

Definition DirInvariant (t : Table) : Prop :=
  ∀ i, (i < length (dir_ t))%nat → slot_ok t i.

End Table.

End EHT.

(** ** LRU-K replacer (buffer/lru_k_replacer.cpp) *)

Module LRUK.

(** [Node{frame_id, timestamp}], the element type of the two ordered sets. *)
Record Node := mkNode { id_ : Z; time_ : Z }.

(** Modelled from the spec: [Node::operator<] is declared in the header;
    "within a set, pick the frame with the oldest timestamp ... ties broken
    by frame id". *)
Definition Node_lt (a b : Node) : bool :=
  (time_ a <? time_ b) || ((time_ a =? time_ b) && (id_ a <? id_ b)).

(** [std::set<Node>::insert]: the set is kept in increasing order and holds
    no two equivalent nodes. *)
Fixpoint set_insert (n : Node) (s : list Node) : list Node :=
  match s with
  | [] => [n]
  | m :: r =>
      if Node_lt n m then n :: s
      else if Node_lt m n then m :: set_insert n r
      else s
  end.

(** [std::set<Node>::erase(node)]: drops the node equivalent to [n]. *)
Definition set_erase (n : Node) (s : list Node) : list Node :=
  filter (λ m, Node_lt m n || Node_lt n m = true) s.

Record LRUKReplacer := mkReplacer {
  current_timestamp_ : Z;
  cur_size_ : Z;
  replacer_size_ : Z;
  k_ : Z;
  frame_cnt_ : gmap Z Z;
  frame_time_ : gmap Z Z;
  evitable_ : gmap Z bool;
  inf_set_ : list Node;
  kth_set_ : list Node
}.

(** Constructor [LRUKReplacer(num_frames, k)]. *)
Definition new (num_frames k : Z) : LRUKReplacer :=
  mkReplacer 0 0 num_frames k ∅ ∅ ∅ [] [].

Definition set_timestamp (r : LRUKReplacer) (t : Z) : LRUKReplacer :=
  mkReplacer t (cur_size_ r) (replacer_size_ r) (k_ r) (frame_cnt_ r)
    (frame_time_ r) (evitable_ r) (inf_set_ r) (kth_set_ r).

Definition set_sizes (r : LRUKReplacer) (cur rep : Z) : LRUKReplacer :=
  mkReplacer (current_timestamp_ r) cur rep (k_ r) (frame_cnt_ r)
    (frame_time_ r) (evitable_ r) (inf_set_ r) (kth_set_ r).

Definition set_cnt (r : LRUKReplacer) (m : gmap Z Z) : LRUKReplacer :=
  mkReplacer (current_timestamp_ r) (cur_size_ r) (replacer_size_ r) (k_ r) m
    (frame_time_ r) (evitable_ r) (inf_set_ r) (kth_set_ r).

Definition set_time (r : LRUKReplacer) (m : gmap Z Z) : LRUKReplacer :=
  mkReplacer (current_timestamp_ r) (cur_size_ r) (replacer_size_ r) (k_ r)
    (frame_cnt_ r) m (evitable_ r) (inf_set_ r) (kth_set_ r).

Definition set_evitable (r : LRUKReplacer) (m : gmap Z bool) : LRUKReplacer :=
  mkReplacer (current_timestamp_ r) (cur_size_ r) (replacer_size_ r) (k_ r)
    (frame_cnt_ r) (frame_time_ r) m (inf_set_ r) (kth_set_ r).

Definition set_inf (r : LRUKReplacer) (s : list Node) : LRUKReplacer :=
  mkReplacer (current_timestamp_ r) (cur_size_ r) (replacer_size_ r) (k_ r)
    (frame_cnt_ r) (frame_time_ r) (evitable_ r) s (kth_set_ r).

Definition set_kth (r : LRUKReplacer) (s : list Node) : LRUKReplacer :=
  mkReplacer (current_timestamp_ r) (cur_size_ r) (replacer_size_ r) (k_ r)
    (frame_cnt_ r) (frame_time_ r) (evitable_ r) (inf_set_ r) s.

(** [m[key]] of [std::unordered_map]: a missing key is first given the
    default value. *)
Definition ensure {A} (d : A) (key : Z) (m : gmap Z A) : gmap Z A :=
  match m !! key with
  | Some _ => m
  | None => <[key := d]> m
  end.

(** [frame_cnt_[frame_id]] read in place. *)
Definition cnt_of (r : LRUKReplacer) (frame_id : Z) : Z :=
  default 0 (frame_cnt_ r !! frame_id).

(** [evitable_[frame_id]] read in place. *)
Definition evitable_of (r : LRUKReplacer) (frame_id : Z) : bool :=
  default false (evitable_ r !! frame_id).

(** [InsertToSet]; the [assert] on [frame_time_] aborts ([None]). *)
Definition InsertToSet (r : LRUKReplacer) (frame_id : Z)
  : option LRUKReplacer :=
  t ← frame_time_ r !! frame_id;
  let node := mkNode frame_id t in
  let r1 := set_cnt r (ensure 0 frame_id (frame_cnt_ r)) in
  if k_ r <=? cnt_of r frame_id
  then Some (set_kth r1 (set_insert node (kth_set_ r1)))
  else Some (set_inf r1 (set_insert node (inf_set_ r1))).

(** [RemoveFromSet]. *)
Definition RemoveFromSet (r : LRUKReplacer) (frame_id : Z)
  : option LRUKReplacer :=
  t ← frame_time_ r !! frame_id;
  let node := mkNode frame_id t in
  let r1 := set_cnt r (ensure 0 frame_id (frame_cnt_ r)) in
  if k_ r <=? cnt_of r frame_id
  then Some (set_kth r1 (set_erase node (kth_set_ r1)))
  else Some (set_inf r1 (set_erase node (inf_set_ r1))).

(** [RemoveRecord]. *)
Definition RemoveRecord (r : LRUKReplacer) (frame_id : Z) : LRUKReplacer :=
  mkReplacer (current_timestamp_ r)
    (wrap64 (cur_size_ r - 1)) (wrap64 (replacer_size_ r + 1)) (k_ r)
    (delete frame_id (frame_cnt_ r)) (delete frame_id (frame_time_ r))
    (delete frame_id (evitable_ r)) (inf_set_ r) (kth_set_ r).

(** [EvitFromSet]: the loop body runs for the first element only; it erases
    that element and returns its frame id. *)
Definition EvitFromSet (s : list Node) : option (Z * list Node) :=
  match s with
  | [] => None
  | it :: _ => Some (id_ it, set_erase it s)
  end.

(** [Evict]: [inf_set_] first, then [kth_set_]. *)
Definition Evict (r : LRUKReplacer) : option Z * LRUKReplacer :=
  match EvitFromSet (inf_set_ r) with
  | Some (id, s) => (Some id, RemoveRecord (set_inf r s) id)
  | None =>
      match EvitFromSet (kth_set_ r) with
      | Some (id, s) => (Some id, RemoveRecord (set_kth r s) id)
      | None => (None, r)
      end
  end.

(** The block of [RecordAccess] run when [frame_cnt == 0], the first access
    of a frame. *)
Definition first_access (r : LRUKReplacer) (frame_id now : Z)
  : LRUKReplacer :=
  set_sizes
    (set_time (set_evitable r (<[frame_id := false]> (evitable_ r)))
              (<[frame_id := now]> (frame_time_ r)))
    (cur_size_ r) (wrap64 (replacer_size_ r - 1)).

(** The block [if (!evitable_[frame_id]) { ... return; }]: the count goes
    up, and the timestamp is renewed once the count has reached [k_]. *)
Definition access_not_evictable (r : LRUKReplacer)
    (frame_id now frame_cnt : Z) : LRUKReplacer :=
  let c := wrap64 (frame_cnt + 1) in
  let r := set_cnt r (<[frame_id := c]> (frame_cnt_ r)) in
  if k_ r <=? c
  then set_time r (<[frame_id := now]> (frame_time_ r))
  else r.

(** The end of [RecordAccess], reached for an evictable frame. *)
Definition access_evictable (r : LRUKReplacer)
    (frame_id now frame_cnt : Z) : option LRUKReplacer :=
  if frame_cnt <? wrap64 (k_ r - 1) then
    Some (set_cnt r (<[frame_id := wrap64 (frame_cnt + 1)]> (frame_cnt_ r)))
  else
    r ← RemoveFromSet r frame_id;
    let r := set_time r (<[frame_id := now]> (frame_time_ r)) in
    let r :=
      set_cnt r (<[frame_id := wrap64 (frame_cnt + 1)]> (frame_cnt_ r)) in
    InsertToSet r frame_id.

(** [RecordAccess]; [now] is the value read from the clock by
    [GetTimeStamp]. *)
Definition RecordAccess (r : LRUKReplacer) (frame_id now : Z)
  : option LRUKReplacer :=
  let r := set_timestamp r now in
  if bool_decide (frame_cnt_ r !! frame_id = None) && (replacer_size_ r =? 0)
  then Some r
  else
    (* size_t &frame_cnt = frame_cnt_[frame_id] *)
    let frame_cnt := cnt_of r frame_id in
    let r := set_cnt r (ensure 0 frame_id (frame_cnt_ r)) in
    let r := if frame_cnt =? 0 then first_access r frame_id now else r in
    let ev := evitable_of r frame_id in
    let r := set_evitable r (ensure false frame_id (evitable_ r)) in
    if negb ev then Some (access_not_evictable r frame_id now frame_cnt)
    else access_evictable r frame_id now frame_cnt.

(** [SetEvictable]. *)
Definition SetEvictable (r : LRUKReplacer) (frame_id : Z)
    (set_evictable : bool) : option LRUKReplacer :=
  if bool_decide (frame_time_ r !! frame_id = None) then Some r
  else
    let ev := evitable_of r frame_id in
    let r := set_evitable r (ensure false frame_id (evitable_ r)) in
    if eqb ev set_evictable then Some r
    else
      let r := set_evitable r (<[frame_id := set_evictable]> (evitable_ r)) in
      if set_evictable then
        r ← InsertToSet r frame_id;
        Some (set_sizes r (wrap64 (cur_size_ r + 1)) (replacer_size_ r))
      else
        r ← RemoveFromSet r frame_id;
        Some (set_sizes r (wrap64 (cur_size_ r - 1)) (replacer_size_ r)).

(** [Remove]; the failing [BUSTUB_ASSERT] aborts ([None]). *)
Definition Remove (r : LRUKReplacer) (frame_id : Z) : option LRUKReplacer :=
  if bool_decide (frame_time_ r !! frame_id = None) then Some r
  else
    let ev := evitable_of r frame_id in
    let r := set_evitable r (ensure false frame_id (evitable_ r)) in
    if negb ev then None
    else r ← RemoveFromSet r frame_id; Some (RemoveRecord r frame_id).

Definition Size (r : LRUKReplacer) : Z := cur_size_ r.

(** *** Runs of the replacer, with the access history kept beside it *)

Inductive Op :=
  | OpRecordAccess (frame_id now : Z)
  | OpSetEvictable (frame_id : Z) (b : bool)
  | OpEvict
  | OpRemove (frame_id : Z).

(** The history of a tracked frame: the times of its recorded accesses,
    most recent first. The history is not state of the program; it is what
    the replacer's single timestamp per frame is compared against. *)
Abbreviation History := (gmap Z (list Z)).

Definition step (s : LRUKReplacer * History) (op : Op)
  : option (LRUKReplacer * History) :=
  let '(r, h) := s in
  match op with
  | OpRecordAccess f now =>
      r' ← RecordAccess r f now;
      if bool_decide (frame_cnt_ r !! f = None) && (replacer_size_ r =? 0)
      then Some (r', h)
      else Some (r', <[f := now :: default [] (h !! f)]> h)
  | OpSetEvictable f b => r' ← SetEvictable r f b; Some (r', h)
  | OpEvict =>
      match Evict r with
      | (Some f, r') => Some (r', delete f h)
      | (None, r') => Some (r', h)
      end
  | OpRemove f => r' ← Remove r f; Some (r', delete f h)
  end.

Definition run (s : LRUKReplacer * History) (ops : list Op)
  : option (LRUKReplacer * History) :=
  foldl (λ os op, s ← os; step s op) (Some s) ops.

End LRUK.
(** ** Buffer pool manager (buffer/buffer_pool_manager_instance.cpp) *)

Module BPM.

Definition INVALID_PAGE_ID : Z := -1.

(** Modelled from the spec: the page size is a constant of the
    configuration header; "fixed-size byte block (typically 4096)". *)
Definition PAGE_SIZE : nat := 4096.

(** [Page]: identifier, pin count, dirty flag and data block. *)
Record Page := mkPage {
  page_id_ : Z;
  pin_count_ : Z;
  is_dirty_ : bool;
  data_ : list Z
}.

(** [Page::ResetMemory]: the data block is zeroed. *)
Definition zero_data : list Z := replicate PAGE_SIZE 0.

(** Modelled from the spec: the constructor of [Page] is in the page header;
    a frame that holds no page has the invalid id, pin count 0 and is clean. *)
Definition empty_page : Page := mkPage INVALID_PAGE_ID 0 false zero_data.

(** The steps of the pool that reach the disk manager, the memory of a
    frame or the page table, in the order in which they run. The trace is
    not state of the program. *)
Inductive Event :=
  | EvWritePage (page_id : Z) (data : list Z)
  | EvReadPage (page_id frame_id : Z)
  | EvResetMemory (frame_id : Z)
  | EvTableRemove (page_id : Z)
  | EvTableInsert (page_id frame_id : Z).

Record BufferPool := mkPool {
  pages_ : list Page;
  page_table_ : EHT.Table (V:=Z);
  replacer_ : LRUK.LRUKReplacer;
  free_list_ : list Z;
  next_page_id_ : Z;
  disk_ : gmap Z (list Z);
  trace_ : list Event
}.

Definition set_pages (st : BufferPool) (ps : list Page) : BufferPool :=
  mkPool ps (page_table_ st) (replacer_ st) (free_list_ st)
    (next_page_id_ st) (disk_ st) (trace_ st).

Definition set_table (st : BufferPool) (t : EHT.Table (V:=Z)) : BufferPool :=
  mkPool (pages_ st) t (replacer_ st) (free_list_ st)
    (next_page_id_ st) (disk_ st) (trace_ st).

Definition set_replacer (st : BufferPool) (r : LRUK.LRUKReplacer)
  : BufferPool :=
  mkPool (pages_ st) (page_table_ st) r (free_list_ st)
    (next_page_id_ st) (disk_ st) (trace_ st).

Definition set_free_list (st : BufferPool) (l : list Z) : BufferPool :=
  mkPool (pages_ st) (page_table_ st) (replacer_ st) l
    (next_page_id_ st) (disk_ st) (trace_ st).

Definition set_next_page_id (st : BufferPool) (n : Z) : BufferPool :=
  mkPool (pages_ st) (page_table_ st) (replacer_ st) (free_list_ st)
    n (disk_ st) (trace_ st).

Definition set_disk (st : BufferPool) (d : gmap Z (list Z)) : BufferPool :=
  mkPool (pages_ st) (page_table_ st) (replacer_ st) (free_list_ st)
    (next_page_id_ st) d (trace_ st).

Definition emit (st : BufferPool) (e : Event) : BufferPool :=
  mkPool (pages_ st) (page_table_ st) (replacer_ st) (free_list_ st)
    (next_page_id_ st) (disk_ st) (trace_ st ++ [e]).

(** [pages_[frame_id]]; outside the array the access is undefined. *)
Definition page_at (st : BufferPool) (frame_id : Z) : option Page :=
  if frame_id <? 0 then None else pages_ st !! Z.to_nat frame_id.

Definition set_page (st : BufferPool) (frame_id : Z) (p : Page)
  : BufferPool :=
  set_pages st (<[Z.to_nat frame_id := p]> (pages_ st)).

(** [disk_manager_->WritePage]. *)
Definition WritePage (st : BufferPool) (page_id : Z) (data : list Z)
  : BufferPool :=
  emit (set_disk st (<[page_id := data]> (disk_ st)))
       (EvWritePage page_id data).

(** [disk_manager_->ReadPage]: a page never written reads as zeroes. *)
Definition ReadPage (st : BufferPool) (page_id : Z) : list Z :=
  default zero_data (disk_ st !! page_id).

Section Pool.

(** [std::hash<page_id_t>] and the number of rounds given to the retry
    loop of [page_table_->Insert]. *)
Variable hash : Z → Z.
Variable fuel : nat.

(** Constructor. [bucket_size] is the constant [bucket_size_] of the
    header. *)
Definition BufferPoolManagerInstance (pool_size : nat) (replacer_k : Z)
    (bucket_size : nat) : BufferPool :=
  mkPool (replicate pool_size empty_page)
    (EHT.ExtendibleHashTable bucket_size)
    (LRUK.new (Z.of_nat pool_size) replacer_k)
    (Z.of_nat <$> seq 0 pool_size) 0 ∅ [].

(** The scan [for (i = 0; i < pool_size_; i++)] of [NewPgImp] and
    [FetchPgImp]: is there a frame whose pin count is 0? *)
Definition is_free_page (st : BufferPool) : bool :=
  existsb (λ p, pin_count_ p =? 0) (pages_ st).

(** [AllocatePage]: [next_page_id_++]. *)
Definition AllocatePage (st : BufferPool) : Z * BufferPool :=
  (next_page_id_ st, set_next_page_id st (next_page_id_ st + 1)).

(** The frame search shared by [NewPgImp] (lines 62-78) and [FetchPgImp]
    (lines 115-131): the front of the free list, else the replacer's victim,
    written back when dirty, zeroed, and taken out of the page table. When
    [Evict] finds no victim [frame_id] stays uninitialised: no result. *)
Definition TakeFrame (st : BufferPool) : option (Z * BufferPool) :=
  match free_list_ st with
  | frame_id :: rest => Some (frame_id, set_free_list st rest)
  | [] =>
      match LRUK.Evict (replacer_ st) with
      | (None, _) => None
      | (Some frame_id, rep) =>
          let st := set_replacer st rep in
          p ← page_at st frame_id;
          let evicted_page_id := page_id_ p in
          let st :=
            if is_dirty_ p
            then set_page (WritePage st evicted_page_id (data_ p)) frame_id
                   (mkPage (page_id_ p) (pin_count_ p) false (data_ p))
            else st in
          p ← page_at st frame_id;
          let st :=
            emit (set_page st frame_id
                    (mkPage (page_id_ p) (pin_count_ p) (is_dirty_ p)
                            zero_data))
                 (EvResetMemory frame_id) in
          '(_, t) ← EHT.Remove hash (page_table_ st) evicted_page_id;
          Some (frame_id, emit (set_table st t) (EvTableRemove evicted_page_id))
      end
  end.

(** [page_table_->Insert(page_id, frame_id)]. *)
Definition TableInsert (st : BufferPool) (page_id frame_id : Z)
  : option BufferPool :=
  t ← EHT.Insert hash fuel (page_table_ st) page_id frame_id;
  Some (emit (set_table st t) (EvTableInsert page_id frame_id)).

(** [replacer_->RecordAccess(frame_id); replacer_->SetEvictable(frame_id,
    false)]. *)
Definition touch (st : BufferPool) (frame_id now : Z) : option BufferPool :=
  r ← LRUK.RecordAccess (replacer_ st) frame_id now;
  r ← LRUK.SetEvictable r frame_id false;
  Some (set_replacer st r).

(** [NewPgImp]. The result is the new page id with the frame that holds the
    page, or the null pointer ([None]). [now] is the clock value read by the
    replacer. *)
Definition NewPgImp (st : BufferPool) (now : Z)
  : option (option (Z * Z) * BufferPool) :=
  if negb (is_free_page st) then Some (None, st)
  else
    let '(page_id, st) := AllocatePage st in
    '(frame_id, st) ← TakeFrame st;
    st ← TableInsert st page_id frame_id;
    p ← page_at st frame_id;
    let st :=
      set_page st frame_id (mkPage page_id 1 (is_dirty_ p) (data_ p)) in
    st ← touch st frame_id now;
    Some (Some (page_id, frame_id), st).

(** [FetchPgImp]. The result is the frame that holds the page, or null. *)
Definition FetchPgImp (st : BufferPool) (page_id now : Z)
  : option (option Z * BufferPool) :=
  match EHT.Find hash (page_table_ st) page_id with
  | Some frame_id =>
      p ← page_at st frame_id;
      let st :=
        set_page st frame_id
          (mkPage (page_id_ p) (pin_count_ p + 1) (is_dirty_ p) (data_ p)) in
      st ← touch st frame_id now;
      Some (Some frame_id, st)
  | None =>
      if negb (is_free_page st) then Some (None, st)
      else
        '(frame_id, st) ← TakeFrame st;
        st ← TableInsert st page_id frame_id;
        p ← page_at st frame_id;
        let st :=
          set_page st frame_id (mkPage page_id 1 (is_dirty_ p) (data_ p)) in
        p ← page_at st frame_id;
        let st :=
          emit (set_page st frame_id
                  (mkPage (page_id_ p) (pin_count_ p) (is_dirty_ p)
                          (ReadPage st page_id)))
               (EvReadPage page_id frame_id) in
        st ← touch st frame_id now;
        Some (Some frame_id, st)
  end.

(** [UnpinPgImp]. *)
Definition UnpinPgImp (st : BufferPool) (page_id : Z) (is_dirty : bool)
  : option (bool * BufferPool) :=
  match EHT.Find hash (page_table_ st) page_id with
  | None => Some (false, st)
  | Some frame_id =>
      p ← page_at st frame_id;
      if pin_count_ p <=? 0 then Some (false, st)
      else
        let p :=
          if is_dirty
          then mkPage (page_id_ p) (pin_count_ p) is_dirty (data_ p)
          else p in
        let p :=
          mkPage (page_id_ p) (pin_count_ p - 1) (is_dirty_ p) (data_ p) in
        let st := set_page st frame_id p in
        if pin_count_ p =? 0 then
          r ← LRUK.SetEvictable (replacer_ st) frame_id true;
          Some (true, set_replacer st r)
        else Some (true, st)
  end.

(** [FlushPgImp]. *)
Definition FlushPgImp (st : BufferPool) (page_id : Z)
  : option (bool * BufferPool) :=
  if page_id =? INVALID_PAGE_ID then Some (false, st)
  else
    match EHT.Find hash (page_table_ st) page_id with
    | None => Some (false, st)
    | Some frame_id =>
        p ← page_at st frame_id;
        Some (true, WritePage st page_id (data_ p))
    end.

(** [FlushAllPgsImp]: [FlushPgImp] of the page id of every frame. *)
Definition FlushAllPgsImp (st : BufferPool) : option BufferPool :=
  foldl (λ ost frame_id,
           st ← ost;
           p ← pages_ st !! frame_id;
           '(_, st) ← FlushPgImp st (page_id_ p);
           Some st)
        (Some st) (seq 0 (length (pages_ st))).

(** [DeletePgImp]. Modelled from the spec: [DeallocatePage] is declared in
    the header and has no effect on the state of the pool. *)
Definition DeletePgImp (st : BufferPool) (page_id : Z)
  : option (bool * BufferPool) :=
  match EHT.Find hash (page_table_ st) page_id with
  | None => Some (true, st)
  | Some frame_id =>
      p ← page_at st frame_id;
      if 0 <? pin_count_ p then Some (false, st)
      else
        r ← LRUK.Remove (replacer_ st) frame_id;
        let st := set_replacer st r in
        let st :=
          emit (set_page st frame_id (mkPage INVALID_PAGE_ID 0 false zero_data))
               (EvResetMemory frame_id) in
        '(_, t) ← EHT.Remove hash (page_table_ st) page_id;
        let st := emit (set_table st t) (EvTableRemove page_id) in
        Some (true, set_free_list st (free_list_ st ++ [frame_id]))
  end.

End Pool.

End BPM.
(** ** B+-tree insertion and search (storage/index/b_plus_tree.cpp)

    The tree reaches its nodes through the buffer pool, by page id. Here
    the pool is the map [pages_] from page ids to node pages; it is assumed
    large enough to keep every node resident, so that [FetchPage] of a
    known id and [NewPage] always succeed. Latches, the root latch and the
    transaction's page set only order concurrent threads and are left out.
    Keys are integers under their usual order; a record id is an integer.

    The node classes (leaf and internal page) and the helpers of the tree's
    header are not among the sources. Those that the specification
    describes are modelled from it; the others are parameters. *)

Module BPT.

Definition INVALID_PAGE_ID : Z := -1.

(** A node page: the common header, the leaf's [next_page_id_], and the
    array of (key, value) pairs. [GetSize()] is the length of the array. In
    an internal page the value is a child page id and the key of slot 0 is
    not used. *)
Record TreePage := mkTreePage {
  is_leaf_ : bool;
  page_id_ : Z;
  parent_page_id_ : Z;
  max_size_ : Z;
  next_page_id_ : Z;
  array_ : list (Z * Z)
}.

Definition GetSize (n : TreePage) : Z := Z.of_nat (length (array_ n)).

Definition set_array (n : TreePage) (a : list (Z * Z)) : TreePage :=
  mkTreePage (is_leaf_ n) (page_id_ n) (parent_page_id_ n) (max_size_ n)
    (next_page_id_ n) a.

Definition SetParentPageId (n : TreePage) (p : Z) : TreePage :=
  mkTreePage (is_leaf_ n) (page_id_ n) p (max_size_ n) (next_page_id_ n)
    (array_ n).

Definition SetNextPageId (n : TreePage) (p : Z) : TreePage :=
  mkTreePage (is_leaf_ n) (page_id_ n) (parent_page_id_ n) (max_size_ n) p
    (array_ n).

(** Modelled from the spec: [IsRootPage] is a method of the page header;
    the root is the node without a parent. *)
Definition IsRootPage (n : TreePage) : bool :=
  parent_page_id_ n =? INVALID_PAGE_ID.

Inductive OpeType := FIND | INSERT | REMOVE.

(** Modelled from the spec: [IsSafe] is not among the sources; "a node is
    safe ... for Insert, [size < max_size]; for Remove, [size > min_size]",
    with [min_size] the half of [max_size] rounded up. *)
Definition IsSafe (n : TreePage) (op : OpeType) : bool :=
  match op with
  | INSERT => GetSize n <? max_size_ n
  | REMOVE => (max_size_ n + 1) / 2 <? GetSize n
  | FIND => true
  end.

(** The position found by the search inside a node: the first slot, from
    [from] on, whose key is not below [key]. *)
Fixpoint lower_bound (a : list (Z * Z)) (key : Z) : nat :=
  match a with
  | [] => O
  | (k, _) :: r => if k <? key then S (lower_bound r key) else O
  end.

(** Modelled from the spec: leaf page [GetValue]; "within the leaf,
    binary-search for exact match". *)
Definition leaf_GetValue (n : TreePage) (key : Z) : option Z :=
  match array_ n !! lower_bound (array_ n) key with
  | Some (k, v) => if k =? key then Some v else None
  | None => None
  end.

(** Modelled from the spec: leaf page [Insert]; "keys are unique; duplicate
    insert returns false without modification". The pair goes to the
    position found by the search. *)
Definition leaf_Insert (n : TreePage) (key value : Z) : bool * TreePage :=
  let i := lower_bound (array_ n) key in
  match array_ n !! i with
  | Some (k, _) =>
      if k =? key then (false, n)
      else (true, set_array n (take i (array_ n) ++ (key, value)
                                 :: drop i (array_ n)))
  | None => (true, set_array n (array_ n ++ [(key, value)]))
  end.

(** Modelled from the spec: leaf page [Split]; "allocate a right sibling,
    move the upper half of entries to it". The upper half starts at
    position [size / 2]. *)
Definition leaf_Split (n right : TreePage) : TreePage * TreePage :=
  let m := (length (array_ n) / 2)%nat in
  (set_array n (take m (array_ n)), set_array right (drop m (array_ n))).

(** Modelled from the spec: internal page [Search]; "the largest slot [i]
    such that [key_i <= k] (slot 0 has no key, acts as less-than [key_1])". *)
Fixpoint search_from (a : list (Z * Z)) (key : Z) (i : nat) : nat :=
  match a with
  | [] => i
  | (k, _) :: r => if k <=? key then search_from r key (S i) else i
  end.

Definition internal_Search (n : TreePage) (key : Z) : nat :=
  search_from (tail (array_ n)) key O.

(** The tree object with the pages it reaches. [alloc_] is the page id that
    the pool hands out next. *)
Record BPlusTree := mkTree {
  root_page_id_ : Z;
  leaf_max_size_ : Z;
  internal_max_size_ : Z;
  right_most_ : Z;
  pages_ : gmap Z TreePage;
  alloc_ : Z
}.

(** Constructor; [first_page] is the first id that the pool will hand out. *)
Definition BPlusTree_new (leaf_max_size internal_max_size first_page : Z)
  : BPlusTree :=
  mkTree INVALID_PAGE_ID leaf_max_size internal_max_size INVALID_PAGE_ID
    ∅ first_page.

Definition IsEmpty (t : BPlusTree) : bool :=
  root_page_id_ t =? INVALID_PAGE_ID.

Definition set_pages (t : BPlusTree) (ps : gmap Z TreePage) : BPlusTree :=
  mkTree (root_page_id_ t) (leaf_max_size_ t) (internal_max_size_ t)
    (right_most_ t) ps (alloc_ t).

(** A write through a pointer to the node held in page [at_]. *)
Definition store (t : BPlusTree) (at_ : Z) (n : TreePage) : BPlusTree :=
  set_pages t (<[at_ := n]> (pages_ t)).

(** Modelled from the spec: the page constructors [NewLeafPage],
    [NewInternalPage], [NewLeafRootPage] and [NewInternalRootPage] of the
    tree's header: a page with a fresh id, empty, of the given kind and
    parent, with the tree's maximal size for that kind; the root variants
    also publish the id as [root_page_id_]. *)
Definition new_page (t : BPlusTree) (leaf : bool) (parent : Z)
  : Z * BPlusTree :=
  let id := alloc_ t in
  let n :=
    mkTreePage leaf id parent
      (if leaf then leaf_max_size_ t else internal_max_size_ t)
      INVALID_PAGE_ID [] in
  (id, mkTree (root_page_id_ t) (leaf_max_size_ t) (internal_max_size_ t)
         (right_most_ t) (<[id := n]> (pages_ t)) (id + 1)).

Definition NewLeafPage (t : BPlusTree) (parent : Z) : Z * BPlusTree :=
  new_page t true parent.

Definition NewInternalPage (t : BPlusTree) (parent : Z) : Z * BPlusTree :=
  new_page t false parent.

Definition set_root (t : BPlusTree) (id : Z) : BPlusTree :=
  mkTree id (leaf_max_size_ t) (internal_max_size_ t) (right_most_ t)
    (pages_ t) (alloc_ t).

Definition NewLeafRootPage (t : BPlusTree) : Z * BPlusTree :=
  let '(id, t) := new_page t true INVALID_PAGE_ID in (id, set_root t id).

Definition NewInternalRootPage (t : BPlusTree) : Z * BPlusTree :=
  let '(id, t) := new_page t false INVALID_PAGE_ID in (id, set_root t id).

(** Modelled from the spec: [UpdateChild(node, from, to)]; "every non-root
    node's parent pointer matches the page that contains it as a child": the
    children in the slots [from, to) get [node] as their parent. *)
Definition UpdateChild (t : BPlusTree) (node : TreePage) (from to : nat)
  : BPlusTree :=
  foldl (λ t kv,
           match pages_ t !! kv.2 with
           | Some c => store t kv.2 (SetParentPageId c (page_id_ node))
           | None => t
           end)
        t (take (to - from) (drop from (array_ node))).

Section Tree.

(** The methods of the internal page used when a split reaches the parent
    ([LowerBound], [InsertAt], [Split]): parameters, on the array of the
    page. [internal_Split a key value] gives the arrays of the page and of its
    new right sibling. *)
Variable internal_LowerBound : list (Z * Z) → Z → Z.
Variable internal_InsertAt : list (Z * Z) → Z → Z → Z → list (Z * Z).
Variable internal_Split :
  list (Z * Z) → Z → Z → list (Z * Z) * list (Z * Z).

(** The descent of [FindLeafPage] from the node in page [at_]: at an
    internal node, [Search], then [FetchChildPage]; the [assert] on the
    child's parent pointer aborts ([None]). The three loops of the source
    (find, optimistic, pessimistic) differ in their latches only. *)
Fixpoint descend (fuel : nat) (t : BPlusTree) (at_ : Z) (key : Z)
  : option Z :=
  node ← pages_ t !! at_;
  if is_leaf_ node then Some at_
  else
    match fuel with
    | O => None
    | S fuel' =>
        let index := internal_Search node key in
        '(_, child) ← array_ node !! index;
        next ← pages_ t !! child;
        if parent_page_id_ next =? page_id_ node
        then descend fuel' t child key
        else None
    end.

(** [FindLeafPage]: the page that holds the leaf for [key], or null
    ([None] inside) for an empty tree that is not being inserted into. *)
Definition FindLeafPage (fuel : nat) (t : BPlusTree) (key : Z)
    (operation : OpeType) : option (option Z * BPlusTree) :=
  if IsEmpty t then
    match operation with
    | INSERT => let '(id, t) := NewLeafRootPage t in Some (Some id, t)
    | _ => Some (None, t)
    end
  else
    leaf ← descend fuel t (root_page_id_ t) key;
    Some (Some leaf, t).

(** [GetValue]: [None] inside when the key is not found. *)
Definition GetValue (fuel : nat) (t : BPlusTree) (key : Z)
  : option (option Z) :=
  '(page, t) ← FindLeafPage fuel t key FIND;
  match page with
  | None => Some None
  | Some at_ =>
      leaf_node ← pages_ t !! at_;
      Some (leaf_GetValue leaf_node key)
  end.

(** [InsertInParent]; one unit of fuel per level climbed. *)
Fixpoint InsertInParent (fuel : nat) (t : BPlusTree)
    (left_at right_at : Z) (key value : Z) : option BPlusTree :=
  left_node ← pages_ t !! left_at;
  right_node ← pages_ t !! right_at;
  if IsRootPage left_node then
    let '(root_id, t) := NewInternalRootPage t in
    root_node ← pages_ t !! root_id;
    let root_node :=
      set_array root_node
        [(0, page_id_ left_node); (key, page_id_ right_node)] in
    let t := store t root_id root_node in
    let t := store t left_at (SetParentPageId left_node (root_page_id_ t)) in
    let t :=
      store t right_at (SetParentPageId right_node (root_page_id_ t)) in
    Some t
  else
    match fuel with
    | O => None
    | S fuel' =>
        let parent_at := parent_page_id_ left_node in
        parent_node ← pages_ t !! parent_at;
        if negb (GetSize parent_node <=? max_size_ parent_node) then None
        else if IsSafe parent_node INSERT then
          let index := internal_LowerBound (array_ parent_node) key in
          if negb (0 <? index) then None
          else
            Some (store t parent_at
                    (set_array parent_node
                       (internal_InsertAt (array_ parent_node) index key
                          (page_id_ right_node))))
        else
          let '(parent_right_at, t) :=
            NewInternalPage t (parent_page_id_ parent_node) in
          parent_right_node ← pages_ t !! parent_right_at;
          let '(a, b) :=
            internal_Split (array_ parent_node) key (page_id_ right_node) in
          let parent_node := set_array parent_node a in
          let parent_right_node := set_array parent_right_node b in
          let t := store (store t parent_at parent_node)
                         parent_right_at parent_right_node in
          let t := UpdateChild t parent_right_node 0 (length b) in
          '(key0, child0) ← b !! O;
          parent_right_node ← pages_ t !! parent_right_at;
          let t :=
            store t parent_right_at
              (set_array parent_right_node
                 ((0, child0) :: tail (array_ parent_right_node))) in
          InsertInParent fuel' t parent_at parent_right_at key0
            (page_id_ parent_right_node)
    end.

(** Lines 275-276 of [InsertPessimistic], after [leaf_node->Split]:
    [right_node->SetNextPageId(leaf_node->GetNextPageId());
     leaf_node->SetNextPageId(right_node->GetNextPageId());] *)
Definition link_sibling (leaf_node right_node : TreePage)
  : TreePage * TreePage :=
  let right_node := SetNextPageId right_node (next_page_id_ leaf_node) in
  let leaf_node := SetNextPageId leaf_node (next_page_id_ right_node) in
  (leaf_node, right_node).

Definition set_right_most (t : BPlusTree) (id : Z) : BPlusTree :=
  mkTree (root_page_id_ t) (leaf_max_size_ t) (internal_max_size_ t) id
    (pages_ t) (alloc_ t).

(** [InsertPessimistic]. *)
Definition InsertPessimistic (fuel : nat) (t : BPlusTree) (key value : Z)
  : option (bool * BPlusTree) :=
  '(page, t) ← FindLeafPage fuel t key INSERT;
  at_ ← page;
  leaf_node ← pages_ t !! at_;
  if IsSafe leaf_node INSERT then
    let '(inserted, leaf_node) := leaf_Insert leaf_node key value in
    Some (inserted, store t at_ leaf_node)
  else
    let '(inserted, leaf_node) := leaf_Insert leaf_node key value in
    let t := store t at_ leaf_node in
    if negb inserted then Some (false, t)
    else
      let '(right_page_id, t) := NewLeafPage t (parent_page_id_ leaf_node) in
      right_node ← pages_ t !! right_page_id;
      let '(leaf_node, right_node) := leaf_Split leaf_node right_node in
      let '(leaf_node, right_node) := link_sibling leaf_node right_node in
      let t := store (store t at_ leaf_node) right_page_id right_node in
      let t :=
        if right_most_ t =? page_id_ leaf_node
        then set_right_most t right_page_id else t in
      '(key0, _) ← array_ right_node !! O;
      t ← InsertInParent fuel t at_ right_page_id key0 right_page_id;
      Some (true, t).

(** [Insert]: the optimistic attempt, then [InsertPessimistic]. *)
Definition Insert (fuel : nat) (t : BPlusTree) (key value : Z)
  : option (bool * BPlusTree) :=
  '(page, t) ← FindLeafPage fuel t key INSERT;
  at_ ← page;
  leaf_node ← pages_ t !! at_;
  if IsSafe leaf_node INSERT then
    let '(inserted, leaf_node) := leaf_Insert leaf_node key value in
    Some (inserted, store t at_ leaf_node)
  else InsertPessimistic fuel t key value.

(** A sequence of [Insert] calls of keys, each with its own value. *)
Definition InsertAll (fuel : nat) (t : BPlusTree) (kvs : list (Z * Z))
  : option BPlusTree :=
  foldl (λ ot kv, t ← ot; '(_, t) ← Insert fuel t kv.1 kv.2; Some t)
        (Some t) kvs.

(** The [Remove] method of the leaf page is not among the sources: a
    parameter, which gives whether the key was removed and the page
    afterwards. *)
Variable leaf_Remove : TreePage → Z → bool * TreePage.

(** [RemovePessimistic]: the body is empty. *)
Definition RemovePessimistic (t : BPlusTree) (key : Z) : BPlusTree := t.

(** [Remove]: the optimistic attempt, then [RemovePessimistic]. *)
Definition Remove (fuel : nat) (t : BPlusTree) (key : Z)
  : option BPlusTree :=
  '(page, t) ← FindLeafPage fuel t key REMOVE;
  match page with
  | None => Some t
  | Some at_ =>
      leaf_node ← pages_ t !! at_;
      if IsSafe leaf_node REMOVE then
        let '(_, leaf_node) := leaf_Remove leaf_node key in
        Some (store t at_ leaf_node)
      else Some (RemovePessimistic t key)
  end.

End Tree.

End BPT.
(** * Vocabulary of the properties

    Predicates, invariants and the concrete runs that the properties below
    are stated with. *)

Section EHT_vocabulary.

Import EHT.

(** The instance used for the concrete runs: integer keys hashed by the
    identity (what [std::hash<int>] is in libstdc++ and libc++). *)
Definition int_hash (k : Z) : Z := k.

(** Keys 0, 4, 1, 5 inserted in this order into a table of bucket size 1. *)
Definition eht_keys : list (Z * Z) := [(0, 100); (4, 104); (1, 101); (5, 105)].

(** A run of [Insert] calls from the empty table of bucket size 1, eight
    rounds allowed to each call. *)
Definition eht_run (kvs : list (Z * Z)) : option (Table (V:=Z)) :=
  InsertAll int_hash 8 (ExtendibleHashTable 1) kvs.

(** The shape of a table on which [Insert] of key 3 cannot succeed: slots 3
    and 5 of the directory hold the same full bucket, of local depth equal
    to the global depth, whose only key is 5. *)
Definition stuck (t : Table (V:=Z)) : Prop :=
  3 ≤ global_depth_ t ∧
  length (dir_ t) = Z.to_nat (2 ^ global_depth_ t) ∧
  ∃ (r : nat) (v : Z),
    dir_ t !! 3%nat = Some r ∧ dir_ t !! 5%nat = Some r ∧
    buckets_ t !! r = Some (mkBucket 1 (global_depth_ t) [(5, v)]).

(** The table reached by inserting the keys 0, 4, 1, 5 (bucket size 1). *)
Definition eht_bad : Table (V:=Z) :=
  mkTable 3 1 5 [0; 1; 2; 4; 3; 4; 2; 1]%nat
    [mkBucket 1 3 [(0, 100)]; mkBucket 1 2 [(1, 101)]; mkBucket 1 2 [];
     mkBucket 1 3 [(4, 104)]; mkBucket 1 2 [(5, 105)]].

(** The table after the first round of [Insert(3, v)] on [eht_bad]: the
    bucket of slot 3 was split (local depth 3), slot 7 holds the new bucket,
    and key 5 is back in the old one through slot 5. *)
Definition eht_bad_split : Table (V:=Z) :=
  mkTable 3 1 6 [0; 1; 2; 4; 3; 4; 2; 5]%nat
    [mkBucket 1 3 [(0, 100)]; mkBucket 1 2 [(1, 101)]; mkBucket 1 2 [];
     mkBucket 1 3 [(4, 104)]; mkBucket 1 3 [(5, 105)]; mkBucket 1 3 []].

End EHT_vocabulary.

Section LRUK_vocabulary.

Import LRUK.

(** The order of the two sets, as a relation. *)
Definition nlt (a b : Node) : Prop := Node_lt a b = true.

(** What the single timestamp of a frame holds, given the frame's access
    history [l] (most recent first): the most recent access once the frame
    has [k] accesses, the first access before that. *)
Definition tracked_time (k : Z) (l : list Z) : option Z :=
  if k <=? Z.of_nat (length l) then head l else last l.

(** Frame [f] is evictable, carries timestamp [t], and has fewer than [k]
    accesses ([young = true]) or at least [k] ([young = false]). *)
Definition candidate (k : Z) (r : LRUKReplacer) (h : History)
    (young : bool) (f t : Z) : Prop :=
  ∃ l, h !! f = Some l ∧ evitable_ r !! f = Some true ∧
       frame_time_ r !! f = Some t ∧
       (if young then Z.of_nat (length l) < k else k ≤ Z.of_nat (length l)).

(** The record of frame [f] agrees with its history: an untracked frame
    has no entry in any map; a tracked frame has its number of accesses as
    count and a timestamp as told by [tracked_time]. *)
Definition frame_ok (k : Z) (n : nat) (r : LRUKReplacer) (h : History)
    (f : Z) : Prop :=
  match h !! f with
  | None =>
      frame_cnt_ r !! f = None ∧ frame_time_ r !! f = None ∧
      evitable_ r !! f = None
  | Some l =>
      l ≠ [] ∧ (length l ≤ n)%nat ∧
      frame_cnt_ r !! f = Some (Z.of_nat (length l)) ∧
      frame_time_ r !! f = tracked_time k l ∧
      is_Some (evitable_ r !! f)
  end.

(** The invariant of the replacer along a run of at most [n] operations,
    with the histories [h] of the tracked frames: every record agrees with
    its history, [inf_set_] holds exactly the nodes of the evictable frames
    with fewer than [k] accesses, [kth_set_] those of the evictable frames
    with [k] accesses or more, and both sets are in increasing order. *)
Record Inv (k : Z) (n : nat) (r : LRUKReplacer) (h : History) : Prop := mkInv {
  inv_k : k_ r = k;
  inv_frame : ∀ f, frame_ok k n r h f;
  inv_inf : ∀ nd, nd ∈ inf_set_ r ↔ candidate k r h true (id_ nd) (time_ nd);
  inv_kth : ∀ nd, nd ∈ kth_set_ r ↔ candidate k r h false (id_ nd) (time_ nd);
  inv_inf_sorted : StronglySorted nlt (inf_set_ r);
  inv_kth_sorted : StronglySorted nlt (kth_set_ r)
}.

(** The maps of [r'] and [h'] agree with those of [r] and [h] at [g]. *)
Definition same_at (r r' : LRUKReplacer) (h h' : History) (g : Z) : Prop :=
  h' !! g = h !! g ∧ frame_cnt_ r' !! g = frame_cnt_ r !! g ∧
  frame_time_ r' !! g = frame_time_ r !! g ∧
  evitable_ r' !! g = evitable_ r !! g.

(** [f] is a candidate of its class that no candidate of the class
    precedes in the order of the sets (timestamp, then frame id). *)
Definition oldest (k : Z) (r : LRUKReplacer) (h : History)
    (young : bool) (f : Z) : Prop :=
  ∃ t, candidate k r h young f t ∧
       ∀ g u, candidate k r h young g u →
              Node_lt (mkNode g u) (mkNode f t) = false.

(** What [Evict] returns: the oldest frame with fewer than [k] accesses
    if there is an evictable one, else the oldest frame with [k] accesses
    or more, and nothing only when no frame is evictable. *)
Definition victim_rule (k : Z) (r : LRUKReplacer) (h : History) : Prop :=
  match (Evict r).1 with
  | Some f =>
      oldest k r h true f ∨
      ((∀ g u, ¬ candidate k r h true g u) ∧ oldest k r h false f)
  | None => ∀ young g u, ¬ candidate k r h young g u
  end.

(** Frames A = 0, B = 1, C = 2; accesses A, B, A, B, C at times 1 to 5,
    then all three frames made evictable. *)
Definition lruk_example : list Op :=
  [OpRecordAccess 0 1; OpRecordAccess 1 2; OpRecordAccess 0 3;
   OpRecordAccess 1 4; OpRecordAccess 2 5;
   OpSetEvictable 0 true; OpSetEvictable 1 true; OpSetEvictable 2 true].

(** Accesses A, B, B, A at times 1 to 4, then both frames made
    evictable. *)
Definition lruk_abba : list Op :=
  [OpRecordAccess 0 1; OpRecordAccess 1 2; OpRecordAccess 1 3;
   OpRecordAccess 0 4; OpSetEvictable 0 true; OpSetEvictable 1 true].

(** The replacer and the histories after [lruk_abba], with [k = 2] and
    room for three frames. *)
Definition lruk_abba_replacer : LRUKReplacer :=
  mkReplacer 4 2 1 2 (<[0 := 2]> (<[1 := 2]> ∅))
    (<[0 := 4]> (<[1 := 3]> ∅)) (<[0 := true]> (<[1 := true]> ∅))
    [] [mkNode 1 3; mkNode 0 4].

Definition lruk_abba_history : History :=
  <[0 := [4; 1]]> (<[1 := [3; 2]]> ∅).

(** The time of the [k]-th most recent access in a history. *)
Definition kth_recent (k : Z) (l : list Z) : option Z :=
  l !! Z.to_nat (k - 1).

End LRUK_vocabulary.

Section BPM_vocabulary.

Import BPM.

(** [pool1]: a new pool with one frame ([k = 2], bucket size 4);
    [pool1_new]: after [NewPage], which creates page 0 in frame 0;
    [pool1_dirty]: after [UnpinPage(0, true)]. *)
Definition pool1 : BPM.BufferPool := BPM.BufferPoolManagerInstance 1 2 4.

(** The pool after a call, or [st] when the call has no result. *)
Definition pool_after {A} (st : BPM.BufferPool)
    (r : option (A * BPM.BufferPool)) : BPM.BufferPool :=
  from_option snd st r.

Definition pool1_new : BPM.BufferPool :=
  pool_after pool1 (BPM.NewPgImp int_hash 8 pool1 1).

Definition pool1_dirty : BPM.BufferPool :=
  pool_after pool1_new (BPM.UnpinPgImp int_hash pool1_new 0 true).

(** Every frame is pinned. *)
Definition all_pinned (st : BufferPool) : Prop :=
  Forall (λ p, 0 < pin_count_ p) (pages_ st).

(** No pin count is negative. *)
Definition pins_nonneg (st : BufferPool) : Prop :=
  Forall (λ p, 0 ≤ pin_count_ p) (pages_ st).

(** The calls of the pool, and the pools reached by a run of calls. *)
Inductive PoolOp :=
  | DoNewPage (now : Z)
  | DoFetchPage (page_id now : Z)
  | DoUnpinPage (page_id : Z) (is_dirty : bool)
  | DoFlushPage (page_id : Z)
  | DoDeletePage (page_id : Z).

Definition pool_step (hash : Z → Z) (fuel : nat) (st : BufferPool)
    (op : PoolOp) : option BufferPool :=
  match op with
  | DoNewPage now => snd <$> NewPgImp hash fuel st now
  | DoFetchPage page_id now => snd <$> FetchPgImp hash fuel st page_id now
  | DoUnpinPage page_id is_dirty => snd <$> UnpinPgImp hash st page_id is_dirty
  | DoFlushPage page_id => snd <$> FlushPgImp hash st page_id
  | DoDeletePage page_id => snd <$> DeletePgImp hash st page_id
  end.

Definition pool_run (hash : Z → Z) (fuel : nat) (st : BufferPool)
    (ops : list PoolOp) : option BufferPool :=
  foldl (λ ost op, st ← ost; pool_step hash fuel st op) (Some st) ops.

(** The invariant of the pool along a run: no negative pin count, and a
    replacer that satisfies its own invariant. *)
Definition pool_ok (k : Z) (n : nat) (st : BufferPool) : Prop :=
  pins_nonneg st ∧ ∃ h, Inv k n (replacer_ st) h.

(** The steps recorded when frame [f], holding page [p], is taken from the
    replacer: the write-back if [p] is dirty, the zeroing of the frame, the
    removal of [p]'s id from the page table. *)
Definition eviction_events (f : Z) (p : Page) : list Event :=
  (if is_dirty_ p then [EvWritePage (page_id_ p) (data_ p)] else [])
  ++ [EvResetMemory f; EvTableRemove (page_id_ p)].

End BPM_vocabulary.

Section BPT_vocabulary.

Import BPT.

(** The tree with [leaf_max_size = 3] after the keys 1, 2, 3, 4: page 3 is
    the root with keys [_, 3], page 1 the left leaf, page 2 the right
    leaf. *)
Definition tree_1234 : BPlusTree :=
  mkTree 3 3 3 INVALID_PAGE_ID
    (<[1 := mkTreePage true 1 3 3 INVALID_PAGE_ID [(1, 11); (2, 12)]]>
       (<[2 := mkTreePage true 2 3 3 INVALID_PAGE_ID [(3, 13); (4, 14)]]>
          (<[3 := mkTreePage false 3 INVALID_PAGE_ID 3 INVALID_PAGE_ID
                    [(0, 1); (3, 2)]]> ∅)))
    4.

End BPT_vocabulary.
(** * Vocabulary of the further properties *)

Section EHT_runs.

Import EHT.

Context {V : Type} `{EqDecision V}.

(** The calls that change a table, and the tables reached by a run of
    them. *)
Inductive TableOp :=
  | TInsert (key : Z) (value : V)
  | TRemove (key : Z).

Definition table_step (hash : Z → Z) (fuel : nat) (t : Table (V:=V))
    (op : TableOp) : option (Table (V:=V)) :=
  match op with
  | TInsert key value => Insert hash fuel t key value
  | TRemove key => snd <$> Remove hash t key
  end.

Definition table_run (hash : Z → Z) (fuel : nat) (t : Table (V:=V))
    (ops : list TableOp) : option (Table (V:=V)) :=
  foldl (λ ot op, t ← ot; table_step hash fuel t op) (Some t) ops.

(** The directory has [2 ^ global_depth_] slots and every slot refers to a
    bucket object. *)
Definition dir_shape (t : Table (V:=V)) : Prop :=
  0 ≤ global_depth_ t ∧
  length (dir_ t) = Z.to_nat (2 ^ global_depth_ t) ∧
  Forall (λ r, (r < length (buckets_ t))%nat) (dir_ t).

(** A bucket of the table's capacity that holds no more items than its
    capacity and no key twice. *)
Definition bucket_ok (bucket_size : nat) (b : Bucket (V:=V)) : Prop :=
  size_ b = bucket_size ∧ (length (list_ b) ≤ bucket_size)%nat ∧
  NoDup (list_ b).*1.

Definition buckets_ok (t : Table (V:=V)) : Prop :=
  Forall (bucket_ok (bucket_size_ t)) (buckets_ t).

(** The invariant of the table along a run of calls. *)
Definition table_ok (t : Table (V:=V)) : Prop := dir_shape t ∧ buckets_ok t.

End EHT_runs.

Section EHT_examples.

Import EHT.

(** Tables of bucket size 2: [eht_02] after the keys 0 and 2 (one full
    bucket, global depth 0); [eht_024] after the key 4 was added, which
    takes two doublings of the directory. *)
Definition eht_02 : Table (V:=Z) :=
  mkTable 0 2 1 [0%nat] [mkBucket 2 0 [(0, 100); (2, 102)]].

Definition eht_024 : Table (V:=Z) :=
  mkTable 2 2 3 [0; 1; 2; 1]%nat
    [mkBucket 2 2 [(0, 100); (4, 104)]; mkBucket 2 1 [];
     mkBucket 2 2 [(2, 102)]].

End EHT_examples.


Section LRUK_accounting.

Import LRUK.

(** The number of frames whose evictable flag is set. *)
Definition flag_count (m : gmap Z bool) : nat :=
  size (filter (λ kv : Z * bool, kv.2 = true) m).

Definition evictable_count (r : LRUKReplacer) : nat :=
  flag_count (evitable_ r).

(** The number of frames that the replacer keeps a record of. *)
Definition tracked_count (r : LRUKReplacer) : nat := size (frame_time_ r).

(** The accounting of a replacer made for [num_frames] frames, along a run
    of at most [n] operations: [cur_size_] counts the evictable frames, and
    [replacer_size_] is the room left for new frames. *)
Definition Acct (num_frames : Z) (n : nat) (r : LRUKReplacer) : Prop :=
  cur_size_ r = Z.of_nat (evictable_count r) ∧
  (evictable_count r ≤ n)%nat ∧
  Z.of_nat (tracked_count r) + replacer_size_ r = num_frames ∧
  0 ≤ replacer_size_ r.

End LRUK_accounting.

Section BPM_safety.

Import BPM.

(** The flags of the replacer agree with the pin counts: a frame flagged
    evictable holds a page that nobody pins, a frame flagged not evictable
    holds a pinned page. *)
Definition flags_agree (st : BufferPool) : Prop :=
  ∀ (f : Z) (e : bool), LRUK.evitable_ (replacer_ st) !! f = Some e →
    ∃ p, page_at st f = Some p ∧
         if e then pin_count_ p = 0 else 0 < pin_count_ p.

(** The invariant of the pool with the agreement of flags and pins. *)
Definition pool_safe (k : Z) (n : nat) (st : BufferPool) : Prop :=
  pool_ok k n st ∧ flags_agree st.

(** The pool of one frame after page 0 was created and unpinned dirty
    ([pool1_dirty]), then: [pool1_second] after a second [NewPage], which
    evicts page 0; [pool1_fetch7] after [FetchPage(7)] instead, which evicts
    page 0 and reads page 7. *)
Definition pool1_second : BufferPool :=
  pool_after pool1_dirty (NewPgImp int_hash 8 pool1_dirty 3).

Definition pool1_fetch7 : BufferPool :=
  pool_after pool1_dirty (FetchPgImp int_hash 8 pool1_dirty 7 3).

End BPM_safety.

Section BPT_examples.

Import BPT.

(** The tree with [leaf_max_size = 3] after the keys 1, 2, 3: page 1 is
    the root, a leaf that is full. *)
Definition tree_123 : BPlusTree :=
  mkTree 1 3 3 INVALID_PAGE_ID
    (<[1 := mkTreePage true 1 INVALID_PAGE_ID 3 INVALID_PAGE_ID
              [(1, 11); (2, 12); (3, 13)]]> ∅)
    2.

End BPT_examples.

Section EHT_stuck_tables.

Import EHT.

(** The shape of a table on which [Insert] of key 3 cannot succeed,
    whatever the bucket size: slot 3 and every slot whose index is 5 modulo
    8 hold the same bucket, which is full, has local depth equal to the
    global depth, and holds only keys that are 5 modulo 8. *)
Definition stuck_full (t : Table (V:=Z)) : Prop :=
  3 ≤ global_depth_ t ∧
  length (dir_ t) = Z.to_nat (2 ^ global_depth_ t) ∧
  ∃ (r : nat) (l : list (Z * Z)),
    dir_ t !! 3%nat = Some r ∧
    (∀ s : nat, (s < length (dir_ t))%nat → Z.of_nat s mod 8 = 5 →
                dir_ t !! s = Some r) ∧
    buckets_ t !! r = Some (mkBucket (length l) (global_depth_ t) l) ∧
    NoDup l.*1 ∧
    Forall (λ kv : Z * Z, 0 ≤ kv.1 ∧ kv.1 mod 8 = 5) l.

(** The page table of bucket size 1 that maps the pages 0, 4, 1, 5, 2 to
    the frames 0 to 4, and the table after one round of [Insert(3, 5)]. *)
Definition stuck_table1 : Table (V:=Z) :=
  mkTable 3 1 5 [0; 1; 2; 4; 3; 4; 2; 1]%nat
    [mkBucket 1 3 [(0, 0)]; mkBucket 1 2 [(1, 2)]; mkBucket 1 2 [(2, 4)];
     mkBucket 1 3 [(4, 1)]; mkBucket 1 2 [(5, 3)]].

Definition stuck_table1_split : Table (V:=Z) :=
  mkTable 3 1 6 [0; 1; 2; 4; 3; 4; 2; 5]%nat
    [mkBucket 1 3 [(0, 0)]; mkBucket 1 2 [(1, 2)]; mkBucket 1 2 [(2, 4)];
     mkBucket 1 3 [(4, 1)]; mkBucket 1 3 [(5, 3)]; mkBucket 1 3 []].

(** The page table of bucket size 4 that maps the pages 0, 8, 16, 24, 4,
    1, 9, 17, 25, 5, 13, 21, 29, 2 to the frames 0 to 13, and the table
    after one round of [Insert(3, 14)]. *)
Definition stuck_table4 : Table (V:=Z) :=
  mkTable 3 4 5 [0; 1; 2; 4; 3; 4; 2; 1]%nat
    [mkBucket 4 3 [(0, 0); (8, 1); (16, 2); (24, 3)];
     mkBucket 4 2 [(1, 5); (9, 6); (17, 7); (25, 8)];
     mkBucket 4 2 [(2, 13)];
     mkBucket 4 3 [(4, 4)];
     mkBucket 4 2 [(5, 9); (13, 10); (21, 11); (29, 12)]].

Definition stuck_table4_split : Table (V:=Z) :=
  mkTable 3 4 6 [0; 1; 2; 4; 3; 4; 2; 5]%nat
    [mkBucket 4 3 [(0, 0); (8, 1); (16, 2); (24, 3)];
     mkBucket 4 2 [(1, 5); (9, 6); (17, 7); (25, 8)];
     mkBucket 4 2 [(2, 13)];
     mkBucket 4 3 [(4, 4)];
     mkBucket 4 3 [(5, 9); (13, 10); (21, 11); (29, 12)];
     mkBucket 4 3 []].

End EHT_stuck_tables.

Section BPM_reached_pools.

Import BPM.

(** The pool reached by a run of calls from a new pool ([k = 2], the
    identity hash, eight rounds for each page table insertion). *)
Definition pool_reached (pool_size bucket_size : nat) (calls : list PoolOp)
  : BufferPool :=
  default (BufferPoolManagerInstance pool_size 2 bucket_size)
    (pool_run int_hash 8 (BufferPoolManagerInstance pool_size 2 bucket_size)
       calls).

(** Pools in which the next [NewPage] would create page 3 while frames are
    free. Bucket size 1, eight frames: pages 0, 4, 1, 5, 2 are brought in.
    Bucket size 4, sixteen frames: pages 0, 8, 16, 24, 4, 1, 9, 17, 25, 5,
    13, 21, 29, 2 are brought in. The pages 0, 1, 2 come from [NewPage],
    the others from [FetchPage]. *)
Definition stuck_calls1 : list PoolOp :=
  [DoNewPage 1; DoFetchPage 4 2; DoNewPage 3; DoFetchPage 5 4; DoNewPage 5].

Definition stuck_pool1 : BufferPool := pool_reached 8 1 stuck_calls1.

Definition stuck_calls4 : list PoolOp :=
  [DoNewPage 1; DoFetchPage 8 2; DoFetchPage 16 3; DoFetchPage 24 4;
   DoFetchPage 4 5; DoNewPage 6; DoFetchPage 9 7; DoFetchPage 17 8;
   DoFetchPage 25 9; DoFetchPage 5 10; DoFetchPage 13 11; DoFetchPage 21 12;
   DoFetchPage 29 13; DoNewPage 14].

Definition stuck_pool4 : BufferPool := pool_reached 16 4 stuck_calls4.

(** Pools that hold page 5 pinned in a frame while the page table does not
    find it any more. Bucket size 1, eight frames: [FetchPage] of 0, 4, 1,
    5, 9. Bucket size 4, twelve frames: [FetchPage] of 0, 8, 16, 24, 4, 1,
    9, 17, 25, 5, 33. *)
Definition lost_calls1 : list PoolOp :=
  [DoFetchPage 0 1; DoFetchPage 4 2; DoFetchPage 1 3; DoFetchPage 5 4;
   DoFetchPage 9 5].

Definition lost_pool1 : BufferPool := pool_reached 8 1 lost_calls1.

Definition lost_calls4 : list PoolOp :=
  [DoFetchPage 0 1; DoFetchPage 8 2; DoFetchPage 16 3; DoFetchPage 24 4;
   DoFetchPage 4 5; DoFetchPage 1 6; DoFetchPage 9 7; DoFetchPage 17 8;
   DoFetchPage 25 9; DoFetchPage 5 10; DoFetchPage 33 11].

Definition lost_pool4 : BufferPool := pool_reached 12 4 lost_calls4.

End BPM_reached_pools.
(** * Properties *)

(** ** Extendible hash table *)

Section EHT_facts.

Import EHT.

Lemma mask_small (a n : Z) :
  0 ≤ n → 0 ≤ a < 2 ^ n → Z.land a (Z.shiftl 1 n - 1) = a.
Proof.
  intros Hn Ha.
  change (Z.shiftl 1 n - 1) with (Z.ones n).
  rewrite Z.land_ones by done.
  by apply Z.mod_small.
Qed.

Lemma pow2_ge_8 (g : Z) : 3 ≤ g → 8 ≤ 2 ^ g.
Proof.
  intros Hg. change 8 with (2 ^ 3).
  apply Z.pow_le_mono_r; lia.
Qed.

(** One round of the retry loop on a stuck table: the directory doubles, the
    bucket is split, its key goes back into it, and the table is stuck
    again one level deeper. *)
Lemma stuck_round (t : Table (V:=Z)) :
  stuck t →
  ∃ t', RedistributeBucket int_hash (Expansion t) (IndexOf int_hash t 3) = Some t'
        ∧ stuck t'.
Proof.
  intros (Hg & Hlen & r & v & H3 & H5 & Hb).
  destruct t as [g bsz nbk dir bs]; simpl in *.
  pose proof (pow2_ge_8 g Hg) as H8.
  assert (Hidx : IndexOf int_hash (mkTable g bsz nbk dir bs) 3 = 3).
  { unfold IndexOf, int_hash; simpl. apply mask_small; lia. }
  rewrite Hidx.
  unfold RedistributeBucket, Expansion, bucket_at.
  cbn [global_depth_ bucket_size_ num_buckets_ dir_ buckets_].
  rewrite !Z.shiftl_1_l.
  replace (g + 1 - 1) with g by lia.
  rewrite <- Hlen, firstn_all.
  change (Z.to_nat 3) with 3%nat.
  assert (Hl8 : (8 ≤ length dir)%nat) by lia.
  rewrite (lookup_app_l dir dir 3) by lia.
  rewrite H3; cbn [mbind option_bind].
  rewrite Hb; cbn [mbind option_bind depth_ size_ list_].
  rewrite Z.shiftl_1_l.
  change (2 ^ g - 1) with (Z.pred (2 ^ g)).
  rewrite <- Z.ones_equiv, Z.land_ones, (Z.mod_small 3) by lia.
  replace (Z.to_nat (3 + 2 ^ g)) with (length dir + 3)%nat by lia.
  change (Z.to_nat 3) with 3%nat.
  pose proof (lookup_lt_Some _ _ _ Hb) as Hr.
  set (d1 := <[(length dir + 3)%nat := length bs]> (dir ++ dir)).
  assert (Hd1len : length d1 = (length dir + length dir)%nat).
  { unfold d1. by rewrite length_insert, length_app. }
  assert (Hd13 : d1 !! 3%nat = Some r).
  { unfold d1. rewrite list_lookup_insert_ne by lia.
    by rewrite lookup_app_l by lia. }
  assert (Hd15 : d1 !! 5%nat = Some r).
  { unfold d1. rewrite list_lookup_insert_ne by lia.
    by rewrite lookup_app_l by lia. }
  assert (Hd1n : d1 !! (length dir + 3)%nat = Some (length bs)).
  { unfold d1. apply list_lookup_insert_eq. rewrite length_app. lia. }
  rewrite lookup_app_r, Nat.add_sub', H3 by lia.
  cbn [mbind option_bind].
  rewrite Hd13; cbn [mbind option_bind].
  rewrite (lookup_app_l bs), Hb by done.
  cbn [mbind option_bind].
  rewrite Hd1n; cbn [mbind option_bind].
  rewrite list_lookup_insert_ne by lia.
  rewrite lookup_app_r, Nat.sub_diag by lia.
  cbn [lookup list_lookup mbind option_bind].
  assert (Hrw : foldl (rewire g 3 (length dir + 3)) (Some d1) [0; 1] = Some d1).
  { cbn [foldl]. unfold rewire at 2. cbn [mbind option_bind Z.odd].
    rewrite Z.shiftl_0_l. change (Z.to_nat (0 + 3)) with 3%nat.
    change (Z.to_nat 3) with 3%nat.
    rewrite Hd13. cbn [mbind option_bind].
    rewrite (list_insert_id d1 3 r Hd13).
    destruct (Nat.ltb_spec 3 (length d1)); [|lia].
    unfold rewire. cbn [mbind option_bind Z.odd].
    rewrite Z.shiftl_1_l.
    replace (Z.to_nat (2 ^ g + 3)) with (length dir + 3)%nat by lia.
    rewrite Hd1n. cbn [mbind option_bind].
    rewrite (list_insert_id d1 _ _ Hd1n).
    destruct (Nat.ltb_spec (length dir + 3) (length d1)); [done|lia]. }
  rewrite Hrw. cbn [mbind option_bind].
  rewrite Hd13. cbn [mbind option_bind].
  rewrite list_lookup_insert_ne by lia.
  rewrite list_lookup_insert_eq by (rewrite length_app; lia).
  cbn [mbind option_bind IncrementDepth size_ depth_ list_ foldl].
  unfold reinsert. cbn [mbind option_bind fst snd dir_ buckets_].
  unfold IndexOf, int_hash. cbn [global_depth_].
  assert (Hpow : 2 ^ (g + 1) = 2 * 2 ^ g) by (rewrite Z.pow_add_r; lia).
  rewrite mask_small by lia.
  change (Z.to_nat 5) with 5%nat.
  rewrite Hd15. cbn [mbind option_bind].
  rewrite list_lookup_insert_eq
    by (rewrite !length_insert, length_app; lia).
  cbn [mbind option_bind].
  eexists; split; [reflexivity|].
  unfold stuck, set_buckets.
  cbn [global_depth_ bucket_size_ num_buckets_ dir_ buckets_].
  split; [lia|]. split; [lia|].
  exists r, v. split; [done|]. split; [done|].
  apply list_lookup_insert_eq.
  rewrite !length_insert, length_app; lia.
Qed.

(** On a stuck table no amount of fuel lets [Insert] of key 3 return. *)
Lemma stuck_Insert_None (fuel : nat) (t : Table (V:=Z)) (value : Z) :
  stuck t → Insert int_hash fuel t 3 value = None.
Proof.
  revert t; induction fuel as [|fuel IH]; intros t Hst; [done|].
  destruct (stuck_round t Hst) as (t' & Hred & Hst').
  destruct Hst as (Hg & Hlen & r & v & H3 & H5 & Hb).
  pose proof (pow2_ge_8 _ Hg) as H8.
  cbn [Insert].
  assert (Hidx : IndexOf int_hash t 3 = 3).
  { unfold IndexOf, int_hash. apply mask_small; lia. }
  rewrite Hidx in Hred |- *.
  change (Z.to_nat 3) with 3%nat.
  rewrite H3; cbn [mbind option_bind].
  rewrite Hb; cbn [mbind option_bind].
  cbn [Bucket_Insert Bucket_update list_ depth_ IsFull size_ length].
  change (5 =? 3) with false. cbn [Nat.leb].
  rewrite Z.eqb_refl, Hred. cbn [mbind option_bind].
  by apply IH.
Qed.

Lemma eht_run_bad : eht_run eht_keys = Some eht_bad.
Proof. vm_compute. reflexivity. Qed.

(** C7 (as found in the code): [Insert] does not always return. After the
    keys 0, 4, 1, 5 have been inserted into a table of bucket size 1, the
    call [Insert(3, v)] never leaves its retry loop: whatever the fuel, the
    loop has not returned. Every round raises the local depth of the bucket
    at slot 3 and doubles the directory, and none succeeds, because the
    bucket's key 5 is put back into it through slot 5. *)
Theorem Insert_retry_loop_diverges (fuel : nat) (value : Z) :
  eht_run eht_keys = Some eht_bad ∧
  Insert int_hash fuel eht_bad 3 value = None.
Proof.
  split; [apply eht_run_bad|].
  destruct fuel as [|fuel]; [done|].
  change (Insert int_hash (S fuel) eht_bad 3 value)
    with (Insert int_hash fuel eht_bad_split 3 value).
  apply stuck_Insert_None.
  unfold stuck. cbn [eht_bad_split global_depth_ dir_ buckets_].
  split; [lia|]. split; [done|].
  exists 4%nat, 105. done.
Qed.

(** The directory invariant of the specification fails on [eht_bad]. *)
Lemma eht_bad_not_invariant : ¬ DirInvariant int_hash eht_bad.
Proof.
  intros Hinv.
  specialize (Hinv 3%nat ltac:(cbn; lia) (mkBucket 1 2 [(5, 105)]) 5 105
                eq_refl ltac:(cbn; apply list_elem_of_here)).
  vm_compute in Hinv. discriminate.
Qed.

(** C3 (as found in the code): the directory invariant does not survive
    every sequence of inserts, and a split does not rewire every entry of
    the split bucket. With bucket size 1 and the identity hash, after the
    keys 0, 4, 1 the four slots 1, 3, 5, 7 hold the bucket of local depth 1
    (global depth 3). Inserting 5 splits it: slots 1 and 7 keep the old
    bucket and slots 3 and 5 get the new one, although bit 1 of the index
    separates {1, 5} from {3, 7}. The new bucket then has local depth 2,
    holds key 5, and is the bucket of slot 3. *)
Theorem split_rewires_two_slots_only :
  eht_run [(0, 100); (4, 104); (1, 101)]
  = Some (mkTable 3 1 4 [0; 1; 2; 1; 3; 1; 2; 1]%nat
            [mkBucket 1 3 [(0, 100)]; mkBucket 1 1 [(1, 101)];
             mkBucket 1 2 []; mkBucket 1 3 [(4, 104)]]) ∧
  eht_run eht_keys = Some eht_bad ∧
  dir_ eht_bad = [0; 1; 2; 4; 3; 4; 2; 1]%nat ∧
  bucket_at eht_bad 3 = Some (mkBucket 1 2 [(5, 105)]) ∧
  Z.land (int_hash 5) (Z.shiftl 1 2 - 1) ≠ Z.land 3 (Z.shiftl 1 2 - 1) ∧
  ¬ DirInvariant int_hash eht_bad.
Proof.
  split; [vm_compute; reflexivity|].
  split; [apply eht_run_bad|].
  split; [reflexivity|].
  split; [reflexivity|].
  split; [vm_compute; discriminate|].
  apply eht_bad_not_invariant.
Qed.

End EHT_facts.

(** ** LRU-K replacer *)

Section LRUK_facts.

Import LRUK.

(** *** The ordered sets *)

Lemma Node_lt_irrefl (a : Node) : Node_lt a a = false.
Proof. unfold Node_lt. destruct a as [i t]; simpl. lia. Qed.

Lemma Node_lt_trans (a b c : Node) : nlt a b → nlt b c → nlt a c.
Proof.
  unfold nlt, Node_lt. destruct a, b, c; simpl. lia.
Qed.

Lemma Node_lt_total (a b : Node) :
  Node_lt a b = false → Node_lt b a = false → a = b.
Proof.
  unfold Node_lt. destruct a as [i t], b as [j u]; simpl. intros H1 H2.
  assert (t = u) by lia. assert (i = j) by lia. by subst.
Qed.

Lemma Node_lt_asym (a b : Node) : nlt a b → Node_lt b a = false.
Proof. unfold nlt, Node_lt. destruct a, b; simpl. lia. Qed.

Lemma Node_neq_spec (a b : Node) :
  Node_lt a b || Node_lt b a = true ↔ a ≠ b.
Proof.
  split.
  - intros H ->. by rewrite Node_lt_irrefl in H.
  - intros Hne. destruct (Node_lt a b) eqn:E1; [done|].
    destruct (Node_lt b a) eqn:E2; [done|].
    by destruct Hne; apply Node_lt_total.
Qed.

Lemma elem_of_set_insert (n x : Node) (s : list Node) :
  x ∈ set_insert n s ↔ x = n ∨ x ∈ s.
Proof.
  induction s as [|m s IH]; simpl.
  - rewrite list_elem_of_singleton, elem_of_nil. tauto.
  - destruct (Node_lt n m) eqn:E1; [by rewrite (elem_of_cons (m :: s))|].
    destruct (Node_lt m n) eqn:E2.
    + rewrite !elem_of_cons, IH. tauto.
    + rewrite (Node_lt_total _ _ E1 E2), elem_of_cons. tauto.
Qed.

Lemma set_insert_sorted (n : Node) (s : list Node) :
  StronglySorted nlt s → StronglySorted nlt (set_insert n s).
Proof.
  induction s as [|m s IH]; simpl; intros Hs.
  - repeat constructor.
  - apply StronglySorted_cons in Hs as [Hm Hs].
    destruct (Node_lt n m) eqn:E1.
    + apply StronglySorted_cons. split.
      * constructor; [done|].
        eapply Forall_impl; [exact Hm|]. intros y Hy.
        by eapply Node_lt_trans.
      * by apply StronglySorted_cons.
    + destruct (Node_lt m n) eqn:E2.
      * apply StronglySorted_cons. split; [|by apply IH].
        apply Forall_forall. intros y Hy.
        apply elem_of_set_insert in Hy as [->|Hy]; [done|].
        by eapply Forall_forall in Hm.
      * by apply StronglySorted_cons.
Qed.

Lemma elem_of_set_erase (n x : Node) (s : list Node) :
  x ∈ set_erase n s ↔ x ∈ s ∧ x ≠ n.
Proof.
  unfold set_erase. rewrite list_elem_of_filter, Node_neq_spec. tauto.
Qed.

Lemma set_erase_sorted (n : Node) (s : list Node) :
  StronglySorted nlt s → StronglySorted nlt (set_erase n s).
Proof.
  unfold set_erase.
  induction s as [|m s IH]; intros Hs; [constructor|].
  apply StronglySorted_cons in Hs as [Hm Hs].
  rewrite filter_cons. case_decide.
  - apply StronglySorted_cons. split; [|by apply IH].
    apply Forall_forall. intros y [_ Hy]%list_elem_of_filter.
    by eapply Forall_forall in Hm.
  - by apply IH.
Qed.

(** The first element of a sorted set is below every other element. *)
Lemma sorted_head_least (m x : Node) (s : list Node) :
  StronglySorted nlt (m :: s) → x ∈ m :: s → Node_lt x m = false.
Proof.
  intros [Hm _]%StronglySorted_cons [->|Hx]%elem_of_cons.
  - apply Node_lt_irrefl.
  - apply Node_lt_asym. by eapply Forall_forall in Hm.
Qed.

(** *** The invariant of a run *)

Lemma candidate_same k r r' h h' young g t :
  same_at r r' h h' g →
  candidate k r' h' young g t ↔ candidate k r h young g t.
Proof.
  intros (Hh & _ & Ht & He). unfold candidate.
  by rewrite Hh, Ht, He.
Qed.

(** Every operation touches one frame [f]: the invariant is kept when the
    other frames are left alone and the entries of [f] are consistent. *)
Lemma Inv_update k n n' r h r' h' f :
  Inv k n r h → (n ≤ n')%nat → k_ r' = k →
  (∀ g, g ≠ f → same_at r r' h h' g) →
  frame_ok k n' r' h' f →
  (∀ nd, id_ nd ≠ f →
     (nd ∈ inf_set_ r' ↔ nd ∈ inf_set_ r) ∧
     (nd ∈ kth_set_ r' ↔ nd ∈ kth_set_ r)) →
  (∀ nd, id_ nd = f →
     (nd ∈ inf_set_ r' ↔ candidate k r' h' true f (time_ nd)) ∧
     (nd ∈ kth_set_ r' ↔ candidate k r' h' false f (time_ nd))) →
  StronglySorted nlt (inf_set_ r') → StronglySorted nlt (kth_set_ r') →
  Inv k n' r' h'.
Proof.
  intros [Hk Hfr Hinf Hkth _ _] Hn Hk' Hsame Hf Hother Hmine Hs1 Hs2.
  split; try done.
  - intros g. destruct (decide (g = f)) as [->|Hne]; [done|].
    destruct (Hsame g Hne) as (Hh & Hc & Ht & He).
    specialize (Hfr g). unfold frame_ok in *.
    rewrite Hh, Hc, Ht, He.
    destruct (h !! g); [|done].
    destruct Hfr as (? & ? & ? & ? & ?). repeat split; try done. lia.
  - intros nd. destruct (decide (id_ nd = f)) as [E|Hne].
    + destruct (Hmine nd E) as [H1 _]. by rewrite E.
    + rewrite (proj1 (Hother nd Hne)), candidate_same by auto. apply Hinf.
  - intros nd. destruct (decide (id_ nd = f)) as [E|Hne].
    + destruct (Hmine nd E) as [_ H2]. by rewrite E.
    + rewrite (proj2 (Hother nd Hne)), candidate_same by auto. apply Hkth.
Qed.

Tactic Notation "rsimpl" :=
  cbv beta iota zeta delta
      [current_timestamp_ cur_size_ replacer_size_ k_ frame_cnt_ frame_time_
       evitable_ inf_set_ kth_set_ set_timestamp set_sizes set_cnt set_time
       set_evitable set_inf set_kth cnt_of evitable_of RemoveRecord
       default from_option id mbind option_bind].

Tactic Notation "rsimpl" "in" hyp(H) :=
  cbv beta iota zeta delta
      [current_timestamp_ cur_size_ replacer_size_ k_ frame_cnt_ frame_time_
       evitable_ inf_set_ kth_set_ set_timestamp set_sizes set_cnt set_time
       set_evitable set_inf set_kth cnt_of evitable_of RemoveRecord
       default from_option id mbind option_bind] in H.

Lemma not_candidate k r h young f t :
  evitable_ r !! f ≠ Some true → ¬ candidate k r h young f t.
Proof. intros Hev (? & _ & Hev' & _). congruence. Qed.

Lemma ensure_Some {A} (d x : A) (key : Z) (m : gmap Z A) :
  m !! key = Some x → ensure d key m = m.
Proof. unfold ensure. by intros ->. Qed.

Lemma wrap64_small (z : Z) : 0 ≤ z < 2 ^ 64 → wrap64 z = z.
Proof. apply Z.mod_small. Qed.

Lemma tracked_time_cons k now l :
  l ≠ [] →
  tracked_time k (now :: l)
  = if k <=? Z.of_nat (length l) + 1 then Some now else tracked_time k l.
Proof.
  intros Hl. unfold tracked_time. cbn [length].
  replace (Z.of_nat (S (length l))) with (Z.of_nat (length l) + 1) by lia.
  destruct (Z.leb_spec k (Z.of_nat (length l) + 1)); [done|].
  destruct (Z.leb_spec k (Z.of_nat (length l))); [lia|].
  destruct l; [done|]. by rewrite last_cons_cons.
Qed.

(** The same, for an operation that leaves both sets as they are. *)
Lemma Inv_update_quiet k n n' r h r' h' f :
  Inv k n r h → (n ≤ n')%nat → k_ r' = k →
  (∀ g, g ≠ f → same_at r r' h h' g) →
  frame_ok k n' r' h' f →
  inf_set_ r' = inf_set_ r → kth_set_ r' = kth_set_ r →
  (∀ young t, candidate k r' h' young f t ↔ candidate k r h young f t) →
  Inv k n' r' h'.
Proof.
  intros HI Hn Hk Hsame Hf Hinf Hkth Hcand.
  eapply Inv_update; try done.
  - rewrite Hinf, Hkth. tauto.
  - intros nd <-. rewrite Hinf, Hkth, !Hcand.
    split; [apply (inv_inf _ _ _ _ HI)|apply (inv_kth _ _ _ _ HI)].
  - rewrite Hinf. apply HI.
  - rewrite Hkth. apply HI.
Qed.

(** A node of frame [f] found in a set is the node of [f]'s timestamp. *)
Lemma node_of_frame k r h young (S : list Node) f t nd :
  (∀ nd, nd ∈ S ↔ candidate k r h young (id_ nd) (time_ nd)) →
  frame_time_ r !! f = Some t → id_ nd = f → nd ∈ S → nd = mkNode f t.
Proof.
  intros HS Ht <- (l & _ & _ & Ht' & _)%HS.
  destruct nd as [i u]; cbn [id_ time_] in *. congruence.
Qed.

Lemma erase_other f t nd (S : list Node) :
  id_ nd ≠ f → nd ∈ set_erase (mkNode f t) S ↔ nd ∈ S.
Proof.
  intros Hne. rewrite elem_of_set_erase.
  split; [tauto|]. intros Hin. split; [done|]. by intros ->.
Qed.

Lemma insert_other f t nd (S : list Node) :
  id_ nd ≠ f → nd ∈ set_insert (mkNode f t) S ↔ nd ∈ S.
Proof.
  intros Hne. rewrite elem_of_set_insert.
  split; [|tauto]. intros [->|Hin]; done.
Qed.

Lemma insert_own f t nd (S : list Node) :
  id_ nd = f → nd ∈ set_insert (mkNode f t) S ↔ time_ nd = t ∨ nd ∈ S.
Proof.
  intros Heq. rewrite elem_of_set_insert.
  destruct nd as [i u]; cbn [id_ time_] in *; subst i.
  split; (intros [H|H]; [left|by right]); congruence.
Qed.

Lemma erase_own k r h young (S : list Node) f t nd :
  (∀ nd, nd ∈ S ↔ candidate k r h young (id_ nd) (time_ nd)) →
  frame_time_ r !! f = Some t → id_ nd = f →
  nd ∉ set_erase (mkNode f t) S.
Proof.
  intros HS Ht Hid [Hin Hne]%elem_of_set_erase.
  apply Hne. by eapply node_of_frame.
Qed.

Lemma tracked_time_Some k l : l ≠ [] → is_Some (tracked_time k l).
Proof.
  intros Hl. unfold tracked_time. destruct (k <=? _).
  - destruct l; [done|]. by eexists.
  - destruct (last l) eqn:E; [by eexists|].
    by apply last_None in E.
Qed.

Lemma InsertToSet_eq r f c t :
  frame_cnt_ r !! f = Some c → frame_time_ r !! f = Some t →
  InsertToSet r f
  = Some (if k_ r <=? c
          then set_kth r (set_insert (mkNode f t) (kth_set_ r))
          else set_inf r (set_insert (mkNode f t) (inf_set_ r))).
Proof.
  intros Hc Ht. unfold InsertToSet, cnt_of. rewrite Ht, Hc.
  rewrite (ensure_Some _ _ _ _ Hc). destruct r; rsimpl.
  by destruct (_ <=? _).
Qed.

Lemma RemoveFromSet_eq r f c t :
  frame_cnt_ r !! f = Some c → frame_time_ r !! f = Some t →
  RemoveFromSet r f
  = Some (if k_ r <=? c
          then set_kth r (set_erase (mkNode f t) (kth_set_ r))
          else set_inf r (set_erase (mkNode f t) (inf_set_ r))).
Proof.
  intros Hc Ht. unfold RemoveFromSet, cnt_of. rewrite Ht, Hc.
  rewrite (ensure_Some _ _ _ _ Hc). destruct r; rsimpl.
  by destruct (_ <=? _).
Qed.

Lemma RecordAccess_Inv k n r h f now r' :
  1 ≤ k < 2 ^ 64 → Z.of_nat n + 1 < 2 ^ 64 →
  Inv k n r h → RecordAccess r f now = Some r' →
  Inv k (S n) r'
    (if bool_decide (frame_cnt_ r !! f = None) && (replacer_size_ r =? 0)
     then h else <[f := now :: default [] (h !! f)]> h).
Proof.
  intros Hk Hn HI HR.
  pose proof (inv_frame _ _ _ _ HI f) as Hf. unfold frame_ok in Hf.
  pose proof (inv_k _ _ _ _ HI) as Hkr.
  destruct r as [ts cs rs kk cnt tm ev inf kth].
  unfold RecordAccess, cnt_of, evitable_of in HR.
  rsimpl in HR. rsimpl in Hf. rsimpl in Hkr. rsimpl. subst kk.
  destruct (h !! f) as [l|] eqn:Eh.
  - destruct Hf as (Hl & Hlen & Hc & Ht & [e He]).
    rewrite Hc in HR |- *.
    rewrite bool_decide_eq_false_2 in HR |- * by done.
    cbn [andb] in HR |- *. rsimpl in HR. rsimpl.
    rewrite (ensure_Some _ _ _ _ Hc) in HR.
    destruct (Z.eqb_spec (Z.of_nat (length l)) 0) as [E0|_].
    { destruct l; [done|]. cbn [length] in E0. lia. }
    rsimpl in HR. rewrite He in HR. rsimpl in HR.
    rewrite (ensure_Some _ _ _ _ He) in HR.
    assert (Hw : wrap64 (Z.of_nat (length l) + 1) = Z.of_nat (length l) + 1)
      by (apply wrap64_small; lia).
    assert (Hfo : ∀ cs' rs' ts' tm' inf' kth',
      tm' !! f = tracked_time k (now :: l) →
      frame_ok k (S n)
        (mkReplacer ts' cs' rs' k (<[f:=Z.of_nat (length l) + 1]> cnt)
                    tm' ev inf' kth') (<[f:=now :: l]> h) f).
    { intros. unfold frame_ok. rsimpl. rewrite !lookup_insert_eq.
      cbn [length].
      repeat split; try done; try lia; try (f_equal; lia);
        try (by rewrite He). }
    pose proof (tracked_time_cons k now l Hl) as Htc.
    destruct e; cbn [negb] in HR.
    + unfold access_evictable in HR. rsimpl in HR.
      rewrite Hw, (wrap64_small (k - 1)) in HR by lia.
      destruct (Z.ltb_spec (Z.of_nat (length l)) (k - 1)) as [Hlt|Hge].
      * injection HR as <-.
        revert Htc. destruct (Z.leb_spec k (Z.of_nat (length l) + 1));
          [lia|]. intros Htc.
        eapply (Inv_update_quiet k n (S n) _ h _ _ f); [exact HI|..];
          try done; try lia.
        -- intros g Hg. unfold same_at. rsimpl.
           by rewrite !lookup_insert_ne by congruence.
        -- apply Hfo. by rewrite Htc.
        -- intros young t. unfold candidate. rsimpl.
           rewrite lookup_insert_eq, Eh.
           split.
           ++ intros (l0 & Hl0 & ? & ? & Hy). injection Hl0 as <-.
              exists l. repeat split; try done.
              destruct young; cbn [length] in *; lia.
           ++ intros (l0 & Hl0 & ? & ? & Hy). injection Hl0 as <-.
              exists (now :: l). repeat split; try done.
              destruct young; cbn [length] in *; lia.
      * destruct (tracked_time_Some k l Hl) as [t0 Ht0].
        rewrite Ht0 in Ht.
        assert (Hr1 : ∃ inf1 kth1,
          RemoveFromSet (mkReplacer now cs rs k cnt tm ev inf kth) f
          = Some (mkReplacer now cs rs k cnt tm ev inf1 kth1) ∧
          ((k ≤ Z.of_nat (length l) ∧
            inf1 = inf ∧ kth1 = set_erase (mkNode f t0) kth) ∨
           (Z.of_nat (length l) < k ∧
            inf1 = set_erase (mkNode f t0) inf ∧ kth1 = kth))).
        { erewrite RemoveFromSet_eq by (rsimpl; done). rsimpl.
          destruct (Z.leb_spec k (Z.of_nat (length l))); do 2 eexists;
            (split; [reflexivity|]); [left|right]; done. }
        destruct Hr1 as (inf1 & kth1 & HRm & Hsets).
        rewrite HRm in HR.
        rsimpl in HR.
        erewrite InsertToSet_eq in HR
          by (rsimpl; apply lookup_insert_eq).
        rsimpl in HR.
        destruct (Z.leb_spec k (Z.of_nat (length l) + 1)); [|lia].
        injection HR as <-.
        assert (Hcn : ∀ young t, candidate k
          (mkReplacer now cs rs k (<[f:=Z.of_nat (length l) + 1]> cnt)
             (<[f:=now]> tm) ev inf1 (set_insert (mkNode f now) kth1))
          (<[f:=now :: l]> h) young f t ↔ young = false ∧ t = now).
        { intros young t. unfold candidate. rsimpl.
          rewrite !lookup_insert_eq. split.
          - intros (l0 & [= <-] & _ & [= <-] & Hy).
            destruct young; cbn [length] in Hy; [lia|done].
          - intros [-> ->]. eexists. repeat split; try done.
            cbn [length]. lia. }
        assert (Hinf1 : ∀ nd, id_ nd = f → nd ∉ inf1).
        { intros nd Hid Hin.
          destruct Hsets as [(? & -> & ->)|(? & -> & ->)].
          - apply (inv_inf _ _ _ _ HI) in Hin as (l0 & Hl0 & _ & _ & Hy).
            rewrite Hid, Eh in Hl0. injection Hl0 as <-. lia.
          - by eapply erase_own in Hin; [| apply (inv_inf _ _ _ _ HI) |..]. }
        assert (Hkth1 : ∀ nd, id_ nd = f → nd ∉ kth1).
        { intros nd Hid Hin.
          destruct Hsets as [(? & -> & ->)|(? & -> & ->)].
          - by eapply erase_own in Hin; [| apply (inv_kth _ _ _ _ HI) |..].
          - apply (inv_kth _ _ _ _ HI) in Hin as (l0 & Hl0 & _ & _ & Hy).
            rewrite Hid, Eh in Hl0. injection Hl0 as <-. lia. }
        eapply (Inv_update k n (S n) _ h _ _ f); [exact HI|..];
          try done; try lia.
        -- intros g Hg. unfold same_at. rsimpl.
           by rewrite !lookup_insert_ne by congruence.
        -- apply Hfo. rewrite Htc, lookup_insert_eq.
           by destruct (Z.leb_spec k (Z.of_nat (length l) + 1)); [|lia].
        -- intros nd Hnd. rsimpl. rewrite insert_other by done.
           destruct Hsets as [(? & -> & ->)|(? & -> & ->)];
             by rewrite ?erase_other.
        -- intros nd Hnd. rewrite !Hcn. rsimpl.
           rewrite insert_own by done. split.
           ++ split; [|by intros [? _]]. intros Hin. by apply Hinf1 in Hin.
           ++ split; [|intros [_ ?]; by left].
              intros [?|Hin]; [done|]. by apply Hkth1 in Hin.
        -- rsimpl. destruct Hsets as [(? & -> & ->)|(? & -> & ->)];
             [apply HI|apply set_erase_sorted, HI].
        -- rsimpl. apply set_insert_sorted.
           destruct Hsets as [(? & -> & ->)|(? & -> & ->)];
             [apply set_erase_sorted, HI|apply HI].
    + injection HR as <-. unfold access_not_evictable. rsimpl. rewrite Hw.
      eapply (Inv_update_quiet k n (S n) _ h _ _ f); [exact HI|..];
        try done; try lia.
      * by destruct (k <=? _).
      * intros g Hg. unfold same_at.
        destruct (k <=? _); rsimpl;
          by rewrite !lookup_insert_ne by congruence.
      * revert Htc. destruct (k <=? _); intros Htc; apply Hfo; rewrite Htc;
          [by rewrite lookup_insert_eq|done].
      * by destruct (k <=? _).
      * by destruct (k <=? _).
      * intros young t.
        split; intros Hc0; exfalso;
          (eapply not_candidate; [|exact Hc0]);
          destruct (k <=? _); rsimpl; by rewrite He.
  - destruct Hf as (Hc & Ht & He).
    rewrite Hc in HR |- *.
    rewrite bool_decide_eq_true_2 in HR |- * by done.
    cbn [andb] in HR |- *.
    destruct (rs =? 0).
    + injection HR as <-.
      eapply (Inv_update_quiet k n (S n) _ h _ _ f); [exact HI|..];
        try done; try lia.
      unfold frame_ok. rsimpl. by rewrite Eh.
    + rsimpl in HR. unfold ensure in HR. rewrite Hc in HR.
      change (0 =? 0) with true in HR. cbv iota in HR.
      unfold first_access in HR. rsimpl in HR.
      rewrite lookup_insert_eq in HR. rsimpl in HR. cbn [negb] in HR.
      injection HR as <-. unfold access_not_evictable. rsimpl.
      change (wrap64 (0 + 1)) with 1.
      eapply (Inv_update_quiet k n (S n) _ h _ _ f); [exact HI|..];
        try done; try lia.
      * by destruct (k <=? 1).
      * intros g Hg. unfold same_at.
        destruct (k <=? 1); rsimpl;
          by rewrite !lookup_insert_ne by congruence.
      * unfold frame_ok.
        destruct (k <=? 1); rsimpl; rewrite !lookup_insert_eq;
          (repeat split; try done; try (cbn [length]; lia));
          unfold tracked_time; by destruct (k <=? _).
      * by destruct (k <=? 1).
      * by destruct (k <=? 1).
      * intros young t.
        split; intros Hc0; exfalso;
          (eapply not_candidate; [|exact Hc0]);
          destruct (k <=? 1); rsimpl;
          rewrite ?lookup_insert_eq, ?He; done.
Qed.

Lemma Inv_mono k n n' r h : Inv k n r h → (n ≤ n')%nat → Inv k n' r h.
Proof.
  intros HI Hn.
  eapply (Inv_update_quiet k n n' r h r h 0); try done; [apply HI|].
  pose proof (inv_frame _ _ _ _ HI 0) as Hf. unfold frame_ok in *.
  destruct (h !! 0); [|done].
  destruct Hf as (? & ? & ? & ? & ?). repeat split; try done. lia.
Qed.

(** Dropping the record of frame [f] (the effect of [RemoveRecord]) once
    its node has left the sets. *)
Lemma Inv_forget k n ts cs rs cnt tm ev inf kth h f ts' cs' rs' inf1 kth1 :
  Inv k n (mkReplacer ts cs rs k cnt tm ev inf kth) h →
  (∀ nd, id_ nd ≠ f → (nd ∈ inf1 ↔ nd ∈ inf) ∧ (nd ∈ kth1 ↔ nd ∈ kth)) →
  (∀ nd, id_ nd = f → (nd ∉ inf1) ∧ (nd ∉ kth1)) →
  StronglySorted nlt inf1 → StronglySorted nlt kth1 →
  Inv k n (mkReplacer ts' cs' rs' k (delete f cnt) (delete f tm)
             (delete f ev) inf1 kth1) (delete f h).
Proof.
  intros HI Hother Hown Hs1 Hs2.
  eapply (Inv_update k n n _ h _ _ f); [exact HI|..]; try done.
  - intros g Hg. unfold same_at. rsimpl.
    by rewrite !lookup_delete_ne by congruence.
  - unfold frame_ok. rsimpl. by rewrite !lookup_delete_eq.
  - intros nd Hnd. destruct (Hown nd Hnd) as [H1 H2].
    split; (split; [done|]); intros (l & Hl & _); exfalso;
      by rewrite lookup_delete_eq in Hl.
Qed.

Lemma SetEvictable_Inv k n r h f b r' :
  Inv k n r h → SetEvictable r f b = Some r' → Inv k n r' h.
Proof.
  intros HI HR.
  pose proof (inv_frame _ _ _ _ HI f) as Hf. unfold frame_ok in Hf.
  pose proof (inv_k _ _ _ _ HI) as Hkr.
  destruct r as [ts cs rs kk cnt tm ev inf kth].
  unfold SetEvictable, evitable_of in HR.
  rsimpl in HR. rsimpl in Hf. rsimpl in Hkr. subst kk.
  destruct (h !! f) as [l|] eqn:Eh.
  - destruct Hf as (Hl & Hlen & Hc & Ht & [e He]).
    destruct (tracked_time_Some k l Hl) as [t0 Ht0]. rewrite Ht0 in Ht.
    rewrite bool_decide_eq_false_2 in HR by (by rewrite Ht).
    rewrite He, (ensure_Some _ _ _ _ He) in HR. rsimpl in HR.
    destruct (eqb e b) eqn:Hne; [by injection HR as <-|].
    assert (Hfo : ∀ ts' cs' rs' inf' kth',
      frame_ok k n (mkReplacer ts' cs' rs' k cnt tm (<[f:=b]> ev) inf' kth')
        h f).
    { intros. unfold frame_ok. rsimpl. rewrite Eh, lookup_insert_eq.
      repeat split; try done. by rewrite Ht, Ht0. }
    assert (Hsame : ∀ ts' cs' rs' inf' kth' g, g ≠ f →
      same_at (mkReplacer ts cs rs k cnt tm ev inf kth)
        (mkReplacer ts' cs' rs' k cnt tm (<[f:=b]> ev) inf' kth') h h g).
    { intros. unfold same_at. rsimpl.
      by rewrite !lookup_insert_ne by congruence. }
    destruct b.
    + (* becomes evictable: its node enters a set *)
      assert (e = false) as -> by (by destruct e).
      clear Hne.
      erewrite InsertToSet_eq in HR by (rsimpl; done). rsimpl in HR.
      assert (Hold : ∀ nd, id_ nd = f → (nd ∉ inf) ∧ (nd ∉ kth)).
      { intros nd <-. split; intros Hin.
        - apply (inv_inf _ _ _ _ HI) in Hin.
          eapply not_candidate in Hin; [done|]. rsimpl. by rewrite He.
        - apply (inv_kth _ _ _ _ HI) in Hin.
          eapply not_candidate in Hin; [done|]. rsimpl. by rewrite He. }
      assert (Hcn : ∀ ts' cs' rs' inf' kth' young t, candidate k
          (mkReplacer ts' cs' rs' k cnt tm (<[f:=true]> ev) inf' kth')
          h young f t ↔
          t = t0 ∧ (if young then Z.of_nat (length l) < k
                    else k ≤ Z.of_nat (length l))).
      { intros. unfold candidate. rsimpl.
        rewrite lookup_insert_eq, Eh, Ht. split.
        - by intros (l0 & [= <-] & _ & [= <-] & Hy).
        - intros [-> Hy]. by exists l. }
      destruct (Z.leb_spec k (Z.of_nat (length l))) as [Hkl|Hkl];
        rsimpl in HR; injection HR as <-.
      * eapply (Inv_update k n n _ h _ _ f);
          [exact HI|lia|done|by apply Hsame|by apply Hfo|..]; rsimpl.
        -- intros nd Hnd. by rewrite insert_other.
        -- intros nd Hnd. rewrite !Hcn, insert_own by done.
           destruct (Hold nd Hnd). split; split; try tauto; try lia.
        -- apply HI.
        -- apply set_insert_sorted, HI.
      * eapply (Inv_update k n n _ h _ _ f);
          [exact HI|lia|done|by apply Hsame|by apply Hfo|..]; rsimpl.
        -- intros nd Hnd. by rewrite insert_other.
        -- intros nd Hnd. rewrite !Hcn, insert_own by done.
           destruct (Hold nd Hnd). split; split; try tauto; try lia.
        -- apply set_insert_sorted, HI.
        -- apply HI.
    + (* stops being evictable: its node leaves its set *)
      assert (e = true) as -> by (by destruct e).
      clear Hne.
      erewrite RemoveFromSet_eq in HR by (rsimpl; done). rsimpl in HR.
      assert (Hcn : ∀ ts' cs' rs' inf' kth' young t, ¬ candidate k
          (mkReplacer ts' cs' rs' k cnt tm (<[f:=false]> ev) inf' kth')
          h young f t).
      { intros. apply not_candidate. rsimpl. by rewrite lookup_insert_eq. }
      destruct (Z.leb_spec k (Z.of_nat (length l))) as [Hkl|Hkl];
        rsimpl in HR; injection HR as <-.
      * eapply (Inv_update k n n _ h _ _ f);
          [exact HI|lia|done|by apply Hsame|by apply Hfo|..]; rsimpl.
        -- intros nd Hnd. by rewrite erase_other.
        -- intros nd Hnd. split; (split; [|by intros ?%Hcn]); intros Hin.
           ++ apply (inv_inf _ _ _ _ HI) in Hin as (l0 & Hl0 & _ & _ & Hy).
              rewrite Hnd, Eh in Hl0. injection Hl0 as <-. lia.
           ++ by eapply erase_own in Hin; [| apply (inv_kth _ _ _ _ HI) |..].
        -- apply HI.
        -- apply set_erase_sorted, HI.
      * eapply (Inv_update k n n _ h _ _ f);
          [exact HI|lia|done|by apply Hsame|by apply Hfo|..]; rsimpl.
        -- intros nd Hnd. by rewrite erase_other.
        -- intros nd Hnd. split; (split; [|by intros ?%Hcn]); intros Hin.
           ++ by eapply erase_own in Hin; [| apply (inv_inf _ _ _ _ HI) |..].
           ++ apply (inv_kth _ _ _ _ HI) in Hin as (l0 & Hl0 & _ & _ & Hy).
              rewrite Hnd, Eh in Hl0. injection Hl0 as <-. lia.
        -- apply set_erase_sorted, HI.
        -- apply HI.
  - destruct Hf as (Hc & Ht & He).
    rewrite bool_decide_eq_true_2 in HR by done. by injection HR as <-.
Qed.

(** Evicting the first node [it] of a set. *)
Lemma Inv_evict_head k n ts cs rs cnt tm ev inf kth h it ts' cs' rs' :
  Inv k n (mkReplacer ts cs rs k cnt tm ev inf kth) h →
  it ∈ inf ∨ it ∈ kth →
  Inv k n
    (mkReplacer ts' cs' rs' k (delete (id_ it) cnt) (delete (id_ it) tm)
       (delete (id_ it) ev) (set_erase it inf) (set_erase it kth))
    (delete (id_ it) h).
Proof.
  intros HI Hit.
  assert (Htm : tm !! id_ it = Some (time_ it)).
  { destruct Hit as [Hin|Hin];
      [apply (inv_inf _ _ _ _ HI) in Hin|apply (inv_kth _ _ _ _ HI) in Hin];
      by destruct Hin as (? & _ & _ & ? & _). }
  assert (Hit' : it = mkNode (id_ it) (time_ it)) by (by destruct it).
  apply Inv_forget with (ts := ts) (cs := cs) (rs := rs) (inf := inf)
                        (kth := kth); try done.
  - intros nd Hnd. rewrite Hit'. by rewrite !erase_other.
  - intros nd Hnd. rewrite Hit'. split.
    + by eapply erase_own; [apply (inv_inf _ _ _ _ HI)|..].
    + by eapply erase_own; [apply (inv_kth _ _ _ _ HI)|..].
  - apply set_erase_sorted, HI.
  - apply set_erase_sorted, HI.
Qed.

(** A node sits in one set at most, so erasing it from the other set
    changes nothing. *)
Lemma erase_absent (it : Node) (S : list Node) :
  it ∉ S → set_erase it S = S.
Proof.
  intros Hni. unfold set_erase.
  induction S as [|m S IH]; [done|].
  rewrite filter_cons. case_decide as Hm.
  - f_equal. apply IH. intros ?. apply Hni. by right.
  - exfalso. apply Hni. assert (it = m) as ->; [|by left].
    destruct (Node_lt m it) eqn:E1; [done|].
    destruct (Node_lt it m) eqn:E2; [done|].
    by apply Node_lt_total.
Qed.

Lemma inf_kth_disjoint k n r h it :
  Inv k n r h → it ∈ inf_set_ r → it ∈ kth_set_ r → False.
Proof.
  intros HI (l & Hl & _ & _ & Hy)%(inv_inf _ _ _ _ HI)
            (l' & Hl' & _ & _ & Hy')%(inv_kth _ _ _ _ HI).
  rewrite Hl in Hl'. injection Hl' as <-. lia.
Qed.

Lemma Evict_Inv k n r h :
  Inv k n r h →
  Inv k n (Evict r).2
    (match (Evict r).1 with Some f => delete f h | None => h end).
Proof.
  intros HI. pose proof (inv_k _ _ _ _ HI) as Hkr.
  destruct r as [ts cs rs kk cnt tm ev inf kth]. rsimpl in Hkr. subst kk.
  unfold Evict, EvitFromSet. rsimpl.
  destruct inf as [|it inf].
  - destruct kth as [|it kth]; [done|]. cbn [fst snd]. rsimpl.
    pose proof (Inv_evict_head k n ts cs rs cnt tm ev [] (it :: kth) h it
                  ts (wrap64 (cs - 1)) (wrap64 (rs + 1)) HI) as HI'.
    rewrite (erase_absent it []) in HI' by (by intros ?%elem_of_nil).
    apply HI'. right. by left.
  - cbn [fst snd]. rsimpl.
    pose proof (Inv_evict_head k n ts cs rs cnt tm ev (it :: inf) kth h it
                  ts (wrap64 (cs - 1)) (wrap64 (rs + 1)) HI) as HI'.
    rewrite (erase_absent it kth) in HI'.
    + apply HI'. left. by left.
    + intros Hin. eapply (inf_kth_disjoint _ _ _ _ it HI); [by left|done].
Qed.

Lemma Remove_Inv k n r h f r' :
  Inv k n r h → Remove r f = Some r' → Inv k n r' (delete f h).
Proof.
  intros HI HR.
  pose proof (inv_frame _ _ _ _ HI f) as Hf. unfold frame_ok in Hf.
  pose proof (inv_k _ _ _ _ HI) as Hkr.
  destruct r as [ts cs rs kk cnt tm ev inf kth].
  unfold Remove, evitable_of in HR.
  rsimpl in HR. rsimpl in Hf. rsimpl in Hkr. subst kk.
  destruct (h !! f) as [l|] eqn:Eh.
  - destruct Hf as (Hl & Hlen & Hc & Ht & [e He]).
    destruct (tracked_time_Some k l Hl) as [t0 Ht0]. rewrite Ht0 in Ht.
    rewrite bool_decide_eq_false_2 in HR by (by rewrite Ht).
    rewrite He, (ensure_Some _ _ _ _ He) in HR. rsimpl in HR.
    destruct e; [|done]. cbn [negb] in HR.
    erewrite RemoveFromSet_eq in HR by (rsimpl; done). rsimpl in HR.
    destruct (Z.leb_spec k (Z.of_nat (length l))) as [Hkl|Hkl];
      rsimpl in HR; injection HR as <-.
    + eapply Inv_forget; [exact HI|..].
      * intros nd Hnd. by rewrite erase_other.
      * intros nd Hnd. split.
        -- intros (l0 & Hl0 & _ & _ & Hy)%(inv_inf _ _ _ _ HI).
           rewrite Hnd, Eh in Hl0. injection Hl0 as <-. lia.
        -- by eapply erase_own; [apply (inv_kth _ _ _ _ HI)|..].
      * apply HI.
      * apply set_erase_sorted, HI.
    + eapply Inv_forget; [exact HI|..].
      * intros nd Hnd. by rewrite erase_other.
      * intros nd Hnd. split.
        -- by eapply erase_own; [apply (inv_inf _ _ _ _ HI)|..].
        -- intros (l0 & Hl0 & _ & _ & Hy)%(inv_kth _ _ _ _ HI).
           rewrite Hnd, Eh in Hl0. injection Hl0 as <-. lia.
      * apply set_erase_sorted, HI.
      * apply HI.
  - destruct Hf as (Hc & Ht & He).
    rewrite bool_decide_eq_true_2 in HR by done. injection HR as <-.
    by rewrite delete_id.
Qed.

Lemma new_Inv num_frames k : Inv k 0 (new num_frames k) ∅.
Proof.
  split; try done.
  - intros nd. split; [by intros ?%elem_of_nil|].
    intros (l & Hl & _). by rewrite lookup_empty in Hl.
  - intros nd. split; [by intros ?%elem_of_nil|].
    intros (l & Hl & _). by rewrite lookup_empty in Hl.
  - constructor.
  - constructor.
Qed.

Lemma step_Inv k n s op s' :
  1 ≤ k < 2 ^ 64 → Z.of_nat n + 1 < 2 ^ 64 →
  Inv k n s.1 s.2 → step s op = Some s' → Inv k (S n) s'.1 s'.2.
Proof.
  intros Hk Hn HI Hst. destruct s as [r h]. cbn [fst snd] in HI.
  destruct op as [f now|f b| |f]; cbn [step] in Hst.
  - destruct (RecordAccess r f now) as [r1|] eqn:HR; [|done].
    cbn [mbind option_bind] in Hst.
    pose proof (RecordAccess_Inv _ _ _ _ _ _ _ Hk Hn HI HR) as HI'.
    destruct (bool_decide _ && _); by injection Hst as <-.
  - destruct (SetEvictable r f b) as [r1|] eqn:HR; [|done].
    injection Hst as <-. cbn [fst snd].
    eapply Inv_mono; [by eapply SetEvictable_Inv|lia].
  - pose proof (Evict_Inv _ _ _ _ HI) as HI'.
    destruct (Evict r) as [[f|] r1]; injection Hst as <-;
      (eapply Inv_mono; [exact HI'|lia]).
  - destruct (Remove r f) as [r1|] eqn:HR; [|done].
    injection Hst as <-. cbn [fst snd].
    eapply Inv_mono; [by eapply Remove_Inv|lia].
Qed.

Lemma run_Inv k n s ops s' :
  1 ≤ k < 2 ^ 64 → Z.of_nat (n + length ops) < 2 ^ 64 →
  Inv k n s.1 s.2 → run s ops = Some s' →
  Inv k (n + length ops) s'.1 s'.2.
Proof.
  intros Hk. unfold run. revert n s.
  induction ops as [|op ops IH]; intros n s Hn HI Hrun; cbn [foldl] in Hrun.
  - injection Hrun as <-. by rewrite Nat.add_0_r.
  - cbn [length] in *. cbn [mbind option_bind] in Hrun.
    destruct (step s op) as [s1|] eqn:Hs.
    + replace (n + S (length ops))%nat with (S n + length ops)%nat by lia.
      apply (IH (S n) s1); [lia| |done].
      eapply step_Inv; [done| |done|done]. lia.
    + exfalso. clear -Hrun. induction ops as [|o ops IH]; [done|].
      by apply IH.
Qed.

(** *** The operations return *)

Lemma SetEvictable_total r f b : is_Some (SetEvictable r f b).
Proof.
  unfold SetEvictable. case_bool_decide as Ht; [by eexists|].
  destruct (frame_time_ r !! f) as [t|] eqn:Et; [|done].
  destruct (eqb _ b); [by eexists|].
  destruct b; unfold InsertToSet, RemoveFromSet; destruct r; rsimpl;
    rsimpl in Et; rewrite Et; rsimpl; destruct (_ <=? _); by eexists.
Qed.

(** After [SetEvictable(f, b)] the flag of a tracked frame is [b]. *)
Lemma SetEvictable_flag r f b r' :
  frame_time_ r !! f ≠ None → SetEvictable r f b = Some r' →
  evitable_ r' !! f = Some b.
Proof.
  intros Ht HR. unfold SetEvictable in HR.
  rewrite bool_decide_eq_false_2 in HR by done.
  destruct (frame_time_ r !! f) as [t|] eqn:Et; [|done].
  unfold evitable_of in HR.
  destruct r as [ts cs rs k cnt tm ev inf kth]. rsimpl in HR. rsimpl in Et.
  destruct (eqb _ b) eqn:Eb.
  - injection HR as <-. rsimpl. apply eqb_prop in Eb. unfold ensure.
    destruct (ev !! f) as [e|] eqn:Ee; rsimpl in Eb; subst b;
      [done|by rewrite lookup_insert_eq].
  - destruct b; unfold InsertToSet, RemoveFromSet in HR; rsimpl in HR;
      rewrite Et in HR; rsimpl in HR; destruct (_ <=? _);
      injection HR as <-; rsimpl; apply lookup_insert_eq.
Qed.

Lemma RecordAccess_total k n r h f now :
  1 ≤ k < 2 ^ 64 → Z.of_nat n + 1 < 2 ^ 64 →
  Inv k n r h → is_Some (RecordAccess r f now).
Proof.
  intros Hk Hn HI.
  pose proof (inv_frame _ _ _ _ HI f) as Hf. unfold frame_ok in Hf.
  pose proof (inv_k _ _ _ _ HI) as Hkr.
  destruct r as [ts cs rs kk cnt tm ev inf kth].
  unfold RecordAccess, cnt_of, evitable_of.
  rsimpl in Hf. rsimpl in Hkr. rsimpl. subst kk.
  destruct (bool_decide _ && _); [by eexists|].
  destruct (h !! f) as [l|] eqn:Eh.
  - destruct Hf as (Hl & Hlen & Hc & Ht & [e He]).
    destruct (tracked_time_Some k l Hl) as [t0 Ht0]. rewrite Ht0 in Ht.
    rewrite Hc, (ensure_Some _ _ _ _ Hc). rsimpl.
    destruct (Z.eqb_spec (Z.of_nat (length l)) 0) as [E0|_].
    { destruct l; [done|]. cbn [length] in E0. lia. }
    rsimpl. rewrite He, (ensure_Some _ _ _ _ He). rsimpl.
    destruct e; cbn [negb]; [|by eexists].
    unfold access_evictable. rsimpl.
    destruct (_ <? _); [by eexists|].
    erewrite RemoveFromSet_eq by (rsimpl; done). rsimpl.
    destruct (k <=? Z.of_nat (length l)); rsimpl;
      erewrite InsertToSet_eq by (rsimpl; apply lookup_insert_eq);
      by eexists.
  - destruct Hf as (Hc & Ht & He). rewrite Hc. rsimpl.
    unfold ensure. rewrite Hc. change (0 =? 0) with true. cbv iota.
    unfold first_access. rsimpl. rewrite lookup_insert_eq. rsimpl.
    cbn [negb]. by eexists.
Qed.

(** [RecordAccess] followed by [SetEvictable(f, false)], as the buffer pool
    calls them on the frame it hands out: both return, and afterwards the
    frame is not flagged evictable and has no node in either set. *)
Lemma touch_not_evictable k n r h f now :
  1 ≤ k < 2 ^ 64 → Z.of_nat n + 1 < 2 ^ 64 → Inv k n r h →
  ∃ r1 r2,
    RecordAccess r f now = Some r1 ∧ SetEvictable r1 f false = Some r2 ∧
    evitable_ r2 !! f ≠ Some true ∧
    ∀ nd, nd ∈ inf_set_ r2 ∨ nd ∈ kth_set_ r2 → id_ nd ≠ f.
Proof.
  intros Hk Hn HI.
  destruct (RecordAccess_total k n r h f now Hk Hn HI) as [r1 Hr1].
  destruct (SetEvictable_total r1 f false) as [r2 Hr2].
  exists r1, r2. split; [done|]. split; [done|].
  assert (∃ h1, Inv k (S n) r1 h1) as [h1 HI1]
    by (eexists; by eapply RecordAccess_Inv).
  pose proof (SetEvictable_Inv _ _ _ _ _ _ _ HI1 Hr2) as HI2.
  assert (Hflag : evitable_ r2 !! f ≠ Some true).
  { destruct (frame_time_ r1 !! f) as [t|] eqn:Et.
    - rewrite (SetEvictable_flag r1 f false r2); [done|by rewrite Et|done].
    - unfold SetEvictable in Hr2.
      rewrite bool_decide_eq_true_2 in Hr2 by done. injection Hr2 as <-.
      pose proof (inv_frame _ _ _ _ HI1 f) as Hf. unfold frame_ok in Hf.
      destruct (h1 !! f) as [l|].
      + destruct Hf as (Hl & _ & _ & Ht & _).
        destruct (tracked_time_Some k l Hl) as [t0 Ht0]. congruence.
      + destruct Hf as (_ & _ & ->). done. }
  split; [done|].
  intros nd [Hin|Hin] <-.
  - apply (inv_inf _ _ _ _ HI2) in Hin as (_ & _ & He & _). congruence.
  - apply (inv_kth _ _ _ _ HI2) in Hin as (_ & _ & He & _). congruence.
Qed.

(** *** The victim *)

Lemma head_oldest k r h young (S : list Node) it rest :
  (∀ nd, nd ∈ S ↔ candidate k r h young (id_ nd) (time_ nd)) →
  StronglySorted nlt S → S = it :: rest →
  oldest k r h young (id_ it).
Proof.
  intros HS Hsorted ->. exists (time_ it). split.
  - apply HS. by left.
  - intros g u Hc. replace (mkNode (id_ it) (time_ it)) with it
      by (by destruct it).
    eapply sorted_head_least; [done|]. by apply (HS (mkNode g u)).
Qed.

Lemma Evict_victim k n r h : Inv k n r h → victim_rule k r h.
Proof.
  intros HI. unfold victim_rule, Evict, EvitFromSet.
  destruct (inf_set_ r) as [|it inf] eqn:Einf.
  - assert (Hnone : ∀ g u, ¬ candidate k r h true g u).
    { intros g u Hc. apply (inv_inf _ _ _ _ HI (mkNode g u)) in Hc.
      rewrite Einf in Hc. by apply elem_of_nil in Hc. }
    destruct (kth_set_ r) as [|it kth] eqn:Ekth; cbn [fst].
    + intros [] g u Hc; [by eapply Hnone|].
      apply (inv_kth _ _ _ _ HI (mkNode g u)) in Hc.
      rewrite Ekth in Hc. by apply elem_of_nil in Hc.
    + right. split; [done|].
      eapply head_oldest; [apply (inv_kth _ _ _ _ HI)|apply HI|done].
  - cbn [fst]. left.
    eapply head_oldest; [apply (inv_inf _ _ _ _ HI)|apply HI|done].
Qed.

(** *** Two runs with [k = 2] *)

Lemma lruk_abba_run :
  run (new 3 2, ∅) lruk_abba = Some (lruk_abba_replacer, lruk_abba_history).
Proof. vm_compute. reflexivity. Qed.

(** C2, as stated, fails: after the accesses A, B, B, A with [k = 2] the
    timestamp that orders frame A in the kth-set is 4, the time of its most
    recent access, not 1, the time of its 2nd most recent access; and
    [Evict] removes B, although A's 2nd most recent access (time 1) is
    older than B's (time 2). *)
Lemma lruk_kth_recent_counterexample :
  run (new 3 2, ∅) lruk_abba = Some (lruk_abba_replacer, lruk_abba_history) ∧
  lruk_abba_history !! 0 = Some [4; 1] ∧
  lruk_abba_history !! 1 = Some [3; 2] ∧
  kth_recent 2 [4; 1] = Some 1 ∧ kth_recent 2 [3; 2] = Some 2 ∧
  kth_set_ lruk_abba_replacer = [mkNode 1 3; mkNode 0 4] ∧
  frame_time_ lruk_abba_replacer !! 0 ≠ kth_recent 2 [4; 1] ∧
  (Evict lruk_abba_replacer).1 = Some 1.
Proof.
  split; [apply lruk_abba_run|].
  repeat split; try reflexivity.
  vm_compute. discriminate.
Qed.

(** C2 (amended): in every state reached from a new replacer with
    [1 <= k], the count of a tracked frame is the number of its recorded
    accesses, and its timestamp is the time of its most recent access once
    it has [k] accesses and of its first access before that; [Evict]
    removes the oldest evictable frame with fewer than [k] accesses if
    there is one, else the oldest evictable frame with [k] accesses or more
    (ties by frame id). With [k = 2], after accesses A, B, A, B, C and all
    frames evictable the victim is C; after one more access to C the victim
    is A. *)
Theorem lruk_timestamp_and_victim
    (k num_frames : Z) (ops : list Op) (r : LRUKReplacer) (h : History) :
  1 ≤ k < 2 ^ 64 → Z.of_nat (length ops) < 2 ^ 64 →
  run (new num_frames k, ∅) ops = Some (r, h) →
  (∀ f l, h !! f = Some l →
     frame_cnt_ r !! f = Some (Z.of_nat (length l)) ∧
     frame_time_ r !! f = tracked_time k l) ∧
  victim_rule k r h ∧
  (∃ s, run (new 3 2, ∅) lruk_example = Some s ∧ (Evict s.1).1 = Some 2 ∧
        ∃ s', step s (OpRecordAccess 2 6) = Some s' ∧
              (Evict s'.1).1 = Some 0).
Proof.
  intros Hk Hn Hrun.
  pose proof (run_Inv k 0 (new num_frames k, ∅) ops _ Hk Hn
                (new_Inv num_frames k) Hrun) as HI.
  cbn [fst snd] in HI.
  split; [|split].
  - intros f l Hl. pose proof (inv_frame _ _ _ _ HI f) as Hf.
    unfold frame_ok in Hf. rewrite Hl in Hf. tauto.
  - by eapply Evict_victim.
  - eexists. split; [vm_compute; reflexivity|].
    split; [vm_compute; reflexivity|].
    eexists. split; [vm_compute; reflexivity|].
    vm_compute. reflexivity.
Qed.

Lemma lruk_timestamp_and_victim_witness :
  (∀ f l, lruk_abba_history !! f = Some l →
     frame_cnt_ lruk_abba_replacer !! f = Some (Z.of_nat (length l)) ∧
     frame_time_ lruk_abba_replacer !! f = tracked_time 2 l) ∧
  victim_rule 2 lruk_abba_replacer lruk_abba_history ∧
  (∃ s, run (new 3 2, ∅) lruk_example = Some s ∧ (Evict s.1).1 = Some 2 ∧
        ∃ s', step s (OpRecordAccess 2 6) = Some s' ∧
              (Evict s'.1).1 = Some 0).
Proof.
  apply (lruk_timestamp_and_victim 2 3 lruk_abba).
  - lia.
  - vm_compute. reflexivity.
  - vm_compute. reflexivity.
Defined.

End LRUK_facts.

(** ** Buffer pool manager *)

Section BPM_facts.

Import BPM.

Variable hash : Z → Z.
Variable fuel : nat.

Tactic Notation "bsimpl" :=
  cbv beta iota zeta delta
      [pages_ page_table_ replacer_ free_list_ next_page_id_ disk_ trace_
       set_pages set_table set_replacer set_free_list set_next_page_id
       set_disk emit set_page WritePage AllocatePage fst snd].

Tactic Notation "bsimpl" "in" hyp(H) :=
  cbv beta iota zeta delta
      [pages_ page_table_ replacer_ free_list_ next_page_id_ disk_ trace_
       set_pages set_table set_replacer set_free_list set_next_page_id
       set_disk emit set_page WritePage AllocatePage fst snd] in H.

Lemma is_free_page_false (st : BufferPool) :
  pins_nonneg st → is_free_page st = false ↔ all_pinned st.
Proof.
  unfold pins_nonneg, is_free_page, all_pinned.
  induction (pages_ st) as [|p ps IH]; intros Hnn; cbn [existsb].
  - split; [constructor|done].
  - apply Forall_cons in Hnn as [Hp Hps].
    rewrite orb_false_iff, Forall_cons, (IH Hps), Z.eqb_neq. intuition lia.
Qed.

(** The steps after the scan of [NewPgImp] never end in a null result. *)
Lemma NewPgImp_null_inv (st st' : BufferPool) (now : Z) :
  NewPgImp hash fuel st now = Some (None, st') →
  is_free_page st = false ∧ st' = st.
Proof.
  unfold NewPgImp. destruct (is_free_page st); cbn [negb].
  - intros H. exfalso. cbn [AllocatePage] in H.
    destruct (TakeFrame _ _) as [[f st1]|]; [|done].
    cbn [mbind option_bind] in H.
    destruct (TableInsert _ _ _ _ _) as [st2|]; [|done].
    cbn [mbind option_bind] in H.
    destruct (page_at st2 f) as [p|]; [|done].
    cbn [mbind option_bind] in H.
    destruct (touch _ _ _) as [st3|]; done.
  - by intros [= <-].
Qed.

(** C10: when [NewPgImp] returns the null pointer the pool is left exactly
    as it was: no page id is consumed ([next_page_id_] keeps its value) and
    the frames, page table, free list, replacer, disk and trace are the
    same. *)
Theorem NewPgImp_null_leaves_pool_unchanged
    (st st' : BufferPool) (now : Z) :
  NewPgImp hash fuel st now = Some (None, st') →
  next_page_id_ st' = next_page_id_ st ∧ st' = st.
Proof.
  intros [_ ->]%NewPgImp_null_inv. done.
Qed.

(** [FlushPgImp] never writes to a frame. *)
Lemma FlushPgImp_pages (st st' : BufferPool) (page_id : Z) (b : bool) :
  FlushPgImp hash st page_id = Some (b, st') → pages_ st' = pages_ st.
Proof.
  unfold FlushPgImp. destruct (_ =? _); [by intros [= _ <-]|].
  destruct (EHT.Find _ _ _) as [f|]; [|by intros [= _ <-]].
  destruct (page_at st f) as [p|]; [|done].
  cbn [mbind option_bind]. intros [= _ <-]. by destruct st.
Qed.

(** What [TakeFrame] does. From the free list: the front frame, nothing
    else touched. From the replacer: the victim's page is written back if
    dirty, then zeroed, then removed from the page table, in this order. *)
Lemma TakeFrame_inv (st st1 : BufferPool) (f : Z) :
  TakeFrame hash st = Some (f, st1) →
  next_page_id_ st1 = next_page_id_ st ∧
  length (pages_ st1) = length (pages_ st) ∧
  ((∃ rest, free_list_ st = f :: rest ∧ st1 = set_free_list st rest) ∨
   (free_list_ st = [] ∧
    ∃ rep p b,
      LRUK.Evict (replacer_ st) = (Some f, rep) ∧
      page_at st f = Some p ∧
      EHT.Remove hash (page_table_ st) (page_id_ p)
      = Some (b, page_table_ st1) ∧
      replacer_ st1 = rep ∧ free_list_ st1 = [] ∧
      trace_ st1 = trace_ st ++ eviction_events f p ∧
      disk_ st1 = (if is_dirty_ p
                   then <[page_id_ p := data_ p]> (disk_ st)
                   else disk_ st) ∧
      pages_ st1
      = <[Z.to_nat f := mkPage (page_id_ p) (pin_count_ p) false zero_data]>
          (pages_ st))).
Proof.
  unfold TakeFrame. destruct st as [ps pt rp fl np dk tr]. bsimpl.
  destruct fl as [|f0 rest].
  - destruct (LRUK.Evict rp) as [[v|] rep] eqn:Eev; [|done].
    unfold page_at. bsimpl.
    destruct (Z.ltb_spec v 0) as [|Hv]; [done|].
    destruct (ps !! Z.to_nat v) as [p|] eqn:Ep; [|done].
    cbn [mbind option_bind].
    assert (Hlt : (Z.to_nat v < length ps)%nat) by by eapply lookup_lt_Some.
    destruct p as [pid pin dirty dat]. cbn [is_dirty_ page_id_ data_ pin_count_].
    destruct dirty; bsimpl;
      rewrite ?list_lookup_insert_eq by done;
      rewrite ?Ep; cbn [mbind option_bind];
      cbn [is_dirty_ page_id_ data_ pin_count_];
      (destruct (EHT.Remove hash pt pid) as [[b t]|] eqn:Erm; [|done]);
      cbn [mbind option_bind]; intros [= <- <-]; bsimpl;
      rewrite ?length_insert; (split; [done|]); (split; [done|]);
      right; (split; [done|]);
      [exists rep, (mkPage pid pin true dat), b
      |exists rep, (mkPage pid pin false dat), b];
      cbn [is_dirty_ page_id_ data_ pin_count_]; unfold eviction_events;
      cbn [is_dirty_ page_id_ data_ pin_count_];
      rewrite ?list_insert_insert_eq, <- ?app_assoc;
      repeat split; try done.
    all: by destruct (Z.ltb_spec v 0); [lia|].
  - intros [= <- <-]. bsimpl. split; [done|]. split; [done|].
    left. by exists rest.
Qed.

(** The steps of [NewPgImp] after the scan has found an unpinned frame. *)
Lemma NewPgImp_Some_iff (st st' : BufferPool) (now pid f : Z) :
  NewPgImp hash fuel st now = Some (Some (pid, f), st') ↔
  is_free_page st = true ∧ pid = next_page_id_ st ∧
  ∃ st1 t p r1 r2,
    TakeFrame hash (AllocatePage st).2 = Some (f, st1) ∧
    EHT.Insert hash fuel (page_table_ st1) pid f = Some t ∧
    page_at st1 f = Some p ∧
    LRUK.RecordAccess (replacer_ st1) f now = Some r1 ∧
    LRUK.SetEvictable r1 f false = Some r2 ∧
    st' = mkPool (<[Z.to_nat f := mkPage pid 1 (is_dirty_ p) (data_ p)]>
                    (pages_ st1))
            t r2 (free_list_ st1) (next_page_id_ st1) (disk_ st1)
            (trace_ st1 ++ [EvTableInsert pid f]).
Proof.
  unfold NewPgImp. destruct (is_free_page st); cbn [negb];
    [|split; [done|by intros [? _]]].
  cbn [AllocatePage snd]. unfold TableInsert, touch.
  split.
  - intros H.
    destruct (TakeFrame _ _) as [[f1 [ps1 pt1 rp1 fl1 np1 dk1 tr1]]|];
      [|done].
    cbn [mbind option_bind] in H. bsimpl in H. bsimpl.
    destruct (EHT.Insert _ _ _ _ _) as [t|] eqn:Et; [|done].
    cbn [mbind option_bind] in H. unfold page_at in H. bsimpl in H.
    destruct (f1 <? 0) eqn:Ef; [done|].
    destruct (ps1 !! Z.to_nat f1) as [p|] eqn:Ep; [|done].
    cbn [mbind option_bind] in H. bsimpl in H.
    destruct (LRUK.RecordAccess _ _ _) as [r1|] eqn:Er1; [|done].
    cbn [mbind option_bind] in H.
    destruct (LRUK.SetEvictable _ _ _) as [r2|] eqn:Er2; [|done].
    cbn [mbind option_bind] in H. injection H as <- <- <-.
    do 2 (split; [done|]). eexists _, t, p, r1, r2.
    split; [reflexivity|].
    unfold page_at. rewrite Ef. by bsimpl.
  - intros (_ & -> & st1 & t & p & r1 & r2 & -> & Ht & Hp & Hr1 & Hr2 & ->).
    destruct st1 as [ps1 pt1 rp1 fl1 np1 dk1 tr1].
    unfold page_at in *. bsimpl in Ht. bsimpl in Hp. bsimpl in Hr1.
    cbn [mbind option_bind]. bsimpl. rewrite Ht.
    cbn [mbind option_bind]. bsimpl. rewrite Hp.
    cbn [mbind option_bind]. bsimpl. rewrite Hr1.
    cbn [mbind option_bind]. by rewrite Hr2.
Qed.



(** The replacer stays in a state reached by its own operations. *)
Lemma TakeFrame_replacer_Inv k n h (st st1 : BufferPool) (f : Z) :
  Inv k n (replacer_ st) h → TakeFrame hash st = Some (f, st1) →
  ∃ h1, Inv k n (replacer_ st1) h1.
Proof.
  intros HI (_ & _ & [(rest & _ & ->)|Hcase])%TakeFrame_inv.
  - exists h. by destruct st.
  - destruct Hcase as (_ & rep & p & b & Hev & _ & _ & -> & _).
    pose proof (Evict_Inv _ _ _ _ HI) as HI'. rewrite Hev in HI'.
    by eexists.
Qed.

(** *** The invariant of the pool *)

Lemma pins_nonneg_insert (st : BufferPool) (i : nat) (q : Page) :
  pins_nonneg st → 0 ≤ pin_count_ q →
  Forall (λ p, 0 ≤ pin_count_ p) (<[i := q]> (pages_ st)).
Proof. intros Hnn Hq. by apply Forall_insert. Qed.

Lemma page_at_pin (st : BufferPool) (f : Z) (p : Page) :
  pins_nonneg st → page_at st f = Some p → 0 ≤ pin_count_ p.
Proof.
  unfold pins_nonneg, page_at. intros Hnn Hp.
  destruct (f <? 0); [done|].
  by eapply Forall_lookup_1 in Hnn.
Qed.

Lemma TakeFrame_pins (st st1 : BufferPool) (f : Z) :
  pins_nonneg st → TakeFrame hash st = Some (f, st1) → pins_nonneg st1.
Proof.
  intros Hnn (_ & _ & [(rest & _ & ->)|Hcase])%TakeFrame_inv.
  - by destruct st.
  - destruct Hcase as (_ & rep & p & b & _ & Hp & _ & _ & _ & _ & _ & Hps).
    unfold pins_nonneg. rewrite Hps.
    apply pins_nonneg_insert; [done|]. cbn [pin_count_].
    by eapply page_at_pin.
Qed.

(** The replacer after [RecordAccess] and [SetEvictable]. *)
Lemma touch_Inv k n h (r r1 r2 : LRUK.LRUKReplacer) (f now : Z) (b : bool) :
  1 ≤ k < 2 ^ 64 → Z.of_nat n + 1 < 2 ^ 64 → Inv k n r h →
  LRUK.RecordAccess r f now = Some r1 → LRUK.SetEvictable r1 f b = Some r2 →
  ∃ h2, Inv k (n + 3) r2 h2.
Proof.
  intros Hk Hn HI Hr1 Hr2.
  pose proof (RecordAccess_Inv _ _ _ _ _ _ _ Hk Hn HI Hr1) as HI1.
  eexists. eapply Inv_mono; [by eapply SetEvictable_Inv|lia].
Qed.

Lemma NewPgImp_ok k n (st st' : BufferPool) (now : Z) res :
  1 ≤ k < 2 ^ 64 → Z.of_nat n + 3 < 2 ^ 64 → pool_ok k n st →
  NewPgImp hash fuel st now = Some (res, st') → pool_ok k (n + 3) st'.
Proof.
  intros Hk Hn [Hnn [h HI]] Hnew.
  destruct res as [[pid f]|].
  - apply NewPgImp_Some_iff in Hnew
      as (_ & -> & st1 & t & p & r1 & r2 & Htf & _ & Hp & Hr1 & Hr2 & ->).
    assert (Hnn0 : pins_nonneg (AllocatePage st).2) by (by destruct st).
    assert (HI0 : Inv k n (replacer_ (AllocatePage st).2) h)
      by (by destruct st).
    split.
    + apply pins_nonneg_insert; [by eapply TakeFrame_pins|].
      cbn [pin_count_]. lia.
    + destruct (TakeFrame_replacer_Inv _ _ _ _ _ _ HI0 Htf) as [h1 HI1].
      cbn [replacer_]. eapply touch_Inv; [done| |done..]. lia.
  - apply NewPgImp_null_inv in Hnew as [_ ->].
    split; [done|]. exists h. eapply Inv_mono; [done|lia].
Qed.

Lemma FetchPgImp_ok k n (st st' : BufferPool) (pid now : Z) res :
  1 ≤ k < 2 ^ 64 → Z.of_nat n + 3 < 2 ^ 64 → pool_ok k n st →
  FetchPgImp hash fuel st pid now = Some (res, st') → pool_ok k (n + 3) st'.
Proof.
  intros Hk Hn [Hnn [h HI]]. unfold FetchPgImp, TableInsert, touch.
  destruct (EHT.Find _ _ _) as [f|].
  - destruct (page_at st f) as [p|] eqn:Hp; [|done].
    cbn [mbind option_bind]. destruct st as [ps pt rp fl np dk tr].
    bsimpl. bsimpl in HI.
    destruct (LRUK.RecordAccess rp f now) as [r1|] eqn:Hr1; [|done].
    cbn [mbind option_bind].
    destruct (LRUK.SetEvictable r1 f false) as [r2|] eqn:Hr2; [|done].
    cbn [mbind option_bind]. intros [= _ <-]. split.
    + apply (pins_nonneg_insert (mkPool ps pt rp fl np dk tr)); [done|].
      cbn [pin_count_]. apply page_at_pin in Hp; [lia|done].
    + cbn [replacer_]. eapply touch_Inv; [done| |done..]. lia.
  - destruct (is_free_page st); cbn [negb].
    + destruct (TakeFrame hash st)
        as [[f1 [ps1 pt1 rp1 fl1 np1 dk1 tr1]]|] eqn:Htf; [|done].
      cbn [mbind option_bind]. bsimpl.
      destruct (EHT.Insert _ _ _ _ _) as [t|]; [|done].
      cbn [mbind option_bind]. unfold page_at. bsimpl.
      destruct (f1 <? 0); [done|].
      destruct (ps1 !! Z.to_nat f1) as [p|] eqn:Ep; [|done].
      cbn [mbind option_bind].
      rewrite list_lookup_insert_eq by (by eapply lookup_lt_Some).
      cbn [mbind option_bind]. bsimpl.
      destruct (LRUK.RecordAccess rp1 f1 now) as [r1|] eqn:Hr1; [|done].
      cbn [mbind option_bind].
      destruct (LRUK.SetEvictable r1 f1 false) as [r2|] eqn:Hr2; [|done].
      cbn [mbind option_bind]. intros [= _ <-].
      pose proof (TakeFrame_pins _ _ _ Hnn Htf) as Hnn1.
      destruct (TakeFrame_replacer_Inv _ _ _ _ _ _ HI Htf) as [h1 HI1].
      split.
      * unfold pins_nonneg. cbn [pages_]. rewrite list_insert_insert_eq.
        apply (pins_nonneg_insert _ _ _ Hnn1). cbn [pin_count_]. lia.
      * cbn [replacer_] in *. eapply touch_Inv; [done| |done..]. lia.
    + intros [= _ <-]. split; [done|]. exists h.
      eapply Inv_mono; [done|lia].
Qed.

(** What [UnpinPgImp] does to a resident page with a positive pin count. *)
Lemma UnpinPgImp_inv (st : BufferPool) (page_id f : Z) (is_dirty : bool)
    (p : Page) :
  EHT.Find hash (page_table_ st) page_id = Some f →
  page_at st f = Some p → 0 < pin_count_ p →
  ∃ r',
    (if pin_count_ p - 1 =? 0
     then LRUK.SetEvictable (replacer_ st) f true = Some r'
     else r' = replacer_ st) ∧
    UnpinPgImp hash st page_id is_dirty
    = Some (true,
            mkPool (<[Z.to_nat f :=
                       mkPage (page_id_ p) (pin_count_ p - 1)
                              (is_dirty || is_dirty_ p) (data_ p)]>
                      (pages_ st))
                   (page_table_ st) r' (free_list_ st) (next_page_id_ st)
                   (disk_ st) (trace_ st)).
Proof.
  intros Hfind Hp Hpin. unfold UnpinPgImp. rewrite Hfind, Hp.
  cbn [mbind option_bind].
  destruct (Z.leb_spec (pin_count_ p) 0) as [|_]; [lia|].
  destruct st as [ps pt rp fl np dk tr]. bsimpl.
  assert (Hpage :
    (if is_dirty
     then mkPage (page_id_ p) (pin_count_ p) is_dirty (data_ p)
     else p)
    = mkPage (page_id_ p) (pin_count_ p) (is_dirty || is_dirty_ p)
             (data_ p)).
  { destruct is_dirty; [done|]. by destruct p. }
  rewrite Hpage. cbn [page_id_ pin_count_ is_dirty_ data_].
  destruct (Z.eqb_spec (pin_count_ p - 1) 0) as [E|E].
  - destruct (SetEvictable_total rp f true) as [r' Hr'].
    exists r'. rewrite Hr'. by cbn [mbind option_bind].
  - by exists rp.
Qed.

Lemma UnpinPgImp_ok k n (st st' : BufferPool) (pid : Z) (d res : bool) :
  pool_ok k n st →
  UnpinPgImp hash st pid d = Some (res, st') → pool_ok k (n + 3) st'.
Proof.
  intros [Hnn [h HI]] Hun.
  assert (Hsame : pool_ok k (n + 3) st).
  { split; [done|]. exists h. eapply Inv_mono; [done|lia]. }
  destruct (EHT.Find hash (page_table_ st) pid) as [f|] eqn:Hfind;
    [|unfold UnpinPgImp in Hun; rewrite Hfind in Hun; by injection Hun as _ <-].
  destruct (page_at st f) as [p|] eqn:Hp;
    [|unfold UnpinPgImp in Hun; by rewrite Hfind, Hp in Hun].
  destruct (Z.leb_spec (pin_count_ p) 0) as [Hle|Hgt].
  - unfold UnpinPgImp in Hun. rewrite Hfind, Hp in Hun.
    cbn [mbind option_bind] in Hun.
    destruct (Z.leb_spec (pin_count_ p) 0); [|lia]. by injection Hun as _ <-.
  - destruct (UnpinPgImp_inv st pid f d p Hfind Hp Hgt) as (r' & Hr' & Heq).
    rewrite Heq in Hun. injection Hun as _ <-. split.
    + apply pins_nonneg_insert; [done|]. cbn [pin_count_]. lia.
    + cbn [replacer_]. destruct (_ =? 0).
      * eexists. eapply Inv_mono; [by eapply SetEvictable_Inv|lia].
      * subst r'. exists h. eapply Inv_mono; [done|lia].
Qed.

Lemma FlushPgImp_ok k n (st st' : BufferPool) (pid : Z) (res : bool) :
  pool_ok k n st →
  FlushPgImp hash st pid = Some (res, st') → pool_ok k (n + 3) st'.
Proof.
  intros [Hnn [h HI]] Hfl.
  assert (Hrep : replacer_ st' = replacer_ st).
  { revert Hfl. unfold FlushPgImp. destruct (_ =? _); [by intros [= _ <-]|].
    destruct (EHT.Find _ _ _) as [f|]; [|by intros [= _ <-]].
    destruct (page_at st f) as [p|]; [|done].
    cbn [mbind option_bind]. intros [= _ <-]. by destruct st. }
  split.
  - unfold pins_nonneg. by erewrite FlushPgImp_pages.
  - rewrite Hrep. exists h. eapply Inv_mono; [done|lia].
Qed.

Lemma DeletePgImp_ok k n (st st' : BufferPool) (pid : Z) (res : bool) :
  pool_ok k n st →
  DeletePgImp hash st pid = Some (res, st') → pool_ok k (n + 3) st'.
Proof.
  intros [Hnn [h HI]].
  assert (Hsame : pool_ok k (n + 3) st).
  { split; [done|]. exists h. eapply Inv_mono; [done|lia]. }
  unfold DeletePgImp.
  destruct (EHT.Find _ _ _) as [f|]; [|by intros [= _ <-]].
  destruct (page_at st f) as [p|]; [|done]. cbn [mbind option_bind].
  destruct (0 <? pin_count_ p); [by intros [= _ <-]|].
  destruct (LRUK.Remove (replacer_ st) f) as [r|] eqn:Hr; [|done].
  cbn [mbind option_bind]. destruct st as [ps pt rp fl np dk tr]. bsimpl.
  bsimpl in Hr. bsimpl in HI.
  destruct (EHT.Remove hash pt pid) as [[b t]|]; [|done].
  cbn [mbind option_bind]. intros [= _ <-]. split.
  - apply (pins_nonneg_insert (mkPool ps pt rp fl np dk tr)); [done|].
    cbn [pin_count_]. lia.
  - cbn [replacer_]. eexists.
    eapply Inv_mono; [by eapply Remove_Inv|lia].
Qed.

Lemma pool_step_ok k n (st st' : BufferPool) (op : PoolOp) :
  1 ≤ k < 2 ^ 64 → Z.of_nat n + 3 < 2 ^ 64 → pool_ok k n st →
  pool_step hash fuel st op = Some st' → pool_ok k (n + 3) st'.
Proof.
  intros Hk Hn Hok. destruct op; cbn [pool_step]; intros Hst;
    apply fmap_Some in Hst as ([res st1] & Hst & ->); cbn [snd].
  - by eapply NewPgImp_ok.
  - by eapply FetchPgImp_ok.
  - by eapply UnpinPgImp_ok.
  - by eapply FlushPgImp_ok.
  - by eapply DeletePgImp_ok.
Qed.

Lemma pool_run_ok k n (st st' : BufferPool) (ops : list PoolOp) :
  1 ≤ k < 2 ^ 64 → Z.of_nat (n + 3 * length ops) < 2 ^ 64 →
  pool_ok k n st → pool_run hash fuel st ops = Some st' →
  pool_ok k (n + 3 * length ops) st'.
Proof.
  intros Hk. unfold pool_run. revert n st.
  induction ops as [|op ops IH]; intros n st Hn Hok Hrun; cbn [foldl] in Hrun.
  - injection Hrun as <-. cbn [length]. by rewrite Nat.mul_0_r, Nat.add_0_r.
  - cbn [length] in *. cbn [mbind option_bind] in Hrun.
    destruct (pool_step hash fuel st op) as [st1|] eqn:Hst.
    + replace (n + 3 * S (length ops))%nat
        with ((n + 3) + 3 * length ops)%nat by lia.
      apply (IH (n + 3)%nat st1); [lia| |done].
      eapply pool_step_ok; [done| |done|done]. lia.
    + exfalso. clear -Hrun. induction ops as [|o ops IH]; [done|].
      by apply IH.
Qed.

(** A new pool satisfies the invariant. *)
Lemma new_pool_ok (pool_size : nat) (k : Z) (bucket_size : nat) :
  pool_ok k 0 (BufferPoolManagerInstance pool_size k bucket_size).
Proof.
  split.
  - unfold pins_nonneg. cbn [BufferPoolManagerInstance pages_].
    apply Forall_replicate. cbn. lia.
  - exists ∅. apply new_Inv.
Qed.

(** [NewPgImp] on the pools reached from a new pool by the pool's calls.
    It returns the null pointer exactly when every frame has a positive
    pin count. Any other result carries the page id that [next_page_id_]
    held, which is then one higher; the frame is the front of the free list
    when the list is not empty and the replacer's victim otherwise; the
    page in the frame has the new id and pin count 1; the frame is not
    flagged evictable and has no node in the replacer's sets. Such a result
    exists as soon as a frame is found in range and the page table
    insertion returns. In a pool of one frame the first call returns page 0
    in frame 0 and the second call returns null. *)
Lemma NewPgImp_reached
    (pool_size : nat) (k : Z) (bucket_size : nat) (calls : list PoolOp)
    (st : BufferPool) (now : Z) :
  1 ≤ k < 2 ^ 64 → Z.of_nat (3 * length calls) + 3 < 2 ^ 64 →
  pool_run hash fuel (BufferPoolManagerInstance pool_size k bucket_size) calls
  = Some st →
  ((∃ st', NewPgImp hash fuel st now = Some (None, st')) ↔ all_pinned st) ∧
  (∀ pid f st',
     NewPgImp hash fuel st now = Some (Some (pid, f), st') →
     pid = next_page_id_ st ∧ next_page_id_ st' = next_page_id_ st + 1 ∧
     match free_list_ st with
     | f0 :: rest => f = f0 ∧ free_list_ st' = rest
     | [] => (LRUK.Evict (replacer_ st)).1 = Some f
     end ∧
     (∃ p, page_at st' f = Some p ∧ page_id_ p = pid ∧ pin_count_ p = 1) ∧
     LRUK.evitable_ (replacer_ st') !! f ≠ Some true ∧
     (∀ nd, nd ∈ LRUK.inf_set_ (replacer_ st') ∨
            nd ∈ LRUK.kth_set_ (replacer_ st') → LRUK.id_ nd ≠ f)) ∧
  (∀ f st1,
     ¬ all_pinned st →
     TakeFrame hash (AllocatePage st).2 = Some (f, st1) →
     0 ≤ f < Z.of_nat (length (pages_ st)) →
     is_Some (EHT.Insert hash fuel (page_table_ st1) (next_page_id_ st) f) →
     ∃ st', NewPgImp hash fuel st now
            = Some (Some (next_page_id_ st, f), st')) ∧
  (∃ st1, NewPgImp int_hash 8 pool1 1 = Some (Some (0, 0), st1) ∧
          NewPgImp int_hash 8 st1 2 = Some (None, st1)).
Proof.
  intros Hk Hlen Hrun.
  destruct (pool_run_ok k 0 _ st calls Hk ltac:(cbn [Nat.add]; lia)
              (new_pool_ok pool_size k bucket_size) Hrun) as [Hnn [h HI]].
  cbn [Nat.add] in HI. set (n := (3 * length calls)%nat) in *.
  assert (HI0 : Inv k n (replacer_ (AllocatePage st).2) h)
    by (by destruct st).
  split; [|split; [|split]].
  - split.
    + intros [st' [Hfree _]%NewPgImp_null_inv]. by apply is_free_page_false.
    + intros Hfree%is_free_page_false; [|done].
      unfold NewPgImp. rewrite Hfree. by eexists.
  - intros pid f st'
      (_ & -> & st1 & t & p & r1 & r2 & Htf & _ & Hp & Hr1 & Hr2 & ->)
        %NewPgImp_Some_iff.
    destruct (TakeFrame_replacer_Inv _ _ _ _ _ _ HI0 Htf) as [h1 HI1].
    destruct (touch_not_evictable k n _ h1 f now Hk ltac:(lia) HI1)
      as (r1' & r2' & Hr1' & Hr2' & Hflag & Hsets).
    rewrite Hr1 in Hr1'. injection Hr1' as <-.
    rewrite Hr2 in Hr2'. injection Hr2' as <-.
    pose proof Htf as (Hnp & Hlenp & Hcase)%TakeFrame_inv.
    split; [done|].
    cbn [next_page_id_ free_list_ replacer_].
    split; [rewrite Hnp; by destruct st|].
    split.
    { destruct Hcase as [(rest & Hfl & ->)|(Hfl & rep & _ & _ & Hev & _)].
      - destruct st. bsimpl in Hfl. bsimpl. by rewrite Hfl.
      - destruct st. bsimpl in Hfl. bsimpl in Hev. bsimpl.
        by rewrite Hfl, Hev. }
    split; [|done].
    exists (mkPage (next_page_id_ st) 1 (is_dirty_ p) (data_ p)).
    split; [|done].
    unfold page_at in *. cbn [pages_].
    destruct (f <? 0); [done|].
    apply list_lookup_insert_eq. by eapply lookup_lt_Some.
  - intros f st1 Hnot Htf Hf [t Ht].
    destruct (TakeFrame_replacer_Inv _ _ _ _ _ _ HI0 Htf) as [h1 HI1].
    destruct (touch_not_evictable k n _ h1 f now Hk ltac:(lia) HI1)
      as (r1 & r2 & Hr1 & Hr2 & _).
    pose proof Htf as (_ & Hlenp & _)%TakeFrame_inv.
    assert (Hp : is_Some (page_at st1 f)).
    { unfold page_at. destruct (Z.ltb_spec f 0); [lia|].
      apply lookup_lt_is_Some. rewrite Hlenp. destruct st. bsimpl.
      bsimpl in Hf. lia. }
    destruct Hp as [p Hp].
    eexists. apply NewPgImp_Some_iff.
    split.
    { destruct (is_free_page st) eqn:E; [done|].
      destruct Hnot. by apply is_free_page_false. }
    split; [done|]. by exists st1, t, p, r1, r2.
  - eexists. split; [vm_compute; reflexivity|].
    vm_compute. reflexivity.
Qed.

(** [UnpinPgImp] of a page that the page table finds, in frame [f], which
    holds [p]. With a positive pin count it returns true; the pin count
    goes down by one, the dirty flag is set when [is_dirty] is true and
    kept when it is false; the replacer is told [SetEvictable(f, true)]
    exactly when the pin count has reached zero (and a tracked frame is then
    flagged evictable), and nothing else changes. With a pin count that is
    already zero, or for a page that the page table does not find, it
    returns false and the pool is unchanged. *)
Lemma UnpinPgImp_found_page
    (st : BufferPool) (page_id f : Z) (is_dirty : bool) (p : Page) :
  EHT.Find hash (page_table_ st) page_id = Some f →
  page_at st f = Some p →
  (0 < pin_count_ p →
   ∃ r',
     (if pin_count_ p - 1 =? 0
      then LRUK.SetEvictable (replacer_ st) f true = Some r'
      else r' = replacer_ st) ∧
     UnpinPgImp hash st page_id is_dirty
     = Some (true,
             mkPool (<[Z.to_nat f :=
                        mkPage (page_id_ p) (pin_count_ p - 1)
                               (is_dirty || is_dirty_ p) (data_ p)]>
                       (pages_ st))
                    (page_table_ st) r' (free_list_ st) (next_page_id_ st)
                    (disk_ st) (trace_ st)) ∧
     (pin_count_ p - 1 = 0 →
      LRUK.frame_time_ (replacer_ st) !! f ≠ None →
      LRUK.evitable_ r' !! f = Some true)) ∧
  (pin_count_ p ≤ 0 →
   UnpinPgImp hash st page_id is_dirty = Some (false, st)) ∧
  (∀ q, EHT.Find hash (page_table_ st) q = None →
        UnpinPgImp hash st q is_dirty = Some (false, st)).
Proof.
  intros Hfind Hp. split; [|split].
  - intros Hpin.
    destruct (UnpinPgImp_inv st page_id f is_dirty p Hfind Hp Hpin)
      as (r' & Hr' & Heq).
    exists r'. split; [done|]. split; [done|].
    intros E Ht. rewrite E in Hr'. by eapply SetEvictable_flag.
  - intros Hpin. unfold UnpinPgImp. rewrite Hfind, Hp.
    cbn [mbind option_bind].
    by destruct (Z.leb_spec (pin_count_ p) 0) as [_|]; [|lia].
  - intros q Hq. unfold UnpinPgImp. by rewrite Hq.
Qed.

End BPM_facts.

Lemma NewPgImp_null_leaves_pool_unchanged_witness :
  BPM.NewPgImp int_hash 8 pool1_new 2 = Some (None, pool1_new) ∧
  BPM.next_page_id_ pool1_new = BPM.next_page_id_ pool1_new ∧
  pool1_new = pool1_new.
Proof.
  assert (H : BPM.NewPgImp int_hash 8 pool1_new 2 = Some (None, pool1_new))
    by (vm_compute; reflexivity).
  split; [exact H|].
  exact (NewPgImp_null_leaves_pool_unchanged int_hash 8 pool1_new pool1_new
           2 H).
Defined.

(** C4 (as found in the code): [FlushPgImp] returns false for the invalid
    id and for a page that is not resident, and otherwise writes the page
    to disk and returns true, but it leaves the dirty flag set. Page 0 of
    [pool1_dirty] is resident and dirty; after [FlushPgImp(0)] its data is on
    disk and its frame is still dirty. In general the frames are the same
    before and after the call. *)
Theorem FlushPgImp_keeps_dirty_flag :
  BPM.page_at pool1_dirty 0 = Some (BPM.mkPage 0 0 true BPM.zero_data) ∧
  (∃ st', BPM.FlushPgImp int_hash pool1_dirty 0 = Some (true, st') ∧
          BPM.disk_ st' !! 0 = Some BPM.zero_data ∧
          BPM.trace_ st'
          = BPM.trace_ pool1_dirty ++ [BPM.EvWritePage 0 BPM.zero_data] ∧
          BPM.is_dirty_ <$> BPM.page_at st' 0 = Some true) ∧
  BPM.FlushPgImp int_hash pool1_dirty BPM.INVALID_PAGE_ID
  = Some (false, pool1_dirty) ∧
  BPM.FlushPgImp int_hash pool1_dirty 7 = Some (false, pool1_dirty) ∧
  (∀ hash st page_id b st',
     BPM.FlushPgImp hash st page_id = Some (b, st') →
     BPM.pages_ st' = BPM.pages_ st).
Proof.
  split; [vm_compute; reflexivity|].
  split.
  { eexists. split; [vm_compute; reflexivity|].
    split; [vm_compute; reflexivity|].
    split; vm_compute; reflexivity. }
  split; [vm_compute; reflexivity|].
  split; [vm_compute; reflexivity|].
  intros. by eapply FlushPgImp_pages.
Qed.

(** ** B+-tree *)

Section BPT_facts.

Import BPT.

Variable internal_LowerBound : list (Z * Z) → Z → Z.
Variable internal_InsertAt : list (Z * Z) → Z → Z → Z → list (Z * Z).
Variable internal_Split :
  list (Z * Z) → Z → Z → list (Z * Z) * list (Z * Z).

Local Abbreviation Insert :=
  (Insert internal_LowerBound internal_InsertAt internal_Split).
Local Abbreviation InsertPessimistic :=
  (InsertPessimistic internal_LowerBound internal_InsertAt internal_Split).
Local Abbreviation InsertAll :=
  (InsertAll internal_LowerBound internal_InsertAt internal_Split).

(** After the two assignments that follow [Split], both leaves carry the
    next pointer that the old leaf had before: the old leaf does not point
    to its new sibling. *)
Lemma link_sibling_next (leaf_node right_node : TreePage) :
  next_page_id_ (link_sibling leaf_node right_node).1
  = next_page_id_ leaf_node ∧
  next_page_id_ (link_sibling leaf_node right_node).2
  = next_page_id_ leaf_node.
Proof. done. Qed.

(** C1 (as found in the code): a leaf split does not put the new right
    sibling into the leaf list. Whatever the methods of the internal page
    do, inserting 1, 2, 3, 4 with [leaf_max_size = 3] gives the root
    [_, 3], the left leaf [1, 2] and the right leaf [3, 4], as specified,
    but the next pointer of the left leaf is still invalid (it is not the
    id 2 of the right leaf), so the list from the left leaf is
    left -> null. In general the two assignments after [Split] leave the
    old leaf with the next pointer it had. *)
Theorem leaf_split_leaves_sibling_unlinked :
  InsertAll 5 (BPlusTree_new 3 3 1) [(1, 11); (2, 12); (3, 13); (4, 14)]
  = Some tree_1234 ∧
  (array_ <$> pages_ tree_1234 !! 1 = Some [(1, 11); (2, 12)] ∧
   array_ <$> pages_ tree_1234 !! 2 = Some [(3, 13); (4, 14)] ∧
   next_page_id_ <$> pages_ tree_1234 !! 1 = Some INVALID_PAGE_ID ∧
   next_page_id_ <$> pages_ tree_1234 !! 1 ≠ Some 2 ∧
   next_page_id_ <$> pages_ tree_1234 !! 2 = Some INVALID_PAGE_ID) ∧
  (∀ leaf_node right_node,
     next_page_id_ (link_sibling leaf_node right_node).1
     = next_page_id_ leaf_node ∧
     next_page_id_ (link_sibling leaf_node right_node).2
     = next_page_id_ leaf_node).
Proof.
  split; [vm_compute; reflexivity|].
  split; [|apply link_sibling_next].
  repeat split; try (vm_compute; reflexivity).
  vm_compute. discriminate.
Qed.

(** A key that the leaf's own search finds is refused by the leaf's
    [Insert], and the leaf is not changed. *)
Lemma leaf_Insert_duplicate (n : TreePage) (key value v : Z) :
  leaf_GetValue n key = Some v → leaf_Insert n key value = (false, n).
Proof.
  unfold leaf_GetValue, leaf_Insert.
  destruct (array_ n !! lower_bound (array_ n) key) as [[k v0]|]; [|done].
  by destruct (k =? key).
Qed.

Lemma store_same (t : BPlusTree) (at_ : Z) (n : TreePage) :
  pages_ t !! at_ = Some n → store t at_ n = t.
Proof.
  intros Hn. unfold store, set_pages. rewrite insert_id by done.
  by destruct t.
Qed.

(** C8: a key that [GetValue] finds in the tree is refused by [Insert]:
    the call returns false and the tree is the same afterwards, in all of
    its pages (entries, sizes, parent and next pointers), its root id and
    its allocation state. *)
Theorem Insert_duplicate_key_rejected
    (fuel : nat) (t : BPlusTree) (key value v : Z) :
  GetValue fuel t key = Some (Some v) →
  Insert fuel t key value = Some (false, t).
Proof.
  intros Hget. unfold GetValue, FindLeafPage in Hget.
  destruct (IsEmpty t) eqn:Hemp; [done|].
  destruct (descend fuel t (root_page_id_ t) key) as [at_|] eqn:Hdesc;
    [|done].
  cbn [mbind option_bind] in Hget.
  destruct (pages_ t !! at_) as [leaf_node|] eqn:Hleaf; [|done].
  cbn [mbind option_bind] in Hget. injection Hget as Hget.
  assert (Hfind : FindLeafPage fuel t key INSERT = Some (Some at_, t)).
  { unfold FindLeafPage. by rewrite Hemp, Hdesc. }
  pose proof (leaf_Insert_duplicate _ _ value _ Hget) as Hdup.
  unfold Insert. rewrite Hfind. cbn [mbind option_bind].
  rewrite Hleaf. cbn [mbind option_bind].
  destruct (IsSafe leaf_node INSERT) eqn:Hsafe.
  - rewrite Hdup. by rewrite store_same.
  - unfold InsertPessimistic. rewrite Hfind. cbn [mbind option_bind].
    rewrite Hleaf. cbn [mbind option_bind].
    rewrite Hsafe, Hdup. cbn [negb]. by rewrite store_same.
Qed.

End BPT_facts.

Lemma Insert_duplicate_key_rejected_witness :
  BPT.GetValue 5 tree_1234 2 = Some (Some 12) ∧
  ∀ lb ia sp, BPT.Insert lb ia sp 5 tree_1234 2 99 = Some (false, tree_1234).
Proof.
  assert (H : BPT.GetValue 5 tree_1234 2 = Some (Some 12))
    by (vm_compute; reflexivity).
  split; [exact H|].
  intros lb ia sp.
  exact (Insert_duplicate_key_rejected lb ia sp 5 tree_1234 2 99 12 H).
Defined.
(** ** Extendible hash table: lookups, removal and the shape of the table *)

Section EHT_more.

Import EHT.

Context {V : Type} `{EqDecision V}.

Variable hash : Z → Z.

Local Abbreviation Table := (Table (V:=V)).
Local Abbreviation Bucket := (Bucket (V:=V)).

Lemma Bucket_update_None (l : list (Z * V)) (key : Z) (value : V) :
  Bucket_update l key value = None ↔ Bucket_Find l key = None.
Proof.
  induction l as [|[k v] l IH]; [done|]. cbn [Bucket_update Bucket_Find].
  destruct (k =? key); [done|].
  destruct (Bucket_update l key value); split; intros Hx; try done.
  - by apply IH in Hx.
  - by apply IH.
Qed.

Lemma Bucket_update_Find (l l' : list (Z * V)) (key : Z) (value : V) :
  Bucket_update l key value = Some l' → Bucket_Find l' key = Some value.
Proof.
  revert l'; induction l as [|[k v] l IH]; intros l'; [done|].
  cbn [Bucket_update]. destruct (k =? key) eqn:Hk.
  - intros [= <-]. cbn [Bucket_Find]. by rewrite Hk.
  - destruct (Bucket_update l key value) as [r|]; [|done].
    intros [= <-]. cbn [Bucket_Find]. rewrite Hk. by apply IH.
Qed.

Lemma Bucket_update_other (l l' : list (Z * V)) (key key' : Z) (value : V) :
  key' ≠ key → Bucket_update l key value = Some l' →
  Bucket_Find l' key' = Bucket_Find l key'.
Proof.
  intros Hne. revert l'; induction l as [|[k v] l IH]; intros l'; [done|].
  cbn [Bucket_update]. destruct (k =? key) eqn:Hk.
  - intros [= <-]. cbn [Bucket_Find].
    apply Z.eqb_eq in Hk as ->.
    by destruct (Z.eqb_spec key key').
  - destruct (Bucket_update l key value) as [r|]; [|done].
    intros [= <-]. cbn [Bucket_Find]. destruct (k =? key'); [done|].
    by apply IH.
Qed.

Lemma Bucket_update_keys (l l' : list (Z * V)) (key : Z) (value : V) :
  Bucket_update l key value = Some l' → l'.*1 = l.*1.
Proof.
  revert l'; induction l as [|[k v] l IH]; intros l'; [done|].
  cbn [Bucket_update]. destruct (k =? key) eqn:Hk.
  - by intros [= <-].
  - destruct (Bucket_update l key value) as [r|]; [|done].
    intros [= <-]. cbn. f_equal. by apply IH.
Qed.

Lemma Bucket_Find_app (l1 l2 : list (Z * V)) (key : Z) :
  Bucket_Find (l1 ++ l2) key
  = match Bucket_Find l1 key with
    | Some v => Some v
    | None => Bucket_Find l2 key
    end.
Proof.
  induction l1 as [|[k v] l1 IH]; [done|]. cbn [app Bucket_Find].
  by destruct (k =? key).
Qed.

Lemma Bucket_Find_None (l : list (Z * V)) (key : Z) :
  Bucket_Find l key = None ↔ key ∉ l.*1.
Proof.
  induction l as [|[k v] l IH]; cbn [Bucket_Find fmap list_fmap fst].
  - split; [intros _; apply not_elem_of_nil|done].
  - rewrite not_elem_of_cons. destruct (Z.eqb_spec k key) as [->|Hne].
    + split; [done|]. by intros [? _].
    + rewrite IH. split; [by intros ?; split|by intros [_ ?]].
Qed.

Lemma Bucket_Find_Some (l : list (Z * V)) (key : Z) (v : V) :
  Bucket_Find l key = Some v → (key, v) ∈ l.
Proof.
  induction l as [|[k w] l IH]; [done|]. cbn [Bucket_Find].
  destruct (Z.eqb_spec k key) as [->|Hne].
  - intros [= ->]. apply list_elem_of_here.
  - intros Hf. apply list_elem_of_further. by apply IH.
Qed.

(** [Bucket::Insert] that reports success: the key is found with the new
    value afterwards, the other keys as before. *)
Lemma Bucket_Insert_true (b b' : Bucket) (key : Z) (value : V) :
  Bucket_Insert b key value = (true, b') →
  size_ b' = size_ b ∧ depth_ b' = depth_ b ∧
  Bucket_Find (list_ b') key = Some value ∧
  ∀ key', key' ≠ key → Bucket_Find (list_ b') key' = Bucket_Find (list_ b) key'.
Proof.
  unfold Bucket_Insert.
  destruct (Bucket_update (list_ b) key value) as [l'|] eqn:Hu.
  - intros [= <-]. cbn [size_ depth_ list_].
    repeat split; [by eapply Bucket_update_Find|].
    intros key' Hne. by eapply Bucket_update_other.
  - destruct (IsFull b); [done|]. intros [= <-]. cbn [size_ depth_ list_].
    apply Bucket_update_None in Hu.
    repeat split.
    + rewrite Bucket_Find_app, Hu. cbn [Bucket_Find]. by rewrite Z.eqb_refl.
    + intros key' Hne. rewrite Bucket_Find_app.
      destruct (Bucket_Find (list_ b) key'); [done|]. cbn [Bucket_Find].
      by destruct (Z.eqb_spec key key').
Qed.

Lemma Bucket_Insert_false (b b' : Bucket) (key : Z) (value : V) :
  Bucket_Insert b key value = (false, b') →
  b' = b ∧ Bucket_Find (list_ b) key = None ∧ IsFull b = true.
Proof.
  unfold Bucket_Insert.
  destruct (Bucket_update (list_ b) key value) as [l'|] eqn:Hu; [done|].
  apply Bucket_update_None in Hu.
  destruct (IsFull b); [|done]. by intros [= <-].
Qed.

(** [Find] in a table whose bucket object [r] was replaced. *)
Lemma Find_set_bucket (t : Table) (r : nat) (b b' : Bucket) (key : Z) :
  buckets_ t !! r = Some b →
  Bucket_Find (list_ b') key = Bucket_Find (list_ b) key →
  Find hash (set_buckets t (<[r := b']> (buckets_ t))) key = Find hash t key.
Proof.
  intros Hb Hsame. unfold Find, bucket_at, IndexOf, set_buckets.
  cbn [global_depth_ dir_ buckets_].
  destruct (dir_ t !! _) as [r'|]; [|done]. cbn [mbind option_bind].
  destruct (decide (r' = r)) as [->|Hne].
  - rewrite list_lookup_insert_eq by (by eapply lookup_lt_Some).
    rewrite Hb. cbn [mbind option_bind]. done.
  - by rewrite list_lookup_insert_ne.
Qed.

(** X1: insert, then look up. Whenever [Insert] returns, [Find] of the key in
    the table it leaves gives the inserted value. *)
Theorem Insert_then_Find
    (fuel : nat) (t t' : Table) (key : Z) (value : V) :
  Insert hash fuel t key value = Some t' → Find hash t' key = Some value.
Proof.
  revert t; induction fuel as [|fuel IH]; intros t; [done|].
  cbn [Insert].
  destruct (dir_ t !! _) as [r|] eqn:Hr; [|done]. cbn [mbind option_bind].
  destruct (buckets_ t !! r) as [b|] eqn:Hb; [|done]. cbn [mbind option_bind].
  destruct (Bucket_Insert b key value) as [[] b'] eqn:Hins.
  - intros [= <-].
    apply Bucket_Insert_true in Hins as (_ & _ & Hf & _).
    unfold Find, bucket_at, IndexOf, set_buckets in *.
    cbn [global_depth_ dir_ buckets_].
    rewrite Hr. cbn [mbind option_bind].
    rewrite list_lookup_insert_eq by (by eapply lookup_lt_Some).
    done.
  - destruct (depth_ b =? global_depth_ t).
    + destruct (RedistributeBucket _ _ _) as [t1|]; [|done].
      cbn [mbind option_bind]. apply IH.
    + destruct (RedistributeBucket _ _ _) as [t1|]; [|done].
      cbn [mbind option_bind]. apply IH.
Qed.

(** X2: an insertion that needs no split. When the key is already in the
    table, or its bucket has room, [Insert] returns in its first round: the
    directory, the depths and the number of buckets are as before, the key
    has the new value and every other key is found as before. *)
Theorem Insert_without_split
    (fuel : nat) (t : Table) (key : Z) (value : V) (b : Bucket) :
  bucket_at t (IndexOf hash t key) = Some b →
  is_Some (Find hash t key) ∨ IsFull b = false →
  ∃ t', Insert hash (S fuel) t key value = Some t' ∧
        global_depth_ t' = global_depth_ t ∧ dir_ t' = dir_ t ∧
        num_buckets_ t' = num_buckets_ t ∧
        length (buckets_ t') = length (buckets_ t) ∧
        Find hash t' key = Some value ∧
        ∀ key', key' ≠ key → Find hash t' key' = Find hash t key'.
Proof.
  intros Hb Hroom. unfold Find in Hroom. rewrite Hb in Hroom.
  cbn [mbind option_bind] in Hroom.
  unfold bucket_at in Hb.
  destruct (dir_ t !! _) as [r|] eqn:Hr; [|done]. cbn [mbind option_bind] in Hb.
  cbn [Insert]. rewrite Hr. cbn [mbind option_bind]. rewrite Hb.
  cbn [mbind option_bind].
  destruct (Bucket_Insert b key value) as [[] b'] eqn:Hins.
  - eexists; split; [reflexivity|].
    apply Bucket_Insert_true in Hins as (_ & _ & Hf & Hother).
    unfold set_buckets. cbn [global_depth_ dir_ num_buckets_ buckets_].
    rewrite length_insert. repeat split.
    + unfold Find, bucket_at, IndexOf. cbn [global_depth_ dir_ buckets_].
      unfold IndexOf in Hr. rewrite Hr. cbn [mbind option_bind].
      by rewrite list_lookup_insert_eq by (by eapply lookup_lt_Some).
    + intros key' Hne.
      apply (Find_set_bucket t r b b' key' Hb). by apply Hother.
  - apply Bucket_Insert_false in Hins as (_ & Hnone & Hfull).
    destruct Hroom as [[v Hv]|Hfree]; congruence.
Qed.

Lemma NoDup_keys_value (l : list (Z * V)) (k : Z) (v w : V) :
  NoDup l.*1 → (k, v) ∈ l → (k, w) ∈ l → v = w.
Proof.
  induction l as [|[k0 v0] l IH]; [by intros _ ?%elem_of_nil|].
  cbn [fmap list_fmap fst]. rewrite NoDup_cons. intros [Hk0 Hnd].
  rewrite !elem_of_cons. intros [[= <- <-]|Hv] [[= ->]|Hw]; try done.
  - exfalso. apply Hk0. apply list_elem_of_fmap. by exists (k, w).
  - subst. exfalso. apply Hk0. apply list_elem_of_fmap. by exists (k0, v).
  - by apply IH.
Qed.

Lemma Bucket_Find_filter_other (l : list (Z * V)) (k k' : Z) (v : V) :
  k' ≠ k →
  Bucket_Find (filter (λ item, item ≠ (k, v)) l) k' = Bucket_Find l k'.
Proof.
  intros Hne. induction l as [|[k0 v0] l IH]; [done|].
  rewrite filter_cons. destruct (decide ((k0, v0) ≠ (k, v))) as [Hd|Hd].
  - cbn [Bucket_Find]. by rewrite IH.
  - apply dec_stable in Hd as [= -> ->]. cbn [Bucket_Find].
    by destruct (Z.eqb_spec k k').
Qed.

(** X3: [Remove]. It reports whether the key was in the table; a key that
    is absent leaves the table as it was; the directory and the depths never
    change (no bucket is merged); every other key is found as before; and in
    a table whose buckets hold no key twice the removed key is not found
    afterwards. *)
Theorem Remove_then_Find (t t' : Table) (key : Z) (ok : bool) :
  Remove hash t key = Some (ok, t') →
  (ok = true ↔ is_Some (Find hash t key)) ∧
  (ok = false → t' = t) ∧
  global_depth_ t' = global_depth_ t ∧ dir_ t' = dir_ t ∧
  num_buckets_ t' = num_buckets_ t ∧
  (∀ key', key' ≠ key → Find hash t' key' = Find hash t key') ∧
  (buckets_ok t → Find hash t' key = None).
Proof.
  unfold Remove.
  destruct (dir_ t !! _) as [r|] eqn:Hr; [|done]. cbn [mbind option_bind].
  destruct (buckets_ t !! r) as [b|] eqn:Hb; [|done]. cbn [mbind option_bind].
  assert (Hfind : Find hash t key = Bucket_Find (list_ b) key).
  { unfold Find, bucket_at. rewrite Hr. cbn [mbind option_bind].
    by rewrite Hb. }
  unfold Bucket_Remove.
  destruct (Bucket_Find (list_ b) key) as [v|] eqn:Hv.
  - intros [= <- <-]. rewrite Hfind.
    unfold set_buckets. cbn [global_depth_ dir_ num_buckets_ buckets_].
    split; [by split|]. split; [done|]. repeat split.
    + intros key' Hne. apply (Find_set_bucket t r b _ key' Hb).
      cbn [list_]. by apply Bucket_Find_filter_other.
    + intros Hok. unfold Find, bucket_at, IndexOf.
      cbn [global_depth_ dir_ buckets_].
      unfold IndexOf in Hr. rewrite Hr. cbn [mbind option_bind].
      rewrite list_lookup_insert_eq by (by eapply lookup_lt_Some).
      cbn [mbind option_bind list_]. apply Bucket_Find_None.
      intros ([k w] & Hk & Hin)%list_elem_of_fmap. cbn in Hk. subst k.
      apply list_elem_of_filter in Hin as [Hneq Hin].
      apply Hneq. f_equal.
      pose proof (Forall_lookup_1 _ _ _ _ Hok Hb) as (_ & _ & Hnd).
      eapply NoDup_keys_value; [exact Hnd|exact Hin|].
      by apply Bucket_Find_Some.
  - intros [= <- <-]. rewrite Hfind.
    assert (Hsame : set_buckets t (<[r := b]> (buckets_ t)) = t).
    { rewrite list_insert_id by done. by destruct t. }
    rewrite Hsame. split; [split; [done|by intros [? ?]]|].
    repeat split; done.
Qed.

(** *** The invariant of the table *)

Lemma IndexOf_mod (t : Table) (key : Z) :
  0 ≤ global_depth_ t → IndexOf hash t key = hash key mod 2 ^ global_depth_ t.
Proof.
  intros Hg. unfold IndexOf.
  change (Z.shiftl 1 (global_depth_ t) - 1) with (Z.ones (global_depth_ t)).
  by rewrite Z.land_ones.
Qed.

Lemma IndexOf_bound (t : Table) (key : Z) :
  dir_shape t → (Z.to_nat (IndexOf hash t key) < length (dir_ t))%nat.
Proof.
  intros (Hg & Hlen & _). rewrite IndexOf_mod, Hlen by done.
  pose proof (Z.pow_pos_nonneg 2 (global_depth_ t) ltac:(lia) Hg).
  pose proof (Z.mod_pos_bound (hash key) (2 ^ global_depth_ t) ltac:(lia)).
  lia.
Qed.

Lemma dir_shape_bucket_at (t : Table) (i : Z) :
  dir_shape t → 0 ≤ i < 2 ^ global_depth_ t → is_Some (bucket_at t i).
Proof.
  intros (Hg & Hlen & Hall) Hi. unfold bucket_at.
  destruct (lookup_lt_is_Some_2 (dir_ t) (Z.to_nat i)) as [r Hr]; [lia|].
  rewrite Hr. cbn [mbind option_bind].
  apply lookup_lt_is_Some_2. by eapply (Forall_lookup_1 _ _ _ _ Hall).
Qed.

Lemma Remove_total (t : Table) (key : Z) :
  dir_shape t → is_Some (Remove hash t key).
Proof.
  intros Hshape. pose proof Hshape as (Hg & Hlen & Hall).
  pose proof (Z.pow_pos_nonneg 2 (global_depth_ t) ltac:(lia) Hg).
  assert (Hidx : 0 ≤ IndexOf hash t key < 2 ^ global_depth_ t).
  { rewrite IndexOf_mod by done. apply Z.mod_pos_bound. lia. }
  destruct (dir_shape_bucket_at t _ Hshape Hidx) as [b Hb].
  unfold bucket_at in Hb. unfold Remove.
  destruct (dir_ t !! _) as [r|]; [|done]. cbn [mbind option_bind] in *.
  rewrite Hb. cbn [mbind option_bind].
  destruct (Bucket_Remove b key). by eexists.
Qed.

Lemma Bucket_Insert_ok (n : nat) (b : Bucket) (key : Z) (value : V) :
  bucket_ok n b → bucket_ok n (Bucket_Insert b key value).2.
Proof.
  intros (Hs & Hl & Hnd). unfold Bucket_Insert.
  destruct (Bucket_update (list_ b) key value) as [l'|] eqn:Hu.
  - pose proof (Bucket_update_keys _ _ _ _ Hu) as Hk.
    cbn [snd]. unfold bucket_ok. cbn [size_ list_].
    split; [done|]. rewrite Hk. split; [|done].
    by rewrite <- (length_fmap fst l'), Hk, length_fmap.
  - unfold IsFull.
    destruct (Nat.leb_spec (size_ b) (length (list_ b))); [done|].
    cbn [snd]. unfold bucket_ok. cbn [size_ list_].
    split; [done|]. split; [rewrite length_app; cbn [length]; lia|].
    rewrite fmap_app. apply NoDup_app. split; [done|].
    apply Bucket_update_None, Bucket_Find_None in Hu.
    split; [|apply NoDup_singleton].
    intros x Hx Hin. apply list_elem_of_singleton in Hin. by subst.
Qed.

Lemma Bucket_Remove_ok (n : nat) (b : Bucket) (key : Z) :
  bucket_ok n b → bucket_ok n (Bucket_Remove b key).2.
Proof.
  intros (Hs & Hl & Hnd). unfold Bucket_Remove.
  destruct (Bucket_Find (list_ b) key) as [v|]; [|done].
  cbn [snd]. unfold bucket_ok. cbn [size_ list_].
  split; [done|]. split.
  - pose proof (length_filter (λ item, item ≠ (key, v)) (list_ b)). lia.
  - eapply sublist_NoDup; [exact Hnd|].
    apply fmap_sublist, sublist_filter.
Qed.

Lemma reinsert_ok (t t' : Table) (kv : Z * V) :
  table_ok t → reinsert hash (Some t) kv = Some t' →
  table_ok t' ∧ global_depth_ t' = global_depth_ t ∧
  bucket_size_ t' = bucket_size_ t.
Proof.
  intros [(Hg & Hlen & Hall) Hbs]. unfold reinsert. cbn [mbind option_bind].
  destruct (dir_ t !! _) as [r|]; [|done]. cbn [mbind option_bind].
  destruct (buckets_ t !! r) as [b|] eqn:Hb; [|done]. cbn [mbind option_bind].
  intros [= <-]. unfold table_ok, dir_shape, buckets_ok, set_buckets.
  cbn [global_depth_ bucket_size_ dir_ buckets_]. rewrite length_insert.
  repeat split; try done.
  apply Forall_insert; [done|]. apply Bucket_Insert_ok.
  by eapply (Forall_lookup_1 _ _ _ _ Hbs).
Qed.

Lemma foldl_reinsert_None (l : list (Z * V)) :
  foldl (reinsert hash) None l = None.
Proof. by induction l. Qed.

Lemma foldl_reinsert_ok (l : list (Z * V)) (t t' : Table) :
  table_ok t → foldl (reinsert hash) (Some t) l = Some t' →
  table_ok t' ∧ global_depth_ t' = global_depth_ t ∧
  bucket_size_ t' = bucket_size_ t.
Proof.
  revert t; induction l as [|kv l IH]; intros t Hok; cbn [foldl].
  - by intros [= <-].
  - destruct (reinsert hash (Some t) kv) as [t1|] eqn:H1.
    + destruct (reinsert_ok _ _ _ Hok H1) as (Hok1 & Hg1 & Hb1).
      intros H2. destruct (IH _ Hok1 H2) as (? & ? & ?).
      split; [done|split; congruence].
    + by rewrite foldl_reinsert_None.
Qed.

Lemma rewire_shape (n m : nat) (old_depth old_idx : Z) (new_slot : nat)
    (d d' : list nat) (i : Z) :
  Forall (λ r, (r < n)%nat) d → length d = m →
  rewire old_depth old_idx new_slot (Some d) i = Some d' →
  Forall (λ r, (r < n)%nat) d' ∧ length d' = m.
Proof.
  intros Hall Hlen. unfold rewire. cbn [mbind option_bind].
  destruct (d !! _) as [src|] eqn:Hsrc; [|done]. cbn [mbind option_bind].
  destruct (_ <? _)%nat; [|done]. intros [= <-].
  rewrite length_insert. split; [|done].
  apply Forall_insert; [done|]. by eapply (Forall_lookup_1 _ _ _ _ Hall).
Qed.

Lemma bucket_ok_IncrementDepth (n : nat) (b : Bucket) :
  bucket_ok n b → bucket_ok n (IncrementDepth b).
Proof. by intros (? & ? & ?). Qed.

Lemma bucket_ok_emptied (n : nat) (b : Bucket) :
  bucket_ok n b → bucket_ok n (mkBucket (size_ b) (depth_ b) [] : Bucket).
Proof.
  intros (Hs & _ & _). unfold bucket_ok. cbn [size_ list_ length].
  split; [done|]. split; [lia|]. apply NoDup_nil_2.
Qed.

Lemma RedistributeBucket_ok (t t' : Table) (idx : Z) :
  table_ok t → RedistributeBucket hash t idx = Some t' →
  table_ok t' ∧ global_depth_ t' = global_depth_ t ∧
  bucket_size_ t' = bucket_size_ t.
Proof.
  intros [(Hg & Hlen & Hall) Hbs]. unfold RedistributeBucket.
  destruct (bucket_at t idx) as [b0|]; [|done]. cbn [mbind option_bind].
  cbv zeta.
  set (old_idx := Z.land idx _).
  set (new_slot := Z.to_nat (old_idx + _)).
  destruct (dir_ t !! new_slot) as [x|]; [|done]. cbn [mbind option_bind].
  set (dir1 := <[new_slot := length (buckets_ t)]> (dir_ t)).
  set (bs1 := buckets_ t ++ [mkBucket (bucket_size_ t) (depth_ b0) []]).
  assert (Hbs1 : Forall (bucket_ok (bucket_size_ t)) bs1).
  { apply Forall_app. split; [done|]. apply Forall_singleton.
    unfold bucket_ok. cbn [size_ list_ length].
    split; [done|]. split; [lia|]. apply NoDup_nil_2. }
  assert (Hl1 : length bs1 = S (length (buckets_ t))).
  { unfold bs1. rewrite length_app. cbn [length]. lia. }
  assert (Hd1 : Forall (λ r, (r < length bs1)%nat) dir1).
  { rewrite Hl1. apply Forall_insert; [|lia].
    eapply Forall_impl; [exact Hall|]. intros r Hr. cbn beta in *. lia. }
  assert (Hd1len : length dir1 = length (dir_ t)).
  { unfold dir1. by rewrite length_insert. }
  clearbody bs1 dir1 old_idx new_slot.
  destruct (dir1 !! Z.to_nat old_idx) as [ob|]; [|done].
  cbn [mbind option_bind].
  destruct (bs1 !! ob) as [o|] eqn:Ho; [|done]. cbn [mbind option_bind].
  set (bs2 := <[ob := IncrementDepth o]> bs1).
  assert (Hbs2 : Forall (bucket_ok (bucket_size_ t)) bs2).
  { apply Forall_insert; [done|]. apply bucket_ok_IncrementDepth.
    by eapply (Forall_lookup_1 _ _ _ _ Hbs1). }
  destruct (dir1 !! new_slot) as [nr|]; [|done]. cbn [mbind option_bind].
  destruct (bs2 !! nr) as [n|] eqn:Hn; [|done]. cbn [mbind option_bind].
  set (bs3 := <[nr := IncrementDepth n]> bs2).
  assert (Hbs3 : Forall (bucket_ok (bucket_size_ t)) bs3).
  { apply Forall_insert; [done|]. apply bucket_ok_IncrementDepth.
    by eapply (Forall_lookup_1 _ _ _ _ Hbs2). }
  assert (Hl3 : length bs3 = length bs1).
  { unfold bs3, bs2. by rewrite !length_insert. }
  cbn [foldl].
  destruct (rewire (depth_ b0) old_idx new_slot (Some dir1) 0)
    as [da|] eqn:Hda; [|done].
  destruct (rewire_shape _ _ _ _ _ _ _ _ Hd1 Hd1len Hda) as [Hda1 Hda2].
  destruct (rewire (depth_ b0) old_idx new_slot (Some da) 1)
    as [dir2|] eqn:Hdb; [|done].
  destruct (rewire_shape _ _ _ _ _ _ _ _ Hda1 Hda2 Hdb) as [Hdb1 Hdb2].
  cbn [mbind option_bind].
  destruct (dir2 !! Z.to_nat old_idx) as [ob'|]; [|done].
  cbn [mbind option_bind].
  destruct (bs3 !! ob') as [o'|] eqn:Ho'; [|done]. cbn [mbind option_bind].
  intros Hfold. apply foldl_reinsert_ok in Hfold; [done|].
  unfold table_ok, dir_shape, buckets_ok.
  cbn [global_depth_ bucket_size_ dir_ buckets_].
  rewrite length_insert, Hl3. repeat split; try done; [congruence|].
  apply Forall_insert; [done|]. apply bucket_ok_emptied.
  by eapply (Forall_lookup_1 _ _ _ _ Hbs3).
Qed.

Lemma Expansion_ok (t : Table) : table_ok t → table_ok (Expansion t).
Proof.
  intros [(Hg & Hlen & Hall) Hbs]. unfold Expansion, table_ok, dir_shape,
    buckets_ok. cbn [global_depth_ bucket_size_ dir_ buckets_].
  rewrite Z.shiftl_1_l, <- Hlen, firstn_all, length_app.
  repeat split; [lia| |by apply Forall_app|done].
  rewrite Z.pow_add_r, Z.pow_1_r by lia.
  pose proof (Z.pow_pos_nonneg 2 (global_depth_ t) ltac:(lia) Hg). lia.
Qed.

Lemma Insert_ok (fuel : nat) (t t' : Table) (key : Z) (value : V) :
  table_ok t → Insert hash fuel t key value = Some t' →
  table_ok t' ∧ bucket_size_ t' = bucket_size_ t.
Proof.
  revert t; induction fuel as [|fuel IH]; intros t Hok; [done|].
  cbn [Insert].
  destruct (dir_ t !! _) as [r|] eqn:Hr; [|done]. cbn [mbind option_bind].
  destruct (buckets_ t !! r) as [b|] eqn:Hb; [|done]. cbn [mbind option_bind].
  destruct (Bucket_Insert b key value) as [[] b'] eqn:Hins.
  - intros [= <-]. destruct Hok as [(Hg & Hlen & Hall) Hbs].
    unfold table_ok, dir_shape, buckets_ok, set_buckets.
    cbn [global_depth_ bucket_size_ dir_ buckets_]. rewrite length_insert.
    repeat split; try done.
    apply Forall_insert; [done|].
    change b' with (true, b').2. rewrite <- Hins. apply Bucket_Insert_ok.
    by eapply (Forall_lookup_1 _ _ _ _ Hbs).
  - destruct (depth_ b =? global_depth_ t).
    + destruct (RedistributeBucket _ _ _) as [t1|] eqn:Hred; [|done].
      cbn [mbind option_bind]. intros Hrec.
      destruct (RedistributeBucket_ok _ _ _ (Expansion_ok _ Hok) Hred)
        as (Hok1 & _ & Hsz).
      destruct (IH _ Hok1 Hrec) as [? ?]. split; [done|].
      etrans; [eassumption|]. by rewrite Hsz.
    + destruct (RedistributeBucket _ _ _) as [t1|] eqn:Hred; [|done].
      cbn [mbind option_bind]. intros Hrec.
      destruct (RedistributeBucket_ok _ _ _ Hok Hred) as (Hok1 & _ & Hsz).
      destruct (IH _ Hok1 Hrec) as [? ?]. split; [done|]. congruence.
Qed.

Lemma Remove_ok (t t' : Table) (key : Z) (ok : bool) :
  table_ok t → Remove hash t key = Some (ok, t') →
  table_ok t' ∧ bucket_size_ t' = bucket_size_ t.
Proof.
  intros [(Hg & Hlen & Hall) Hbs]. unfold Remove.
  destruct (dir_ t !! _) as [r|] eqn:Hr; [|done]. cbn [mbind option_bind].
  destruct (buckets_ t !! r) as [b|] eqn:Hb; [|done]. cbn [mbind option_bind].
  destruct (Bucket_Remove b key) as [ok' b'] eqn:Hrem. intros [= <- <-].
  unfold table_ok, dir_shape, buckets_ok, set_buckets.
  cbn [global_depth_ bucket_size_ dir_ buckets_]. rewrite length_insert.
  repeat split; try done.
  apply Forall_insert; [done|].
  change b' with (ok', b').2. rewrite <- Hrem. apply Bucket_Remove_ok.
  by eapply (Forall_lookup_1 _ _ _ _ Hbs).
Qed.

Lemma new_table_ok (bucket_size : nat) :
  table_ok (ExtendibleHashTable (V:=V) bucket_size).
Proof.
  unfold table_ok, dir_shape, buckets_ok, ExtendibleHashTable.
  cbn [global_depth_ bucket_size_ dir_ buckets_].
  repeat split; try done.
  - repeat constructor.
  - apply Forall_singleton. unfold bucket_ok. cbn [size_ list_ length].
    split; [done|]. split; [lia|]. apply NoDup_nil_2.
Qed.

Lemma table_run_ok (fuel : nat) (ops : list TableOp) (t t' : Table) :
  table_ok t → table_run hash fuel t ops = Some t' →
  table_ok t' ∧ bucket_size_ t' = bucket_size_ t.
Proof.
  unfold table_run. revert t; induction ops as [|op ops IH]; intros t Hok.
  - by intros [= <-].
  - cbn [foldl mbind option_bind].
    destruct (table_step hash fuel t op) as [t1|] eqn:Hstep.
    + assert (table_ok t1 ∧ bucket_size_ t1 = bucket_size_ t) as [Hok1 Hsz].
      { destruct op as [key value|key]; cbn [table_step] in Hstep.
        - by eapply Insert_ok.
        - destruct (Remove hash t key) as [[ok t2]|] eqn:Hrem; [|done].
          injection Hstep as <-. by eapply Remove_ok. }
      intros Hrun. destruct (IH _ Hok1 Hrun) as [? ?].
      split; [done|congruence].
    + intros Hrun. exfalso. revert Hrun. clear.
      induction ops as [|op' ops IH']; [done|]. exact IH'.
Qed.

(** X4: the shape of the directory. In every table reached from a new table
    by [Insert] and [Remove] calls, the directory has exactly
    [2 ^ global_depth_] slots, every slot holds a bucket, and the slot of
    every key lies inside the directory, so that [Find] and [Remove] return
    for every key. *)
Theorem table_run_directory_shape
    (bucket_size fuel : nat) (ops : list TableOp) (t : Table) :
  table_run hash fuel (ExtendibleHashTable bucket_size) ops = Some t →
  0 ≤ GetGlobalDepth t ∧
  length (dir_ t) = Z.to_nat (2 ^ GetGlobalDepth t) ∧
  (∀ i, 0 ≤ i < 2 ^ GetGlobalDepth t → is_Some (GetLocalDepth t i)) ∧
  (∀ key, 0 ≤ IndexOf hash t key < 2 ^ GetGlobalDepth t ∧
          is_Some (Remove hash t key)).
Proof.
  intros Hrun.
  destruct (table_run_ok _ _ _ _ (new_table_ok bucket_size) Hrun)
    as [[Hshape Hbs] _].
  pose proof Hshape as (Hg & Hlen & Hall). unfold GetGlobalDepth.
  split; [done|]. split; [done|]. split.
  - intros i Hi. unfold GetLocalDepth.
    destruct (dir_shape_bucket_at t i Hshape Hi) as [b ->]. by eexists.
  - intros key.
    pose proof (Z.pow_pos_nonneg 2 (global_depth_ t) ltac:(lia) Hg).
    assert (Hidx : 0 ≤ IndexOf hash t key < 2 ^ global_depth_ t).
    { rewrite IndexOf_mod by done. apply Z.mod_pos_bound. lia. }
    split; [done|].
    destruct (dir_shape_bucket_at t _ Hshape Hidx) as [b Hb].
    unfold bucket_at in Hb. unfold Remove.
    destruct (dir_ t !! _) as [r|]; [|done]. cbn [mbind option_bind] in *.
    rewrite Hb. cbn [mbind option_bind].
    destruct (Bucket_Remove b key). by eexists.
Qed.

(** X5: the buckets. In every table reached from a new table by [Insert] and
    [Remove] calls, no bucket holds more items than the bucket size given to
    the constructor, and no bucket holds the same key twice. *)
Theorem table_run_bucket_capacity
    (bucket_size fuel : nat) (ops : list TableOp) (t : Table)
    (i : Z) (b : Bucket) :
  table_run hash fuel (ExtendibleHashTable bucket_size) ops = Some t →
  bucket_at t i = Some b →
  (length (list_ b) ≤ bucket_size)%nat ∧ NoDup (list_ b).*1.
Proof.
  intros Hrun Hb.
  destruct (table_run_ok _ _ _ _ (new_table_ok bucket_size) Hrun)
    as [[Hshape Hbs] Hsz].
  unfold bucket_at in Hb.
  destruct (dir_ t !! _) as [r|]; [|done]. cbn [mbind option_bind] in Hb.
  pose proof (Forall_lookup_1 _ _ _ _ Hbs Hb) as (_ & Hl & Hnd).
  rewrite Hsz in Hl. done.
Qed.

(** X6: doubling the directory changes no lookup. In a table whose directory
    has [2 ^ global_depth_] slots, [Find] gives the same result for every
    key after [Expansion] as before. *)
Theorem Expansion_preserves_Find (t : Table) (key : Z) :
  0 ≤ global_depth_ t →
  length (dir_ t) = Z.to_nat (2 ^ global_depth_ t) →
  global_depth_ (Expansion t) = global_depth_ t + 1 ∧
  length (dir_ (Expansion t)) = (2 * length (dir_ t))%nat ∧
  Find hash (Expansion t) key = Find hash t key.
Proof.
  intros Hg Hlen.
  pose proof (Z.pow_pos_nonneg 2 (global_depth_ t) ltac:(lia) Hg) as Hpos.
  split; [done|]. split.
  { unfold Expansion. cbn [dir_]. rewrite Z.shiftl_1_l, <- Hlen, firstn_all.
    rewrite length_app. lia. }
  unfold Find, bucket_at.
  rewrite (IndexOf_mod (Expansion t)) by (cbn [Expansion global_depth_]; lia).
  rewrite IndexOf_mod by done.
  unfold Expansion. cbn [global_depth_ dir_ buckets_].
  rewrite Z.shiftl_1_l, <- Hlen, firstn_all.
  f_equal. f_equal.
  rewrite Z.pow_add_r, Z.pow_1_r by lia.
  rewrite Z.rem_mul_r by lia.
  pose proof (Z.mod_pos_bound (hash key) (2 ^ global_depth_ t) ltac:(lia)).
  pose proof (Z.mod_pos_bound (hash key / 2 ^ global_depth_ t) 2 ltac:(lia)).
  destruct (decide ((hash key / 2 ^ global_depth_ t) mod 2 = 0)) as [Hbit|Hbit].
  - rewrite Hbit, Z.mul_0_r, Z.add_0_r. apply lookup_app_l. lia.
  - replace ((hash key / 2 ^ global_depth_ t) mod 2) with 1 by lia.
    rewrite lookup_app_r by lia. f_equal. lia.
Qed.

End EHT_more.

Lemma Insert_then_Find_witness :
  EHT.Insert int_hash 8 eht_02 4 104 = Some eht_024 ∧
  EHT.Find int_hash eht_024 4 = Some 104.
Proof.
  split; [vm_compute; reflexivity|].
  apply (Insert_then_Find int_hash 8 eht_02 eht_024 4 104).
  vm_compute. reflexivity.
Defined.

Lemma Insert_without_split_witness :
  EHT.bucket_at eht_024 (EHT.IndexOf int_hash eht_024 4)
  = Some (EHT.mkBucket 2 2 [(0, 100); (4, 104)]) ∧
  EHT.IsFull (EHT.mkBucket 2 2 [(0, 100); (4, 104)]) = true ∧
  ∃ t', EHT.Insert int_hash 1 eht_024 4 204 = Some t' ∧
        EHT.global_depth_ t' = 2 ∧ EHT.dir_ t' = [0; 1; 2; 1]%nat ∧
        EHT.num_buckets_ t' = 3 ∧
        length (EHT.buckets_ t') = 3%nat ∧
        EHT.Find int_hash t' 4 = Some 204 ∧
        ∀ key', key' ≠ 4 → EHT.Find int_hash t' key' = EHT.Find int_hash eht_024 key'.
Proof.
  split; [vm_compute; reflexivity|]. split; [vm_compute; reflexivity|].
  apply (Insert_without_split int_hash 0 eht_024 4 204
           (EHT.mkBucket 2 2 [(0, 100); (4, 104)])).
  - vm_compute. reflexivity.
  - left. exists 104. vm_compute. reflexivity.
Defined.

Lemma Remove_then_Find_witness :
  EHT.Remove int_hash eht_024 2
  = Some (true,
          EHT.mkTable 2 2 3 [0; 1; 2; 1]%nat
            [EHT.mkBucket 2 2 [(0, 100); (4, 104)]; EHT.mkBucket 2 1 [];
             EHT.mkBucket 2 2 []]) ∧
  EHT.Find int_hash eht_024 2 = Some 102 ∧
  EHT.Find int_hash
    (EHT.mkTable 2 2 3 [0; 1; 2; 1]%nat
       [EHT.mkBucket 2 2 [(0, 100); (4, 104)]; EHT.mkBucket 2 1 [];
        EHT.mkBucket 2 2 []]) 4
  = EHT.Find int_hash eht_024 4.
Proof.
  split; [vm_compute; reflexivity|]. split; [vm_compute; reflexivity|].
  refine (proj1 (proj2 (proj2 (proj2 (proj2 (proj2
            (Remove_then_Find int_hash eht_024 _ 2 true _)))))) 4 _).
  - vm_compute. reflexivity.
  - discriminate.
Defined.

Lemma table_run_directory_shape_witness :
  table_run int_hash 8 (EHT.ExtendibleHashTable 2)
    [TInsert 0 100; TInsert 2 102; TInsert 4 104] = Some eht_024 ∧
  0 ≤ EHT.GetGlobalDepth eht_024 ∧
  length (EHT.dir_ eht_024) = Z.to_nat (2 ^ EHT.GetGlobalDepth eht_024) ∧
  (∀ i, 0 ≤ i < 2 ^ EHT.GetGlobalDepth eht_024 →
        is_Some (EHT.GetLocalDepth eht_024 i)) ∧
  (∀ key, 0 ≤ EHT.IndexOf int_hash eht_024 key < 2 ^ EHT.GetGlobalDepth eht_024 ∧
          is_Some (EHT.Remove int_hash eht_024 key)).
Proof.
  split; [vm_compute; reflexivity|].
  apply (table_run_directory_shape int_hash 2 8
           [TInsert 0 100; TInsert 2 102; TInsert 4 104] eht_024).
  vm_compute. reflexivity.
Defined.

Lemma table_run_bucket_capacity_witness :
  table_run int_hash 8 (EHT.ExtendibleHashTable 2)
    [TInsert 0 100; TInsert 2 102; TInsert 4 104] = Some eht_024 ∧
  EHT.bucket_at eht_024 0 = Some (EHT.mkBucket 2 2 [(0, 100); (4, 104)]) ∧
  (length [(0, 100); (4, 104)] ≤ 2)%nat ∧ NoDup [0; 4].
Proof.
  split; [vm_compute; reflexivity|]. split; [vm_compute; reflexivity|].
  apply (table_run_bucket_capacity int_hash 2 8
           [TInsert 0 100; TInsert 2 102; TInsert 4 104] eht_024 0
           (EHT.mkBucket 2 2 [(0, 100); (4, 104)])).
  - vm_compute. reflexivity.
  - vm_compute. reflexivity.
Defined.

Lemma Expansion_preserves_Find_witness :
  EHT.global_depth_ (EHT.Expansion eht_024) = 3 ∧
  length (EHT.dir_ (EHT.Expansion eht_024)) = 8%nat ∧
  EHT.Find int_hash (EHT.Expansion eht_024) 4 = EHT.Find int_hash eht_024 4.
Proof.
  apply (Expansion_preserves_Find int_hash eht_024 4).
  - vm_compute. discriminate.
  - vm_compute. reflexivity.
Defined.
(** ** LRU-K replacer: the size, the capacity and the records *)

Section LRUK_more.

Import LRUK.

Tactic Notation "rsimpl" :=
  cbv beta iota zeta delta
      [current_timestamp_ cur_size_ replacer_size_ k_ frame_cnt_ frame_time_
       evitable_ inf_set_ kth_set_ set_timestamp set_sizes set_cnt set_time
       set_evitable set_inf set_kth cnt_of evitable_of RemoveRecord
       default from_option id mbind option_bind].

Tactic Notation "rsimpl" "in" hyp(H) :=
  cbv beta iota zeta delta
      [current_timestamp_ cur_size_ replacer_size_ k_ frame_cnt_ frame_time_
       evitable_ inf_set_ kth_set_ set_timestamp set_sizes set_cnt set_time
       set_evitable set_inf set_kth cnt_of evitable_of RemoveRecord
       default from_option id mbind option_bind] in H.

(** *** Counting the flags that are set *)

Lemma count_insert_true (m : gmap Z bool) (f : Z) :
  m !! f ≠ Some true →
  flag_count (<[f := true]> m) = S (flag_count m).
Proof.
  intros Hf. unfold flag_count. rewrite map_filter_insert_True by done.
  apply map_size_insert_None. apply map_lookup_filter_None. right.
  intros x Hx. cbn. intros ->. done.
Qed.

Lemma count_delete_true (m : gmap Z bool) (f : Z) :
  m !! f = Some true →
  S (flag_count (delete f m)) = flag_count m.
Proof.
  intros Hf. unfold flag_count. rewrite map_filter_delete.
  rewrite map_size_delete_Some.
  - set (m' := filter _ m). assert (size m' ≠ 0%nat); [|lia].
    intros H0%map_size_empty_iff.
    assert (m' !! f = Some true) as Hx
      by (by apply map_lookup_filter_Some).
    by rewrite H0 in Hx.
  - exists true. by apply map_lookup_filter_Some.
Qed.

Lemma count_delete_other (m : gmap Z bool) (f : Z) :
  m !! f ≠ Some true →
  flag_count (delete f m) = flag_count m.
Proof.
  intros Hf. unfold flag_count.
  rewrite map_filter_delete. apply map_size_delete_None.
  apply map_lookup_filter_None. right. intros x Hx. cbn. intros ->. done.
Qed.

Lemma count_insert_false (m : gmap Z bool) (f : Z) :
  flag_count (<[f := false]> m) = flag_count (delete f m).
Proof. unfold flag_count. by rewrite map_filter_insert_False by done. Qed.

Lemma count_ensure (m : gmap Z bool) (f : Z) :
  flag_count (ensure false f m) = flag_count m.
Proof.
  unfold ensure. destruct (m !! f) eqn:Hf; [done|].
  rewrite count_insert_false. apply count_delete_other. by rewrite Hf.
Qed.

(** *** What each operation does to the records *)

Lemma InsertToSet_fields (r r' : LRUKReplacer) (f : Z) :
  InsertToSet r f = Some r' →
  cur_size_ r' = cur_size_ r ∧ replacer_size_ r' = replacer_size_ r ∧
  frame_time_ r' = frame_time_ r ∧ evitable_ r' = evitable_ r.
Proof.
  unfold InsertToSet. destruct (frame_time_ r !! f); [|done].
  cbn [mbind option_bind]. destruct r. rsimpl.
  by destruct (_ <=? _); intros [= <-].
Qed.

Lemma RemoveFromSet_fields (r r' : LRUKReplacer) (f : Z) :
  RemoveFromSet r f = Some r' →
  cur_size_ r' = cur_size_ r ∧ replacer_size_ r' = replacer_size_ r ∧
  frame_time_ r' = frame_time_ r ∧ evitable_ r' = evitable_ r.
Proof.
  unfold RemoveFromSet. destruct (frame_time_ r !! f); [|done].
  cbn [mbind option_bind]. destruct r. rsimpl.
  by destruct (_ <=? _); intros [= <-].
Qed.

Lemma insert_ensure {A} (d x : A) (f : Z) (m : gmap Z A) :
  <[f := x]> (ensure d f m) = <[f := x]> m.
Proof.
  unfold ensure. destruct (m !! f); [done|]. apply insert_insert_eq.
Qed.

(** [SetEvictable]: nothing for a frame without a record or with the flag
    asked for; else the flag flips and [cur_size_] follows. *)
Lemma SetEvictable_effect (r r' : LRUKReplacer) (f : Z) (b : bool) :
  SetEvictable r f b = Some r' →
  replacer_size_ r' = replacer_size_ r ∧ frame_time_ r' = frame_time_ r ∧
  ((frame_time_ r !! f = None ∧ r' = r) ∨
   (frame_time_ r !! f ≠ None ∧ evitable_of r f = b ∧
    evitable_ r' = ensure false f (evitable_ r) ∧
    cur_size_ r' = cur_size_ r) ∨
   (frame_time_ r !! f ≠ None ∧ evitable_of r f = negb b ∧
    evitable_ r' = <[f := b]> (evitable_ r) ∧
    cur_size_ r' = wrap64 (cur_size_ r + (if b then 1 else -1)))).
Proof.
  unfold SetEvictable. case_bool_decide as Ht.
  - intros [= <-]. split; [done|]. split; [done|]. by left.
  - destruct (eqb (evitable_of r f) b) eqn:Heq.
    + intros [= <-]. destruct r. rsimpl. split; [done|]. split; [done|].
      right. left. rsimpl in Ht. rsimpl in Heq. repeat split; try done.
      by apply eqb_prop.
    + assert (evitable_of r f = negb b) as Hneg.
      { destruct (evitable_of r f), b; done. }
      destruct b.
      * destruct (InsertToSet _ f) as [r1|] eqn:H1; [|done].
        cbn [mbind option_bind]. intros [= <-].
        apply InsertToSet_fields in H1 as (H1 & H2 & H3 & H4).
        destruct r, r1. rsimpl in H1. rsimpl in H2. rsimpl in H3.
        rsimpl in H4. rsimpl in Ht. rsimpl. subst.
        split; [done|]. split; [done|]. right. right.
        repeat split; try done. apply insert_ensure.
      * destruct (RemoveFromSet _ f) as [r1|] eqn:H1; [|done].
        cbn [mbind option_bind]. intros [= <-].
        apply RemoveFromSet_fields in H1 as (H1 & H2 & H3 & H4).
        destruct r, r1. rsimpl in H1. rsimpl in H2. rsimpl in H3.
        rsimpl in H4. rsimpl in Ht. rsimpl. subst.
        split; [done|]. split; [done|]. right. right.
        repeat split; try done. apply insert_ensure.
Qed.

(** [RecordAccess] of a replacer that satisfies its invariant: the flags
    and [cur_size_] stay; a frame without a record gets one if there is
    room. *)
Lemma RecordAccess_effect k n r h f now r' :
  1 ≤ k < 2 ^ 64 → Z.of_nat n + 1 < 2 ^ 64 →
  Inv k n r h → RecordAccess r f now = Some r' →
  cur_size_ r' = cur_size_ r ∧
  match h !! f with
  | Some _ =>
      replacer_size_ r' = replacer_size_ r ∧ evitable_ r' = evitable_ r ∧
      (frame_time_ r' = frame_time_ r ∨
       frame_time_ r' = <[f := now]> (frame_time_ r))
  | None =>
      if replacer_size_ r =? 0 then r' = set_timestamp r now
      else replacer_size_ r' = wrap64 (replacer_size_ r - 1) ∧
           evitable_ r' = <[f := false]> (evitable_ r) ∧
           frame_time_ r' = <[f := now]> (frame_time_ r)
  end.
Proof.
  intros Hk Hn HI HR.
  pose proof (inv_frame _ _ _ _ HI f) as Hf. unfold frame_ok in Hf.
  pose proof (inv_k _ _ _ _ HI) as Hkr.
  destruct r as [ts cs rs kk cnt tm ev inf kth].
  unfold RecordAccess, cnt_of, evitable_of in HR.
  rsimpl in HR. rsimpl in Hf. rsimpl in Hkr. rsimpl. subst kk.
  destruct (h !! f) as [l|] eqn:Eh.
  - destruct Hf as (Hl & Hlen & Hc & Ht & [e He]).
    rewrite Hc in HR.
    rewrite bool_decide_eq_false_2 in HR by done.
    cbn [andb] in HR. rsimpl in HR.
    rewrite (ensure_Some _ _ _ _ Hc) in HR.
    destruct (Z.eqb_spec (Z.of_nat (length l)) 0) as [E0|_].
    { destruct l; [done|]. cbn [length] in E0. lia. }
    rsimpl in HR. rewrite He in HR. rsimpl in HR.
    rewrite (ensure_Some _ _ _ _ He) in HR.
    destruct e; cbn [negb] in HR.
    + unfold access_evictable in HR. rsimpl in HR.
      destruct (_ <? _).
      * injection HR as <-. rsimpl. repeat split; try done. by left.
      * destruct (RemoveFromSet _ f) as [r1|] eqn:H1; [|done].
        rsimpl in HR.
        apply RemoveFromSet_fields in H1 as (H1 & H2 & H3 & H4).
        apply InsertToSet_fields in HR as (H5 & H6 & H7 & H8).
        destruct r1, r'. rsimpl in H1. rsimpl in H2. rsimpl in H3.
        rsimpl in H4. rsimpl in H5. rsimpl in H6. rsimpl in H7.
        rsimpl in H8. rsimpl. subst.
        repeat split; try done. by right.
    + injection HR as <-. unfold access_not_evictable. rsimpl.
      destruct (k <=? _); rsimpl; repeat split; try done; [by right|by left].
  - destruct Hf as (Hc & Ht & He).
    rewrite Hc in HR.
    rewrite bool_decide_eq_true_2 in HR by done.
    cbn [andb] in HR.
    destruct (rs =? 0).
    + by injection HR as <-.
    + rsimpl in HR. unfold ensure in HR. rewrite Hc in HR.
      change (0 =? 0) with true in HR. cbv iota in HR.
      unfold first_access in HR. rsimpl in HR.
      rewrite lookup_insert_eq in HR. rsimpl in HR. cbn [negb] in HR.
      injection HR as <-. unfold access_not_evictable. rsimpl.
      destruct (k <=? _); rsimpl; repeat split; try done.
      by rewrite insert_insert_eq.
Qed.

(** [Evict] of a replacer that satisfies its invariant: the victim was
    flagged evictable and had a record, which is erased. *)
Lemma Evict_effect k n r h :
  Inv k n r h →
  match Evict r with
  | (Some f, r') =>
      evitable_ r !! f = Some true ∧ is_Some (frame_time_ r !! f) ∧
      cur_size_ r' = wrap64 (cur_size_ r - 1) ∧
      replacer_size_ r' = wrap64 (replacer_size_ r + 1) ∧
      frame_cnt_ r' = delete f (frame_cnt_ r) ∧
      frame_time_ r' = delete f (frame_time_ r) ∧
      evitable_ r' = delete f (evitable_ r)
  | (None, r') => r' = r ∧ inf_set_ r = [] ∧ kth_set_ r = []
  end.
Proof.
  intros HI.
  assert (Hhead : ∀ it, it ∈ inf_set_ r ∨ it ∈ kth_set_ r →
            evitable_ r !! id_ it = Some true ∧
            is_Some (frame_time_ r !! id_ it)).
  { intros it [Hin|Hin];
      [apply (inv_inf _ _ _ _ HI) in Hin|apply (inv_kth _ _ _ _ HI) in Hin];
      destruct Hin as (? & _ & ? & ? & _); by eauto. }
  destruct r as [ts cs rs kk cnt tm ev inf kth].
  unfold Evict, EvitFromSet. rsimpl. rsimpl in Hhead.
  destruct inf as [|it inf].
  - destruct kth as [|it kth]; [done|]. rsimpl.
    destruct (Hhead it) as [? ?]; [right; by left|]. done.
  - rsimpl. destruct (Hhead it) as [? ?]; [left; by left|]. done.
Qed.

(** [Remove] of a replacer that satisfies its invariant. *)
Lemma Remove_effect k n r h f r' :
  Inv k n r h → Remove r f = Some r' →
  (frame_time_ r !! f = None ∧ r' = r) ∨
  (evitable_ r !! f = Some true ∧ is_Some (frame_time_ r !! f) ∧
   cur_size_ r' = wrap64 (cur_size_ r - 1) ∧
   replacer_size_ r' = wrap64 (replacer_size_ r + 1) ∧
   frame_cnt_ r' = delete f (frame_cnt_ r) ∧
   frame_time_ r' = delete f (frame_time_ r) ∧
   evitable_ r' = delete f (evitable_ r)).
Proof.
  intros HI HR.
  pose proof (inv_frame _ _ _ _ HI f) as Hf. unfold frame_ok in Hf.
  pose proof (inv_k _ _ _ _ HI) as Hkr.
  destruct r as [ts cs rs kk cnt tm ev inf kth].
  unfold Remove, evitable_of in HR.
  rsimpl in HR. rsimpl in Hf. rsimpl in Hkr. rsimpl. subst kk.
  destruct (h !! f) as [l|] eqn:Eh.
  - destruct Hf as (Hl & Hlen & Hc & Ht & [e He]).
    destruct (tracked_time_Some k l Hl) as [t0 Ht0]. rewrite Ht0 in Ht.
    rewrite bool_decide_eq_false_2 in HR by (by rewrite Ht).
    rewrite He, (ensure_Some _ _ _ _ He) in HR. rsimpl in HR.
    destruct e; [|done]. cbn [negb] in HR.
    erewrite RemoveFromSet_eq in HR by (rsimpl; done). rsimpl in HR.
    right. rewrite Ht.
    destruct (k <=? _); rsimpl in HR; injection HR as <-; rsimpl;
      repeat split; try done; by eexists.
  - destruct Hf as (Hc & Ht & He).
    rewrite bool_decide_eq_true_2 in HR by done. injection HR as <-.
    by left.
Qed.

(** [Remove] stops at its assertion only for a frame that has a record
    and is not evictable. *)
Lemma Remove_returns k n r h f :
  Inv k n r h → evitable_ r !! f ≠ Some false → is_Some (Remove r f).
Proof.
  intros HI Hflag.
  pose proof (inv_frame _ _ _ _ HI f) as Hf. unfold frame_ok in Hf.
  destruct (h !! f) as [l|] eqn:Eh.
  - destruct Hf as (Hl & _ & Hc & Htm & [e He]).
    destruct (tracked_time_Some k l Hl) as [t0 Ht0]. rewrite Ht0 in Htm.
    destruct e; [|done].
    unfold Remove, evitable_of.
    rewrite bool_decide_eq_false_2 by (by rewrite Htm).
    rewrite He. cbn [default from_option id negb].
    rewrite (ensure_Some _ _ _ _ He).
    assert (set_evitable r (evitable_ r) = r) as -> by (by destruct r).
    erewrite RemoveFromSet_eq by done. by eexists.
  - destruct Hf as (_ & Htm & _).
    unfold Remove. rewrite bool_decide_eq_true_2 by done. by eexists.
Qed.

(** With both sets empty no flag is set. *)
Lemma no_candidate_count k n r h :
  Inv k n r h → inf_set_ r = [] → kth_set_ r = [] → evictable_count r = 0%nat.
Proof.
  intros HI Hinf Hkth. unfold evictable_count, flag_count.
  apply map_size_empty_iff, map_empty. intros f.
  apply map_lookup_filter_None.
  destruct (evitable_ r !! f) as [e|] eqn:He; [right|by left].
  intros x [= <-]. cbn. intros ->.
  pose proof (inv_frame _ _ _ _ HI f) as Hf. unfold frame_ok in Hf.
  destruct (h !! f) as [l|] eqn:Eh.
  - destruct Hf as (Hl & Hlen & Hc & Ht & _).
    destruct (tracked_time_Some k l Hl) as [t0 Ht0]. rewrite Ht0 in Ht.
    destruct (Z.ltb_spec (Z.of_nat (length l)) k) as [Hlt|Hge].
    + assert (mkNode f t0 ∈ inf_set_ r) as Hin.
      { apply (inv_inf _ _ _ _ HI). by exists l. }
      rewrite Hinf in Hin. by apply elem_of_nil in Hin.
    + assert (mkNode f t0 ∈ kth_set_ r) as Hin.
      { apply (inv_kth _ _ _ _ HI). by exists l. }
      rewrite Hkth in Hin. by apply elem_of_nil in Hin.
  - destruct Hf as (_ & _ & He'). by rewrite He' in He.
Qed.

(** *** The accounting along a run *)

Lemma wrap64_id (z : Z) : 0 ≤ z < 2 ^ 64 → wrap64 z = z.
Proof. intros. by apply Z.mod_small. Qed.

Lemma RecordAccess_Acct k nf n r h f now r' :
  1 ≤ k < 2 ^ 64 → 0 ≤ nf < 2 ^ 64 → Z.of_nat n + 1 < 2 ^ 64 →
  Inv k n r h → Acct nf n r → RecordAccess r f now = Some r' →
  Acct nf (S n) r'.
Proof.
  intros Hk Hnf Hn HI (Hcur & Hle & Hcap & Hrs) HR.
  pose proof (inv_frame _ _ _ _ HI f) as Hf. unfold frame_ok in Hf.
  destruct (RecordAccess_effect _ _ _ _ _ _ _ Hk Hn HI HR) as [Hc Heff].
  unfold Acct, evictable_count, tracked_count in *.
  destruct (h !! f) as [l|].
  - destruct Heff as (Hr & He & Ht). destruct Hf as (Hl & _ & _ & Htm & _).
    destruct (tracked_time_Some k l Hl) as [t0 Ht0]. rewrite Ht0 in Htm.
    rewrite Hc, Hr, He.
    assert (size (frame_time_ r') = size (frame_time_ r)) as ->.
    { destruct Ht as [->| ->]; [done|]. by apply map_size_insert_Some. }
    repeat split; try done. lia.
  - destruct Hf as (_ & Htm & He).
    destruct (Z.eqb_spec (replacer_size_ r) 0) as [H0|H0].
    + subst r'. destruct r. rsimpl. rsimpl in Hcur. rsimpl in Hle.
      repeat split; try done. lia.
    + destruct Heff as (Hr & He' & Ht).
      rewrite Hc, Hr, He', Ht, count_insert_false.
      rewrite count_delete_other by (by rewrite He).
      rewrite map_size_insert_None by done.
      rewrite wrap64_id by lia.
      repeat split; try done; lia.
Qed.

Lemma SetEvictable_Acct nf n r f b r' :
  Z.of_nat n + 1 < 2 ^ 64 →
  Acct nf n r → SetEvictable r f b = Some r' → Acct nf (S n) r'.
Proof.
  intros Hn (Hcur & Hle & Hcap & Hrs) HR.
  destruct (SetEvictable_effect _ _ _ _ HR) as (Hr & Ht & Hcase).
  unfold Acct, evictable_count, tracked_count, evitable_of in *.
  rewrite Hr, Ht.
  destruct Hcase as [[_ ->]|[(_ & _ & -> & ->)|(_ & Hev & -> & ->)]].
  - repeat split; try done. lia.
  - rewrite count_ensure. repeat split; try done. lia.
  - destruct b; cbn [negb] in Hev.
    + rewrite count_insert_true.
      2:{ destruct (evitable_ r !! f) as [[]|]; done. }
      rewrite wrap64_id by lia. repeat split; try done; lia.
    + assert (evitable_ r !! f = Some true) as He.
      { destruct (evitable_ r !! f) as [[]|]; done. }
      rewrite count_insert_false.
      pose proof (count_delete_true _ _ He) as Hd.
      rewrite wrap64_id by lia. repeat split; try done; lia.
Qed.

Lemma forget_Acct nf n r r' f :
  0 ≤ nf < 2 ^ 64 → Z.of_nat n + 1 < 2 ^ 64 → Acct nf n r →
  evitable_ r !! f = Some true → is_Some (frame_time_ r !! f) →
  cur_size_ r' = wrap64 (cur_size_ r - 1) →
  replacer_size_ r' = wrap64 (replacer_size_ r + 1) →
  frame_time_ r' = delete f (frame_time_ r) →
  evitable_ r' = delete f (evitable_ r) →
  Acct nf n r'.
Proof.
  intros Hnf Hn (Hcur & Hle & Hcap & Hrs) He Hs Hc Hr Ht Hev.
  unfold Acct, evictable_count, tracked_count in *.
  rewrite Hc, Hr, Ht, Hev.
  pose proof (count_delete_true _ _ He) as Hd.
  rewrite map_size_delete_Some by done.
  assert (size (frame_time_ r) ≠ 0%nat) as Hne.
  { intros H0%map_size_empty_iff. rewrite H0 in Hs.
    destruct Hs as [? Hs]. by rewrite lookup_empty in Hs. }
  rewrite !wrap64_id by lia. repeat split; try done; lia.
Qed.

Lemma Acct_mono nf n n' r : Acct nf n r → (n ≤ n')%nat → Acct nf n' r.
Proof. intros (? & ? & ? & ?) ?. repeat split; try done. lia. Qed.

Lemma step_Acct k nf n s op s' :
  1 ≤ k < 2 ^ 64 → 0 ≤ nf < 2 ^ 64 → Z.of_nat n + 1 < 2 ^ 64 →
  Inv k n s.1 s.2 → Acct nf n s.1 → step s op = Some s' →
  Acct nf (S n) s'.1.
Proof.
  intros Hk Hnf Hn HI HA Hst. destruct s as [r h]. cbn [fst snd] in *.
  destruct op as [f now|f b| |f]; cbn [step] in Hst.
  - destruct (RecordAccess r f now) as [r1|] eqn:HR; [|done].
    cbn [mbind option_bind] in Hst.
    pose proof (RecordAccess_Acct _ _ _ _ _ _ _ _ Hk Hnf Hn HI HA HR).
    destruct (bool_decide _ && _); by injection Hst as <-.
  - destruct (SetEvictable r f b) as [r1|] eqn:HR; [|done].
    injection Hst as <-. by eapply SetEvictable_Acct.
  - pose proof (Evict_effect _ _ _ _ HI) as Heff.
    destruct (Evict r) as [[f|] r1]; injection Hst as <-; cbn [fst].
    + destruct Heff as (? & ? & ? & ? & ? & ? & ?).
      eapply Acct_mono; [by eapply (forget_Acct nf n r r1 f)|lia].
    + destruct Heff as (-> & _). eapply Acct_mono; [done|lia].
  - destruct (Remove r f) as [r1|] eqn:HR; [|done].
    injection Hst as <-. cbn [fst].
    destruct (Remove_effect _ _ _ _ _ _ HI HR)
      as [[_ ->]|(? & ? & ? & ? & ? & ? & ?)].
    + eapply Acct_mono; [done|lia].
    + eapply Acct_mono; [by eapply (forget_Acct nf n r r1 f)|lia].
Qed.

Lemma new_Acct nf k : 0 ≤ nf → Acct nf 0 (new nf k).
Proof.
  intros Hnf. unfold Acct, evictable_count, flag_count, tracked_count, new.
  rsimpl. rewrite map_filter_empty, !map_size_empty. repeat split; done.
Qed.

(** The invariant and the accounting hold after every run from a new
    replacer. *)
Lemma run_Inv_Acct k nf n s ops s' :
  1 ≤ k < 2 ^ 64 → 0 ≤ nf < 2 ^ 64 → Z.of_nat (n + length ops) < 2 ^ 64 →
  Inv k n s.1 s.2 → Acct nf n s.1 → run s ops = Some s' →
  Inv k (n + length ops) s'.1 s'.2 ∧ Acct nf (n + length ops) s'.1.
Proof.
  intros Hk Hnf. unfold run. revert n s.
  induction ops as [|op ops IH]; intros n s Hn HI HA Hrun;
    cbn [foldl] in Hrun.
  - injection Hrun as <-. by rewrite Nat.add_0_r.
  - cbn [length] in *. cbn [mbind option_bind] in Hrun.
    destruct (step s op) as [s1|] eqn:Hs.
    + replace (n + S (length ops))%nat with (S n + length ops)%nat by lia.
      apply (IH (S n) s1); [lia| | |done].
      * eapply step_Inv; [done| |done|done]. lia.
      * eapply step_Acct; [done|done| |done|done|done]. lia.
    + exfalso. clear -Hrun. induction ops as [|o ops IH]; [done|].
      by apply IH.
Qed.

Lemma reached_Inv_Acct k nf ops r h :
  1 ≤ k < 2 ^ 64 → 0 ≤ nf < 2 ^ 64 → Z.of_nat (length ops) < 2 ^ 64 →
  run (new nf k, ∅) ops = Some (r, h) →
  Inv k (length ops) r h ∧ Acct nf (length ops) r.
Proof.
  intros Hk Hnf Hn Hrun.
  apply (run_Inv_Acct k nf 0 (new nf k, ∅) ops (r, h)); try done.
  - apply new_Inv.
  - apply new_Acct. lia.
Qed.

Lemma flag_count_pos (m : gmap Z bool) (f : Z) :
  m !! f = Some true → (1 ≤ flag_count m)%nat.
Proof. intros Hf. pose proof (count_delete_true _ _ Hf). lia. Qed.

(** A frame is flagged evictable exactly when it has a node in one of the
    two sets. *)
Lemma flagged_iff_node k n r h f :
  Inv k n r h →
  evitable_ r !! f = Some true ↔
  ∃ nd, id_ nd = f ∧ (nd ∈ inf_set_ r ∨ nd ∈ kth_set_ r).
Proof.
  intros HI. split.
  - intros He.
    pose proof (inv_frame _ _ _ _ HI f) as Hf. unfold frame_ok in Hf.
    destruct (h !! f) as [l|] eqn:Eh.
    + destruct Hf as (Hl & Hlen & Hc & Ht & _).
      destruct (tracked_time_Some k l Hl) as [t0 Ht0]. rewrite Ht0 in Ht.
      exists (mkNode f t0). split; [done|].
      destruct (Z.ltb_spec (Z.of_nat (length l)) k) as [Hlt|Hge].
      * left. apply (inv_inf _ _ _ _ HI). by exists l.
      * right. apply (inv_kth _ _ _ _ HI). by exists l.
    + destruct Hf as (_ & _ & He'). by rewrite He' in He.
  - intros (nd & <- & [Hin|Hin]);
      [apply (inv_inf _ _ _ _ HI) in Hin|apply (inv_kth _ _ _ _ HI) in Hin];
      by destruct Hin as (? & _ & ? & _).
Qed.

(** X7: [Size]. After every run of calls on a new replacer, [Size] is the
    number of frames whose evictable flag is set, and a frame has its flag
    set exactly when one of the two sets holds a node for it. *)
Theorem Size_counts_evictable_frames
    (k num_frames : Z) (ops : list Op) (r : LRUKReplacer) (h : History) :
  1 ≤ k < 2 ^ 64 → 0 ≤ num_frames < 2 ^ 64 →
  Z.of_nat (length ops) < 2 ^ 64 →
  run (new num_frames k, ∅) ops = Some (r, h) →
  Size r = Z.of_nat (evictable_count r) ∧
  ∀ f, evitable_ r !! f = Some true ↔
       ∃ nd, id_ nd = f ∧ (nd ∈ inf_set_ r ∨ nd ∈ kth_set_ r).
Proof.
  intros Hk Hnf Hn Hrun.
  destruct (reached_Inv_Acct _ _ _ _ _ Hk Hnf Hn Hrun) as [HI (Hcur & _)].
  split; [done|]. intros f. by eapply flagged_iff_node.
Qed.

Lemma untracked_no_count k n r h f :
  Inv k n r h → frame_time_ r !! f = None →
  h !! f = None ∧ frame_cnt_ r !! f = None ∧ evitable_ r !! f = None.
Proof.
  intros HI Ht.
  pose proof (inv_frame _ _ _ _ HI f) as Hf. unfold frame_ok in Hf.
  destruct (h !! f) as [l|]; [|by destruct Hf as (? & ? & ?)].
  destruct Hf as (Hl & _ & _ & Htm & _).
  destruct (tracked_time_Some k l Hl) as [t0 Ht0]. congruence.
Qed.

(** X8: the capacity. After every run of calls on a replacer made for
    [num_frames] frames, the number of frames with a record and the room
    left add up to [num_frames], so at most [num_frames] frames have a
    record. [RecordAccess] of a frame without a record gives it one when
    room is left, and changes nothing but the clock value when the replacer
    is full. *)
Theorem tracked_frames_bounded
    (k num_frames : Z) (ops : list Op) (r : LRUKReplacer) (h : History) :
  1 ≤ k < 2 ^ 64 → 0 ≤ num_frames < 2 ^ 64 →
  Z.of_nat (length ops) + 1 < 2 ^ 64 →
  run (new num_frames k, ∅) ops = Some (r, h) →
  Z.of_nat (tracked_count r) + replacer_size_ r = num_frames ∧
  Z.of_nat (tracked_count r) ≤ num_frames ∧
  ∀ f now, frame_time_ r !! f = None →
    ∃ r', RecordAccess r f now = Some r' ∧
          if Z.of_nat (tracked_count r) =? num_frames
          then r' = set_timestamp r now
          else frame_time_ r' !! f = Some now ∧
               tracked_count r' = S (tracked_count r).
Proof.
  intros Hk Hnf Hn Hrun.
  destruct (reached_Inv_Acct k num_frames ops r h Hk Hnf ltac:(lia) Hrun)
    as [HI (Hcur & Hle & Hcap & Hrs)].
  split; [done|]. split; [lia|]. intros f now Ht.
  destruct (untracked_no_count _ _ _ _ _ HI Ht) as (Hh & Hc & He).
  destruct (RecordAccess_total k _ r h f now Hk Hn HI) as [r' HR].
  exists r'. split; [done|].
  destruct (RecordAccess_effect _ _ _ _ _ _ _ Hk Hn HI HR) as [_ Heff].
  rewrite Hh in Heff.
  destruct (Z.eqb_spec (replacer_size_ r) 0) as [H0|H0];
    destruct (Z.eqb_spec (Z.of_nat (tracked_count r)) num_frames); try lia.
  - done.
  - destruct Heff as (_ & _ & Htm). unfold tracked_count. rewrite Htm.
    split; [apply lookup_insert_eq|]. by apply map_size_insert_None.
Qed.

(** X9: [RecordAccess] and the flags. After every run of calls on a new
    replacer, [RecordAccess] returns, and it neither sets nor clears the
    evictable flag of any frame, and leaves [Size] as it was. *)
Theorem RecordAccess_keeps_evictability
    (k num_frames : Z) (ops : list Op) (r : LRUKReplacer) (h : History)
    (f now : Z) :
  1 ≤ k < 2 ^ 64 → 0 ≤ num_frames < 2 ^ 64 →
  Z.of_nat (length ops) + 1 < 2 ^ 64 →
  run (new num_frames k, ∅) ops = Some (r, h) →
  ∃ r', RecordAccess r f now = Some r' ∧ Size r' = Size r ∧
        ∀ g, evitable_ r' !! g = Some true ↔ evitable_ r !! g = Some true.
Proof.
  intros Hk Hnf Hn Hrun.
  destruct (reached_Inv_Acct k num_frames ops r h Hk Hnf ltac:(lia) Hrun) as [HI _].
  destruct (RecordAccess_total k _ r h f now Hk Hn HI) as [r' HR].
  exists r'. split; [done|].
  destruct (RecordAccess_effect _ _ _ _ _ _ _ Hk Hn HI HR) as [Hc Heff].
  split; [done|]. intros g.
  pose proof (inv_frame _ _ _ _ HI f) as Hf. unfold frame_ok in Hf.
  destruct (h !! f) as [l|].
  - destruct Heff as (_ & -> & _). done.
  - destruct Hf as (_ & _ & He).
    destruct (replacer_size_ r =? 0); [by subst r'; destruct r|].
    destruct Heff as (_ & -> & _).
    destruct (decide (g = f)) as [->|Hne].
    + rewrite lookup_insert_eq, He. done.
    + by rewrite lookup_insert_ne.
Qed.

Lemma SetEvictable_again (r r' : LRUKReplacer) (f : Z) (b : bool) :
  SetEvictable r f b = Some r' → SetEvictable r' f b = Some r'.
Proof.
  intros HR.
  destruct (SetEvictable_effect _ _ _ _ HR) as (_ & Ht & Hcase).
  assert (frame_time_ r !! f ≠ None → evitable_ r' !! f = Some b) as Hflag.
  { intros Hne. by eapply SetEvictable_flag. }
  destruct Hcase as [[_ ->]|Hcase]; [done|].
  assert (frame_time_ r !! f ≠ None) as Hne by (by destruct Hcase as [[? _]|[? _]]).
  specialize (Hflag Hne). clear Hcase HR.
  unfold SetEvictable, evitable_of. rewrite Ht.
  rewrite bool_decide_eq_false_2 by done.
  rewrite Hflag. cbn [default from_option id]. rewrite eqb_reflx.
  rewrite (ensure_Some _ _ _ _ Hflag). by destruct r'.
Qed.

(** X10: [SetEvictable]. After every run of calls on a new replacer,
    [SetEvictable] returns; a second call with the same arguments changes
    nothing; a frame without a record is left alone; for a frame with a
    record the flag takes the value asked for and [Size] goes up or down by
    one exactly when the flag changes; no other flag is touched. *)
Theorem SetEvictable_adjusts_Size
    (k num_frames : Z) (ops : list Op) (r : LRUKReplacer) (h : History)
    (f : Z) (b : bool) :
  1 ≤ k < 2 ^ 64 → 0 ≤ num_frames < 2 ^ 64 →
  Z.of_nat (length ops) + 1 < 2 ^ 64 →
  run (new num_frames k, ∅) ops = Some (r, h) →
  ∃ r', SetEvictable r f b = Some r' ∧ SetEvictable r' f b = Some r' ∧
        match evitable_ r !! f with
        | None => r' = r
        | Some e =>
            evitable_ r' !! f = Some b ∧
            Size r' = Size r + Z.b2z b - Z.b2z e
        end ∧
        ∀ g, g ≠ f → evitable_ r' !! g = evitable_ r !! g.
Proof.
  intros Hk Hnf Hn Hrun.
  destruct (reached_Inv_Acct k num_frames ops r h Hk Hnf ltac:(lia) Hrun)
    as [HI (Hcur & Hle & Hcap & Hrs)].
  destruct (SetEvictable_total r f b) as [r' HR].
  exists r'. split; [done|]. split; [by eapply SetEvictable_again|].
  destruct (SetEvictable_effect _ _ _ _ HR) as (_ & Ht & Hcase).
  pose proof (inv_frame _ _ _ _ HI f) as Hf. unfold frame_ok in Hf.
  unfold Size, evictable_count, evitable_of in *.
  destruct (h !! f) as [l|].
  - destruct Hf as (Hl & _ & _ & Htm & [e He]).
    destruct (tracked_time_Some k l Hl) as [t0 Ht0]. rewrite Ht0 in Htm.
    rewrite He in Hcase |- *. cbn [default from_option id] in Hcase.
    destruct Hcase as [[Hno _]|[(_ & -> & Hev & Hc)|(_ & -> & Hev & Hc)]].
    + congruence.
    + rewrite (ensure_Some _ _ _ _ He) in Hev. rewrite Hev, Hc.
      split; [split; [done|destruct b; cbn [Z.b2z]; lia]|done].
    + rewrite Hev, Hc. split.
      * split; [apply lookup_insert_eq|].
        pose proof (flag_count_pos (evitable_ r) f) as Hpos.
        destruct b; cbn [negb Z.b2z] in *.
        -- rewrite wrap64_id by lia. lia.
        -- specialize (Hpos He). rewrite wrap64_id by lia. lia.
      * intros g Hne. by rewrite lookup_insert_ne.
  - destruct Hf as (_ & Htm & He). rewrite He.
    destruct Hcase as [[_ ->]|[(Hno & _)|(Hno & _)]]; done.
Qed.

(** X11: [Evict]. After every run of calls on a new replacer, [Evict]
    finds no victim exactly when [Size] is 0, and then changes nothing; a
    victim had its evictable flag set, and afterwards the replacer has no
    record and no node of it, [Size] is one less, the room for new frames
    one more, and the records of the other frames are as before. *)
Theorem Evict_erases_victim
    (k num_frames : Z) (ops : list Op) (r : LRUKReplacer) (h : History) :
  1 ≤ k < 2 ^ 64 → 0 ≤ num_frames < 2 ^ 64 →
  Z.of_nat (length ops) + 1 < 2 ^ 64 →
  run (new num_frames k, ∅) ops = Some (r, h) →
  (Size r = 0 ↔ (Evict r).1 = None) ∧
  match Evict r with
  | (Some f, r') =>
      evitable_ r !! f = Some true ∧
      frame_cnt_ r' !! f = None ∧ frame_time_ r' !! f = None ∧
      evitable_ r' !! f = None ∧
      (∀ nd, nd ∈ inf_set_ r' ∨ nd ∈ kth_set_ r' → id_ nd ≠ f) ∧
      Size r' = Size r - 1 ∧ replacer_size_ r' = replacer_size_ r + 1 ∧
      ∀ g, g ≠ f →
        frame_cnt_ r' !! g = frame_cnt_ r !! g ∧
        frame_time_ r' !! g = frame_time_ r !! g ∧
        evitable_ r' !! g = evitable_ r !! g
  | (None, r') => r' = r
  end.
Proof.
  intros Hk Hnf Hn Hrun.
  destruct (reached_Inv_Acct k num_frames ops r h Hk Hnf ltac:(lia) Hrun)
    as [HI (Hcur & Hle & Hcap & Hrs)].
  pose proof (Evict_effect _ _ _ _ HI) as Heff.
  pose proof (Evict_Inv _ _ _ _ HI) as HI'.
  unfold Size, evictable_count, tracked_count in *.
  destruct (Evict r) as [[f|] r'] eqn:HE; cbn [fst snd] in *.
  - destruct Heff as (He & Hs & Hc & Hr & Hcn & Htm & Hev).
    pose proof (flag_count_pos _ _ He) as Hpos.
    assert (size (frame_time_ r) ≠ 0%nat) as Hne.
    { intros H0%map_size_empty_iff. rewrite H0 in Hs.
      destruct Hs as [? Hs]. by rewrite lookup_empty in Hs. }
    split; [split; [lia|done]|].
    rewrite Hc, Hr, Hcn, Htm, Hev, !lookup_delete_eq.
    rewrite !wrap64_id by lia.
    repeat split; try done.
    + intros nd [Hin|Hin] <-;
        [apply (inv_inf _ _ _ _ HI') in Hin
        |apply (inv_kth _ _ _ _ HI') in Hin];
        destruct Hin as (l & Hl & _); by rewrite lookup_delete_eq in Hl.
    + by rewrite lookup_delete_ne.
    + by rewrite lookup_delete_ne.
    + by rewrite lookup_delete_ne.
  - destruct Heff as (-> & Hinf & Hkth).
    split; [|done]. split; [done|]. intros _.
    pose proof (no_candidate_count _ _ _ _ HI Hinf Hkth) as Hz.
    unfold evictable_count in Hz. by rewrite Hcur, Hz.
Qed.

(** X12: [Remove]. After every run of calls on a new replacer: a frame
    without a record is left alone; removing a frame that has a record and
    is not evictable stops at the assertion; for an evictable frame the
    record and the node are erased, [Size] is one less and the room for new
    frames one more. *)
Theorem Remove_erases_record
    (k num_frames : Z) (ops : list Op) (r : LRUKReplacer) (h : History)
    (f : Z) :
  1 ≤ k < 2 ^ 64 → 0 ≤ num_frames < 2 ^ 64 →
  Z.of_nat (length ops) + 1 < 2 ^ 64 →
  run (new num_frames k, ∅) ops = Some (r, h) →
  match evitable_ r !! f with
  | None => Remove r f = Some r
  | Some false => Remove r f = None
  | Some true =>
      ∃ r', Remove r f = Some r' ∧
            frame_cnt_ r' !! f = None ∧ frame_time_ r' !! f = None ∧
            evitable_ r' !! f = None ∧
            (∀ nd, nd ∈ inf_set_ r' ∨ nd ∈ kth_set_ r' → id_ nd ≠ f) ∧
            Size r' = Size r - 1 ∧
            replacer_size_ r' = replacer_size_ r + 1
  end.
Proof.
  intros Hk Hnf Hn Hrun.
  destruct (reached_Inv_Acct k num_frames ops r h Hk Hnf ltac:(lia) Hrun)
    as [HI (Hcur & Hle & Hcap & Hrs)].
  pose proof (inv_frame _ _ _ _ HI f) as Hf. unfold frame_ok in Hf.
  destruct (h !! f) as [l|] eqn:Eh.
  - destruct Hf as (Hl & _ & Hc & Htm & [e He]).
    destruct (tracked_time_Some k l Hl) as [t0 Ht0]. rewrite Ht0 in Htm.
    rewrite He.
    assert (Hrem : Remove r f
      = if e then r1 ← RemoveFromSet r f; Some (RemoveRecord r1 f) else None).
    { unfold Remove, evitable_of.
      rewrite bool_decide_eq_false_2 by (by rewrite Htm).
      rewrite He. cbn [default from_option id].
      rewrite (ensure_Some _ _ _ _ He).
      destruct e; cbn [negb]; [|done]. by destruct r. }
    destruct e; [|done].
    destruct (Remove r f) as [r'|] eqn:HR.
    2:{ exfalso. erewrite RemoveFromSet_eq in Hrem by done. done. }
    exists r'. split; [done|].
    pose proof (Remove_Inv _ _ _ _ _ _ HI HR) as HI'.
    destruct (Remove_effect _ _ _ _ _ _ HI HR)
      as [[Hno _]|(_ & Hs & Hcs & Hr & Hcn & Htm' & Hev)]; [congruence|].
    pose proof (flag_count_pos _ _ He) as Hpos.
    assert (size (frame_time_ r) ≠ 0%nat) as Hne.
    { intros H0%map_size_empty_iff. rewrite H0 in Hs.
      destruct Hs as [? Hs]. by rewrite lookup_empty in Hs. }
    unfold Size, evictable_count, tracked_count in *.
    rewrite Hcs, Hr, Hcn, Htm', Hev, !lookup_delete_eq.
    rewrite !wrap64_id by lia.
    repeat split; try done.
    intros nd [Hin|Hin] <-;
      [apply (inv_inf _ _ _ _ HI') in Hin
      |apply (inv_kth _ _ _ _ HI') in Hin];
      destruct Hin as (l0 & Hl0 & _); by rewrite lookup_delete_eq in Hl0.
  - destruct Hf as (_ & Htm & He). rewrite He.
    unfold Remove. by rewrite bool_decide_eq_true_2.
Qed.

End LRUK_more.

Section LRUK_more_witnesses.

Import LRUK.

Lemma Size_counts_evictable_frames_witness :
  run (new 3 2, ∅) lruk_abba = Some (lruk_abba_replacer, lruk_abba_history) ∧
  evictable_count lruk_abba_replacer = 2%nat ∧
  Size lruk_abba_replacer = Z.of_nat (evictable_count lruk_abba_replacer) ∧
  ∀ f, evitable_ lruk_abba_replacer !! f = Some true ↔
       ∃ nd, id_ nd = f ∧ (nd ∈ inf_set_ lruk_abba_replacer ∨
                           nd ∈ kth_set_ lruk_abba_replacer).
Proof.
  split; [vm_compute; reflexivity|]. split; [vm_compute; reflexivity|].
  apply (Size_counts_evictable_frames 2 3 lruk_abba lruk_abba_replacer
           lruk_abba_history).
  - lia.
  - lia.
  - vm_compute. reflexivity.
  - vm_compute. reflexivity.
Defined.

Lemma tracked_frames_bounded_witness :
  run (new 3 2, ∅) lruk_abba = Some (lruk_abba_replacer, lruk_abba_history) ∧
  tracked_count lruk_abba_replacer = 2%nat ∧
  Z.of_nat (tracked_count lruk_abba_replacer)
  + replacer_size_ lruk_abba_replacer = 3 ∧
  Z.of_nat (tracked_count lruk_abba_replacer) ≤ 3 ∧
  ∀ f now, frame_time_ lruk_abba_replacer !! f = None →
    ∃ r', RecordAccess lruk_abba_replacer f now = Some r' ∧
          if Z.of_nat (tracked_count lruk_abba_replacer) =? 3
          then r' = set_timestamp lruk_abba_replacer now
          else frame_time_ r' !! f = Some now ∧
               tracked_count r' = S (tracked_count lruk_abba_replacer).
Proof.
  split; [vm_compute; reflexivity|]. split; [vm_compute; reflexivity|].
  apply (tracked_frames_bounded 2 3 lruk_abba lruk_abba_replacer
           lruk_abba_history).
  - lia.
  - lia.
  - vm_compute. reflexivity.
  - vm_compute. reflexivity.
Defined.

Lemma RecordAccess_keeps_evictability_witness :
  run (new 3 2, ∅) lruk_abba = Some (lruk_abba_replacer, lruk_abba_history) ∧
  ∃ r', RecordAccess lruk_abba_replacer 0 5 = Some r' ∧
        Size r' = Size lruk_abba_replacer ∧
        ∀ g, evitable_ r' !! g = Some true ↔
             evitable_ lruk_abba_replacer !! g = Some true.
Proof.
  split; [vm_compute; reflexivity|].
  apply (RecordAccess_keeps_evictability 2 3 lruk_abba lruk_abba_replacer
           lruk_abba_history 0 5).
  - lia.
  - lia.
  - vm_compute. reflexivity.
  - vm_compute. reflexivity.
Defined.

Lemma SetEvictable_adjusts_Size_witness :
  run (new 3 2, ∅) lruk_abba = Some (lruk_abba_replacer, lruk_abba_history) ∧
  evitable_ lruk_abba_replacer !! 0 = Some true ∧
  ∃ r', SetEvictable lruk_abba_replacer 0 false = Some r' ∧
        SetEvictable r' 0 false = Some r' ∧
        (evitable_ r' !! 0 = Some false ∧
         Size r' = Size lruk_abba_replacer + 0 - 1) ∧
        ∀ g, g ≠ 0 → evitable_ r' !! g = evitable_ lruk_abba_replacer !! g.
Proof.
  split; [vm_compute; reflexivity|]. split; [vm_compute; reflexivity|].
  apply (SetEvictable_adjusts_Size 2 3 lruk_abba lruk_abba_replacer
           lruk_abba_history 0 false).
  - lia.
  - lia.
  - vm_compute. reflexivity.
  - vm_compute. reflexivity.
Defined.

Lemma Evict_erases_victim_witness :
  run (new 3 2, ∅) lruk_abba = Some (lruk_abba_replacer, lruk_abba_history) ∧
  (Evict lruk_abba_replacer).1 = Some 1 ∧
  (Size lruk_abba_replacer = 0 ↔ (Evict lruk_abba_replacer).1 = None) ∧
  match Evict lruk_abba_replacer with
  | (Some f, r') =>
      evitable_ lruk_abba_replacer !! f = Some true ∧
      frame_cnt_ r' !! f = None ∧ frame_time_ r' !! f = None ∧
      evitable_ r' !! f = None ∧
      (∀ nd, nd ∈ inf_set_ r' ∨ nd ∈ kth_set_ r' → id_ nd ≠ f) ∧
      Size r' = Size lruk_abba_replacer - 1 ∧
      replacer_size_ r' = replacer_size_ lruk_abba_replacer + 1 ∧
      ∀ g, g ≠ f →
        frame_cnt_ r' !! g = frame_cnt_ lruk_abba_replacer !! g ∧
        frame_time_ r' !! g = frame_time_ lruk_abba_replacer !! g ∧
        evitable_ r' !! g = evitable_ lruk_abba_replacer !! g
  | (None, r') => r' = lruk_abba_replacer
  end.
Proof.
  split; [vm_compute; reflexivity|]. split; [vm_compute; reflexivity|].
  apply (Evict_erases_victim 2 3 lruk_abba lruk_abba_replacer
           lruk_abba_history).
  - lia.
  - lia.
  - vm_compute. reflexivity.
  - vm_compute. reflexivity.
Defined.

Lemma Remove_erases_record_witness :
  run (new 3 2, ∅) lruk_abba = Some (lruk_abba_replacer, lruk_abba_history) ∧
  evitable_ lruk_abba_replacer !! 0 = Some true ∧
  ∃ r', Remove lruk_abba_replacer 0 = Some r' ∧
        frame_cnt_ r' !! 0 = None ∧ frame_time_ r' !! 0 = None ∧
        evitable_ r' !! 0 = None ∧
        (∀ nd, nd ∈ inf_set_ r' ∨ nd ∈ kth_set_ r' → id_ nd ≠ 0) ∧
        Size r' = Size lruk_abba_replacer - 1 ∧
        replacer_size_ r' = replacer_size_ lruk_abba_replacer + 1.
Proof.
  split; [vm_compute; reflexivity|]. split; [vm_compute; reflexivity|].
  apply (Remove_erases_record 2 3 lruk_abba lruk_abba_replacer
           lruk_abba_history 0).
  - lia.
  - lia.
  - vm_compute. reflexivity.
  - vm_compute. reflexivity.
Defined.

End LRUK_more_witnesses.
(** ** Buffer pool: pinned frames, hits, deletion and flushing *)

Section BPM_more.

Import BPM.

Variable hash : Z → Z.
Variable fuel : nat.

Tactic Notation "bsimpl" :=
  cbv beta iota zeta delta
      [pages_ page_table_ replacer_ free_list_ next_page_id_ disk_ trace_
       set_pages set_table set_replacer set_free_list set_next_page_id
       set_disk emit set_page WritePage AllocatePage fst snd].

Tactic Notation "bsimpl" "in" hyp(H) :=
  cbv beta iota zeta delta
      [pages_ page_table_ replacer_ free_list_ next_page_id_ disk_ trace_
       set_pages set_table set_replacer set_free_list set_next_page_id
       set_disk emit set_page WritePage AllocatePage fst snd] in H.

(** *** Flags of the replacer after the pool's calls *)

Lemma lookup_ensure_ne {A} (d : A) (f g : Z) (m : gmap Z A) :
  g ≠ f → LRUK.ensure d f m !! g = m !! g.
Proof.
  intros Hne. unfold LRUK.ensure. destruct (m !! f); [done|].
  by rewrite lookup_insert_ne.
Qed.

(** [RecordAccess] then [SetEvictable(false)]: the frame is not flagged
    evictable afterwards and the flags of the other frames are as before. *)
Lemma touch_flags k n r h f now r1 r2 :
  1 ≤ k < 2 ^ 64 → Z.of_nat n + 1 < 2 ^ 64 → Inv k n r h →
  LRUK.RecordAccess r f now = Some r1 →
  LRUK.SetEvictable r1 f false = Some r2 →
  LRUK.evitable_ r2 !! f ≠ Some true ∧
  ∀ g, g ≠ f → LRUK.evitable_ r2 !! g = LRUK.evitable_ r !! g.
Proof.
  intros Hk Hn HI H1 H2.
  destruct (touch_not_evictable k n r h f now Hk Hn HI)
    as (r1' & r2' & H1' & H2' & Hflag & _).
  rewrite H1 in H1'. injection H1' as <-.
  rewrite H2 in H2'. injection H2' as <-.
  split; [done|]. intros g Hg.
  destruct (RecordAccess_effect _ _ _ _ _ _ _ Hk Hn HI H1) as [_ Heff].
  assert (LRUK.evitable_ r1 !! g = LRUK.evitable_ r !! g) as <-.
  { destruct (h !! f).
    - by destruct Heff as (_ & -> & _).
    - destruct (LRUK.replacer_size_ r =? 0).
      + subst r1. by destruct r.
      + destruct Heff as (_ & -> & _). by rewrite lookup_insert_ne. }
  destruct (SetEvictable_effect _ _ _ _ H2)
    as (_ & _ & [[_ ->]|[(_ & _ & -> & _)|(_ & _ & -> & _)]]).
  - done.
  - by apply lookup_ensure_ne.
  - by rewrite lookup_insert_ne.
Qed.

(** [page_at] after a write to another frame. *)
Lemma page_at_insert_ne (st : BufferPool) (ps : list Page) (f g : Z)
    (q : Page) :
  0 ≤ f → g ≠ f →
  page_at (set_pages st (<[Z.to_nat f := q]> ps)) g
  = page_at (set_pages st ps) g.
Proof.
  intros Hf Hne. unfold page_at. destruct (Z.ltb_spec g 0); [done|].
  destruct st. bsimpl. rewrite list_lookup_insert_ne; [done|lia].
Qed.

Lemma page_at_nonneg (st : BufferPool) (f : Z) (p : Page) :
  page_at st f = Some p → 0 ≤ f ∧ (Z.to_nat f < length (pages_ st))%nat.
Proof.
  unfold page_at. destruct (Z.ltb_spec f 0); [done|].
  intros Hp. split; [done|]. by eapply lookup_lt_Some.
Qed.

(** *** The agreement of flags and pins along a run *)

Lemma flags_agree_update (st st' : BufferPool) (f : Z) (q : Page) :
  flags_agree st → 0 ≤ f → (Z.to_nat f < length (pages_ st))%nat →
  pages_ st' = <[Z.to_nat f := q]> (pages_ st) →
  (∀ g e, g ≠ f → LRUK.evitable_ (replacer_ st') !! g = Some e →
          LRUK.evitable_ (replacer_ st) !! g = Some e) →
  (∀ e : bool, LRUK.evitable_ (replacer_ st') !! f = Some e →
        if e then pin_count_ q = 0 else 0 < pin_count_ q) →
  flags_agree st'.
Proof.
  intros Hfa Hf Hlt Hps Hother Hown g e He.
  destruct (decide (g = f)) as [->|Hne].
  - exists q. split; [|by apply Hown].
    unfold page_at. destruct (Z.ltb_spec f 0); [lia|].
    rewrite Hps. by apply list_lookup_insert_eq.
  - destruct (Hfa g e (Hother g e Hne He)) as (p & Hp & Hpin).
    exists p. split; [|done]. revert Hp. unfold page_at.
    destruct (Z.ltb_spec g 0); [done|].
    rewrite Hps. rewrite list_lookup_insert_ne; [done|lia].
Qed.

Lemma flags_agree_same (st st' : BufferPool) :
  flags_agree st → pages_ st' = pages_ st → replacer_ st' = replacer_ st →
  flags_agree st'.
Proof.
  intros Hfa Hps Hr g e He. rewrite Hr in He.
  destruct (Hfa g e He) as (p & Hp & Hpin). exists p. split; [|done].
  revert Hp. unfold page_at. by rewrite Hps.
Qed.

Lemma TakeFrame_flags k n h (st st1 : BufferPool) (f : Z) :
  Inv k n (replacer_ st) h → flags_agree st →
  TakeFrame hash st = Some (f, st1) → flags_agree st1.
Proof.
  intros HI Hfa (_ & _ & [(rest & _ & ->)|Hcase])%TakeFrame_inv.
  - eapply flags_agree_same; [done|by destruct st..].
  - destruct Hcase as (_ & rep & p & b & Hev & Hp & _ & Hrep & _ & _ & _ & Hps).
    pose proof (Evict_effect _ _ _ _ HI) as Heff. rewrite Hev in Heff.
    destruct Heff as (_ & _ & _ & _ & _ & _ & Hflags).
    destruct (page_at_nonneg _ _ _ Hp) as [Hf Hlt].
    eapply (flags_agree_update st st1 f); [done|done|done|exact Hps|..].
    + intros g e Hne. rewrite Hrep, Hflags. by rewrite lookup_delete_ne.
    + intros e. rewrite Hrep, Hflags. by rewrite lookup_delete_eq.
Qed.

Lemma NewPgImp_safe k n (st st' : BufferPool) (now : Z) res :
  1 ≤ k < 2 ^ 64 → Z.of_nat n + 3 < 2 ^ 64 → pool_safe k n st →
  NewPgImp hash fuel st now = Some (res, st') → pool_safe k (n + 3) st'.
Proof.
  intros Hk Hn [Hok Hfa] Hnew.
  split; [by eapply NewPgImp_ok|].
  destruct Hok as [Hnn [h HI]].
  destruct res as [[pid f]|].
  - apply NewPgImp_Some_iff in Hnew
      as (_ & -> & st1 & t & p & r1 & r2 & Htf & _ & Hp & Hr1 & Hr2 & ->).
    assert (Hfa0 : flags_agree (AllocatePage st).2).
    { eapply flags_agree_same; [done|by destruct st..]. }
    assert (HI0 : Inv k n (replacer_ (AllocatePage st).2) h)
      by (by destruct st).
    pose proof (TakeFrame_flags _ _ _ _ _ _ HI0 Hfa0 Htf) as Hfa1.
    destruct (TakeFrame_replacer_Inv _ _ _ _ _ _ _ HI0 Htf) as [h1 HI1].
    destruct (touch_flags k n _ h1 f now r1 r2 Hk ltac:(lia) HI1 Hr1 Hr2)
      as [Hown Hoth].
    destruct (page_at_nonneg _ _ _ Hp) as [Hf Hlt].
    eapply (flags_agree_update st1 _ f); [done|done|done|reflexivity|..].
    + intros g e Hne. cbn [replacer_]. by rewrite Hoth.
    + intros e. cbn [replacer_ pin_count_]. destruct e; [done|lia].
  - by apply NewPgImp_null_inv in Hnew as [_ ->].
Qed.

(** [FetchPgImp] of a resident page, step by step. *)
Lemma FetchPgImp_hit_eq (st : BufferPool) (pid f now : Z) (p : Page) :
  EHT.Find hash (page_table_ st) pid = Some f → page_at st f = Some p →
  FetchPgImp hash fuel st pid now
  = r1 ← LRUK.RecordAccess (replacer_ st) f now;
    r2 ← LRUK.SetEvictable r1 f false;
    Some (Some f,
          mkPool (<[Z.to_nat f :=
                     mkPage (page_id_ p) (pin_count_ p + 1) (is_dirty_ p)
                            (data_ p)]> (pages_ st))
                 (page_table_ st) r2 (free_list_ st) (next_page_id_ st)
                 (disk_ st) (trace_ st)).
Proof.
  intros Hfind Hp. unfold FetchPgImp, touch. rewrite Hfind, Hp.
  cbn [mbind option_bind]. destruct st as [ps pt rp fl np dk tr]. bsimpl.
  destruct (LRUK.RecordAccess rp f now) as [r1|]; [|done].
  cbn [mbind option_bind].
  by destruct (LRUK.SetEvictable r1 f false) as [r2|].
Qed.

(** [FetchPgImp] of a page that is not resident, step by step. *)
Lemma FetchPgImp_miss_full (st st' : BufferPool) (now pid f : Z) :
  EHT.Find hash (page_table_ st) pid = None →
  FetchPgImp hash fuel st pid now = Some (Some f, st') →
  is_free_page st = true ∧
  ∃ st1 t p r1 r2,
    TakeFrame hash st = Some (f, st1) ∧
    EHT.Insert hash fuel (page_table_ st1) pid f = Some t ∧
    page_at st1 f = Some p ∧
    LRUK.RecordAccess (replacer_ st1) f now = Some r1 ∧
    LRUK.SetEvictable r1 f false = Some r2 ∧
    st' = mkPool (<[Z.to_nat f :=
                     mkPage pid 1 (is_dirty_ p) (ReadPage st1 pid)]>
                    (pages_ st1))
            t r2 (free_list_ st1) (next_page_id_ st1) (disk_ st1)
            (trace_ st1 ++ [EvTableInsert pid f; EvReadPage pid f]).
Proof.
  intros Hfind. unfold FetchPgImp. rewrite Hfind.
  destruct (is_free_page st); cbn [negb]; [|done].
  unfold TableInsert, touch. intros H. split; [done|].
  destruct (TakeFrame _ _) as [[f1 [ps1 pt1 rp1 fl1 np1 dk1 tr1]]|];
    [|done].
  cbn [mbind option_bind] in H. bsimpl in H.
  destruct (EHT.Insert _ _ _ _ _) as [t|] eqn:Et; [|done].
  cbn [mbind option_bind] in H. unfold page_at in H. bsimpl in H.
  destruct (f1 <? 0) eqn:Ef; [done|].
  destruct (ps1 !! Z.to_nat f1) as [p|] eqn:Ep; [|done].
  cbn [mbind option_bind] in H.
  rewrite list_lookup_insert_eq in H by (by eapply lookup_lt_Some).
  cbn [mbind option_bind] in H. bsimpl in H.
  destruct (LRUK.RecordAccess _ _ _) as [r1|] eqn:Er1; [|done].
  cbn [mbind option_bind] in H.
  destruct (LRUK.SetEvictable _ _ _) as [r2|] eqn:Er2; [|done].
  cbn [mbind option_bind] in H. injection H as <- <-.
  eexists _, t, p, r1, r2. split; [reflexivity|].
  unfold page_at. rewrite Ef. bsimpl. repeat split; try done.
  rewrite list_insert_insert_eq, <- app_assoc.
  cbn [page_id_ pin_count_ is_dirty_]. done.
Qed.

Lemma FetchPgImp_null_inv (st st' : BufferPool) (now pid : Z) :
  FetchPgImp hash fuel st pid now = Some (None, st') →
  EHT.Find hash (page_table_ st) pid = None ∧ is_free_page st = false ∧
  st' = st.
Proof.
  unfold FetchPgImp, TableInsert, touch.
  destruct (EHT.Find _ _ _) as [f|].
  - destruct (page_at st f) as [p|]; [|done]. cbn [mbind option_bind].
    destruct (LRUK.RecordAccess _ _ _) as [r1|]; [|done].
    cbn [mbind option_bind].
    by destruct (LRUK.SetEvictable _ _ _) as [r2|].
  - destruct (is_free_page st); cbn [negb]; [|by intros [= <-]].
    destruct (TakeFrame _ _) as [[f1 st1]|]; [|done].
    cbn [mbind option_bind].
    destruct (EHT.Insert _ _ _ _ _) as [t|]; [|done].
    cbn [mbind option_bind].
    destruct (page_at _ f1) as [p|]; [|done]. cbn [mbind option_bind].
    destruct (page_at _ f1) as [p'|]; [|done]. cbn [mbind option_bind].
    destruct (LRUK.RecordAccess _ _ _) as [r1|]; [|done].
    cbn [mbind option_bind].
    by destruct (LRUK.SetEvictable _ _ _) as [r2|].
Qed.

Lemma FetchPgImp_safe k n (st st' : BufferPool) (pid now : Z) res :
  1 ≤ k < 2 ^ 64 → Z.of_nat n + 3 < 2 ^ 64 → pool_safe k n st →
  FetchPgImp hash fuel st pid now = Some (res, st') → pool_safe k (n + 3) st'.
Proof.
  intros Hk Hn [Hok Hfa] Hfetch.
  split; [by eapply FetchPgImp_ok|].
  destruct Hok as [Hnn [h HI]].
  destruct res as [f|]; [|by apply FetchPgImp_null_inv in Hfetch as (_ & _ & ->)].
  destruct (EHT.Find hash (page_table_ st) pid) as [f0|] eqn:Hfind.
  - destruct (page_at st f0) as [p|] eqn:Hp;
      [|unfold FetchPgImp in Hfetch; by rewrite Hfind, Hp in Hfetch].
    rewrite (FetchPgImp_hit_eq _ _ _ _ _ Hfind Hp) in Hfetch.
    destruct (LRUK.RecordAccess _ _ _) as [r1|] eqn:Hr1; [|done].
    cbn [mbind option_bind] in Hfetch.
    destruct (LRUK.SetEvictable _ _ _) as [r2|] eqn:Hr2; [|done].
    cbn [mbind option_bind] in Hfetch. injection Hfetch as <- <-.
    destruct (touch_flags k n _ h f0 now r1 r2 Hk ltac:(lia) HI Hr1 Hr2)
      as [Hown Hoth].
    destruct (page_at_nonneg _ _ _ Hp) as [Hf Hlt].
    eapply (flags_agree_update st _ f0); [done|done|done|reflexivity|..].
    + intros g e Hne. cbn [replacer_]. by rewrite Hoth.
    + intros e. cbn [replacer_ pin_count_]. destruct e; [done|].
      intros _. pose proof (page_at_pin _ _ _ Hnn Hp). lia.
  - apply FetchPgImp_miss_full in Hfetch
      as (_ & st1 & t & p & r1 & r2 & Htf & _ & Hp & Hr1 & Hr2 & ->);
      [|done].
    pose proof (TakeFrame_flags _ _ _ _ _ _ HI Hfa Htf) as Hfa1.
    destruct (TakeFrame_replacer_Inv _ _ _ _ _ _ _ HI Htf) as [h1 HI1].
    destruct (touch_flags k n _ h1 f now r1 r2 Hk ltac:(lia) HI1 Hr1 Hr2)
      as [Hown Hoth].
    destruct (page_at_nonneg _ _ _ Hp) as [Hf Hlt].
    eapply (flags_agree_update st1 _ f); [done|done|done|reflexivity|..].
    + intros g e Hne. cbn [replacer_]. by rewrite Hoth.
    + intros e. cbn [replacer_ pin_count_]. destruct e; [done|lia].
Qed.

Lemma UnpinPgImp_cases (st st' : BufferPool) (pid : Z) (d res : bool) :
  UnpinPgImp hash st pid d = Some (res, st') →
  (res = false ∧ st' = st) ∨
  ∃ f p r',
    res = true ∧
    EHT.Find hash (page_table_ st) pid = Some f ∧ page_at st f = Some p ∧
    0 < pin_count_ p ∧
    (if pin_count_ p - 1 =? 0
     then LRUK.SetEvictable (replacer_ st) f true = Some r'
     else r' = replacer_ st) ∧
    st' = mkPool (<[Z.to_nat f :=
                     mkPage (page_id_ p) (pin_count_ p - 1)
                            (d || is_dirty_ p) (data_ p)]> (pages_ st))
            (page_table_ st) r' (free_list_ st) (next_page_id_ st)
            (disk_ st) (trace_ st).
Proof.
  intros Hun.
  destruct (EHT.Find hash (page_table_ st) pid) as [f|] eqn:Hfind.
  2:{ unfold UnpinPgImp in Hun. rewrite Hfind in Hun.
      injection Hun as <- <-. by left. }
  destruct (page_at st f) as [p|] eqn:Hp.
  2:{ unfold UnpinPgImp in Hun. by rewrite Hfind, Hp in Hun. }
  destruct (Z.leb_spec (pin_count_ p) 0) as [Hle|Hgt].
  - unfold UnpinPgImp in Hun. rewrite Hfind, Hp in Hun.
    cbn [mbind option_bind] in Hun.
    destruct (Z.leb_spec (pin_count_ p) 0); [|lia].
    injection Hun as <- <-. by left.
  - destruct (UnpinPgImp_inv hash st pid f d p Hfind Hp Hgt)
      as (r' & Hr' & Heq).
    rewrite Heq in Hun. injection Hun as <- <-.
    right. by exists f, p, r'.
Qed.

Lemma UnpinPgImp_safe k n (st st' : BufferPool) (pid : Z) (d res : bool) :
  pool_safe k n st →
  UnpinPgImp hash st pid d = Some (res, st') → pool_safe k (n + 3) st'.
Proof.
  intros [Hok Hfa] Hun. split; [by eapply UnpinPgImp_ok|].
  destruct Hok as [Hnn [h HI]].
  apply UnpinPgImp_cases in Hun
    as [[_ ->]|(f & p & r' & _ & _ & Hp & Hpin & Hr' & ->)]; [done|].
  destruct (page_at_nonneg _ _ _ Hp) as [Hf Hlt].
  eapply (flags_agree_update st _ f); [done|done|done|reflexivity|..];
    cbn [replacer_ pin_count_].
  - intros g e Hne.
    destruct (_ =? 0); [|by subst r'].
    destruct (SetEvictable_effect _ _ _ _ Hr')
      as (_ & _ & [[_ ->]|[(_ & _ & -> & _)|(_ & _ & -> & _)]]).
    + done.
    + by rewrite lookup_ensure_ne.
    + by rewrite lookup_insert_ne.
  - intros e He.
    destruct (Z.eqb_spec (pin_count_ p - 1) 0) as [E0|E0].
    + destruct (SetEvictable_effect _ _ _ _ Hr')
        as (_ & _ & [[Hno ->]|[(_ & Hev & Heq & _)|(_ & _ & Heq & _)]]).
      * destruct (untracked_no_count _ _ _ _ _ HI Hno) as (_ & _ & Hnone).
        congruence.
      * rewrite Heq in He. unfold LRUK.evitable_of, LRUK.ensure in *.
        destruct (LRUK.evitable_ (replacer_ st) !! f) as [e0|] eqn:He0.
        -- cbn in Hev. rewrite He0 in He. injection He as <-. by subst e0.
        -- cbn in Hev. done.
      * rewrite Heq, lookup_insert_eq in He. by injection He as <-.
    + subst r'. destruct (Hfa f e He) as (p' & Hp' & Hagree).
      rewrite Hp in Hp'. injection Hp' as <-.
      destruct e; lia.
Qed.

Lemma FlushPgImp_same (st st' : BufferPool) (pid : Z) (res : bool) :
  FlushPgImp hash st pid = Some (res, st') →
  pages_ st' = pages_ st ∧ page_table_ st' = page_table_ st ∧
  replacer_ st' = replacer_ st ∧ free_list_ st' = free_list_ st ∧
  next_page_id_ st' = next_page_id_ st.
Proof.
  unfold FlushPgImp. destruct (_ =? _); [by intros [= _ <-]|].
  destruct (EHT.Find _ _ _) as [f|]; [|by intros [= _ <-]].
  destruct (page_at st f) as [p|]; [|done].
  cbn [mbind option_bind]. intros [= _ <-]. by destruct st.
Qed.

Lemma FlushPgImp_safe k n (st st' : BufferPool) (pid : Z) (res : bool) :
  pool_safe k n st →
  FlushPgImp hash st pid = Some (res, st') → pool_safe k (n + 3) st'.
Proof.
  intros [Hok Hfa] Hfl. split; [by eapply FlushPgImp_ok|].
  destruct (FlushPgImp_same _ _ _ _ Hfl) as (? & _ & ? & _).
  by eapply flags_agree_same.
Qed.

(** [DeletePgImp], case by case. *)
Lemma DeletePgImp_cases (st st' : BufferPool) (pid : Z) (res : bool) :
  DeletePgImp hash st pid = Some (res, st') →
  (EHT.Find hash (page_table_ st) pid = None ∧ res = true ∧ st' = st) ∨
  ∃ f p,
    EHT.Find hash (page_table_ st) pid = Some f ∧ page_at st f = Some p ∧
    ((0 < pin_count_ p ∧ res = false ∧ st' = st) ∨
     (pin_count_ p ≤ 0 ∧ res = true ∧
      ∃ r b t,
        LRUK.Remove (replacer_ st) f = Some r ∧
        EHT.Remove hash (page_table_ st) pid = Some (b, t) ∧
        st' = mkPool (<[Z.to_nat f :=
                         mkPage INVALID_PAGE_ID 0 false zero_data]>
                        (pages_ st))
                t r (free_list_ st ++ [f]) (next_page_id_ st) (disk_ st)
                (trace_ st ++ [EvResetMemory f; EvTableRemove pid]))).
Proof.
  unfold DeletePgImp.
  destruct (EHT.Find _ _ _) as [f|]; [|intros [= <- <-]; by left].
  destruct (page_at st f) as [p|] eqn:Hp; [|done]. cbn [mbind option_bind].
  intros H. right. exists f, p. split; [done|]. split; [done|].
  destruct (Z.ltb_spec 0 (pin_count_ p)) as [Hpin|Hpin].
  - injection H as <- <-. by left.
  - right. split; [done|].
    destruct (LRUK.Remove (replacer_ st) f) as [r|] eqn:Hr; [|done].
    cbn [mbind option_bind] in H.
    destruct st as [ps pt rp fl np dk tr]. bsimpl in H. bsimpl.
    bsimpl in Hr.
    destruct (EHT.Remove hash pt pid) as [[b t]|]; [|done].
    cbn [mbind option_bind] in H. injection H as <- <-.
    split; [done|]. exists r, b, t. rewrite <- app_assoc. by bsimpl.
Qed.

Lemma DeletePgImp_safe k n (st st' : BufferPool) (pid : Z) (res : bool) :
  pool_safe k n st →
  DeletePgImp hash st pid = Some (res, st') → pool_safe k (n + 3) st'.
Proof.
  intros [Hok Hfa] Hdel. split; [by eapply DeletePgImp_ok|].
  destruct Hok as [Hnn [h HI]].
  apply DeletePgImp_cases in Hdel
    as [(_ & _ & ->)|(f & p & _ & Hp & [(_ & _ & ->)|Hcase])]; [done|done|].
  destruct Hcase as (_ & _ & r & b & t & Hr & _ & ->).
  destruct (page_at_nonneg _ _ _ Hp) as [Hf Hlt].
  eapply (flags_agree_update st _ f); [done|done|done|reflexivity|..];
    cbn [replacer_ pin_count_].
  - intros g e Hne.
    destruct (Remove_effect _ _ _ _ _ _ HI Hr)
      as [[_ ->]|(_ & _ & _ & _ & _ & _ & ->)]; [done|].
    by rewrite lookup_delete_ne.
  - intros e.
    destruct (Remove_effect _ _ _ _ _ _ HI Hr)
      as [[Hno ->]|(_ & _ & _ & _ & _ & _ & ->)].
    + destruct (untracked_no_count _ _ _ _ _ HI Hno) as (_ & _ & Hnone).
      by rewrite Hnone.
    + by rewrite lookup_delete_eq.
Qed.

Lemma pool_step_safe k n (st st' : BufferPool) (op : PoolOp) :
  1 ≤ k < 2 ^ 64 → Z.of_nat n + 3 < 2 ^ 64 → pool_safe k n st →
  pool_step hash fuel st op = Some st' → pool_safe k (n + 3) st'.
Proof.
  intros Hk Hn Hok. destruct op; cbn [pool_step]; intros Hst;
    apply fmap_Some in Hst as ([res st1] & Hst & ->); cbn [snd].
  - by eapply NewPgImp_safe.
  - by eapply FetchPgImp_safe.
  - by eapply UnpinPgImp_safe.
  - by eapply FlushPgImp_safe.
  - by eapply DeletePgImp_safe.
Qed.

Lemma pool_run_safe k n (st st' : BufferPool) (ops : list PoolOp) :
  1 ≤ k < 2 ^ 64 → Z.of_nat (n + 3 * length ops) < 2 ^ 64 →
  pool_safe k n st → pool_run hash fuel st ops = Some st' →
  pool_safe k (n + 3 * length ops) st'.
Proof.
  intros Hk. unfold pool_run. revert n st.
  induction ops as [|op ops IH]; intros n st Hn Hok Hrun; cbn [foldl] in Hrun.
  - injection Hrun as <-. cbn [length]. by rewrite Nat.mul_0_r, Nat.add_0_r.
  - cbn [length] in *. cbn [mbind option_bind] in Hrun.
    destruct (pool_step hash fuel st op) as [st1|] eqn:Hst.
    + replace (n + 3 * S (length ops))%nat
        with ((n + 3) + 3 * length ops)%nat by lia.
      apply (IH (n + 3)%nat st1); [lia| |done].
      eapply pool_step_safe; [done| |done|done]. lia.
    + exfalso. clear -Hrun. induction ops as [|o ops IH]; [done|].
      by apply IH.
Qed.

Lemma new_pool_safe (pool_size : nat) (k : Z) (bucket_size : nat) :
  pool_safe k 0 (BufferPoolManagerInstance pool_size k bucket_size).
Proof.
  split; [apply new_pool_ok|]. intros f e He.
  cbn [BufferPoolManagerInstance replacer_ LRUK.new LRUK.evitable_] in He.
  by rewrite lookup_empty in He.
Qed.

Lemma reached_pool_safe (pool_size : nat) (k : Z) (bucket_size : nat)
    (calls : list PoolOp) (st : BufferPool) :
  1 ≤ k < 2 ^ 64 → Z.of_nat (3 * length calls) < 2 ^ 64 →
  pool_run hash fuel (BufferPoolManagerInstance pool_size k bucket_size) calls
  = Some st →
  pool_safe k (3 * length calls) st.
Proof.
  intros Hk Hn Hrun.
  apply (pool_run_safe k 0
           (BufferPoolManagerInstance pool_size k bucket_size) st calls Hk);
    [done| |done].
  apply new_pool_safe.
Qed.

(** *** The page table along a run *)

Lemma TakeFrame_table (st st1 : BufferPool) (f : Z) :
  table_ok (page_table_ st) → TakeFrame hash st = Some (f, st1) →
  table_ok (page_table_ st1).
Proof.
  intros Hok (_ & _ & [(rest & _ & ->)|Hcase])%TakeFrame_inv.
  - by destruct st.
  - destruct Hcase as (_ & rep & p & b & _ & _ & Hrm & _).
    by destruct (Remove_ok hash _ _ _ _ Hok Hrm).
Qed.

Lemma pool_step_table (st st' : BufferPool) (op : PoolOp) :
  table_ok (page_table_ st) → pool_step hash fuel st op = Some st' →
  table_ok (page_table_ st').
Proof.
  intros Hok. destruct op as [now|pid now|pid d|pid|pid]; cbn [pool_step];
    intros Hst; apply fmap_Some in Hst as ([res st1] & Hst & ->); cbn [snd].
  - destruct res as [[pid f]|].
    + apply NewPgImp_Some_iff in Hst
        as (_ & _ & st0 & t & p & r1 & r2 & Htf & Hins & _ & _ & _ & ->).
      cbn [page_table_].
      assert (Hok0 : table_ok (page_table_ (AllocatePage st).2))
        by (by destruct st).
      pose proof (TakeFrame_table _ _ _ Hok0 Htf) as Hok1.
      by destruct (Insert_ok hash _ _ _ _ _ Hok1 Hins).
    + by apply NewPgImp_null_inv in Hst as [_ ->].
  - destruct res as [f|];
      [|by apply FetchPgImp_null_inv in Hst as (_ & _ & ->)].
    destruct (EHT.Find hash (page_table_ st) pid) as [f0|] eqn:Hfind.
    + destruct (page_at st f0) as [p|] eqn:Hp;
        [|unfold FetchPgImp in Hst; by rewrite Hfind, Hp in Hst].
      rewrite (FetchPgImp_hit_eq _ _ _ _ _ Hfind Hp) in Hst.
      destruct (LRUK.RecordAccess _ _ _) as [r1|]; [|done].
      cbn [mbind option_bind] in Hst.
      destruct (LRUK.SetEvictable _ _ _) as [r2|]; [|done].
      cbn [mbind option_bind] in Hst. by injection Hst as <- <-.
    + apply FetchPgImp_miss_full in Hst
        as (_ & st0 & t & p & r1 & r2 & Htf & Hins & _ & _ & _ & ->);
        [|done].
      cbn [page_table_].
      pose proof (TakeFrame_table _ _ _ Hok Htf) as Hok1.
      by destruct (Insert_ok hash _ _ _ _ _ Hok1 Hins).
  - by apply UnpinPgImp_cases in Hst
      as [[_ ->]|(f & p & r' & _ & _ & _ & _ & _ & ->)].
  - destruct (FlushPgImp_same _ _ _ _ Hst) as (_ & -> & _). done.
  - apply DeletePgImp_cases in Hst
      as [(_ & _ & ->)|(f & p & _ & _ & [(_ & _ & ->)|Hcase])]; [done|done|].
    destruct Hcase as (_ & _ & r & b & t & _ & Hrm & ->). cbn [page_table_].
    by destruct (Remove_ok hash _ _ _ _ Hok Hrm).
Qed.

Lemma reached_pool_table (pool_size : nat) (k : Z) (bucket_size : nat)
    (calls : list PoolOp) (st : BufferPool) :
  pool_run hash fuel (BufferPoolManagerInstance pool_size k bucket_size) calls
  = Some st →
  table_ok (page_table_ st).
Proof.
  unfold pool_run.
  assert (Hnew : table_ok
            (page_table_ (BufferPoolManagerInstance pool_size k bucket_size)))
    by apply new_table_ok.
  revert Hnew. generalize (BufferPoolManagerInstance pool_size k bucket_size).
  induction calls as [|op calls IH]; intros st0 Hok; cbn [foldl].
  - by intros [= <-].
  - cbn [mbind option_bind].
    destruct (pool_step hash fuel st0 op) as [st1|] eqn:Hst.
    + apply IH. by eapply pool_step_table.
    + intros Hrun. exfalso. clear -Hrun.
      induction calls as [|o calls IH]; [done|]. by apply IH.
Qed.

(** X13: pinned frames are safe from the replacer. In every pool reached
    from a new pool by the pool's calls, no pin count is negative, a frame
    that the replacer flags evictable holds a page with pin count 0, a
    frame that it flags not evictable holds a page with a positive pin
    count, and so the victim that [Evict] would return is never pinned. *)
Theorem evictable_frames_are_unpinned
    (pool_size : nat) (k : Z) (bucket_size : nat) (calls : list PoolOp)
    (st : BufferPool) :
  1 ≤ k < 2 ^ 64 → Z.of_nat (3 * length calls) < 2 ^ 64 →
  pool_run hash fuel (BufferPoolManagerInstance pool_size k bucket_size) calls
  = Some st →
  pins_nonneg st ∧
  (∀ (f : Z) (e : bool),
     LRUK.evitable_ (replacer_ st) !! f = Some e →
     ∃ p, page_at st f = Some p ∧
          if e then pin_count_ p = 0 else 0 < pin_count_ p) ∧
  (∀ f rep, LRUK.Evict (replacer_ st) = (Some f, rep) →
     ∃ p, page_at st f = Some p ∧ pin_count_ p = 0).
Proof.
  intros Hk Hn Hrun.
  destruct (reached_pool_safe _ _ _ _ _ Hk Hn Hrun) as [[Hnn [h HI]] Hfa].
  split; [done|]. split; [exact Hfa|].
  intros f rep Hev.
  pose proof (Evict_effect _ _ _ _ HI) as Heff. rewrite Hev in Heff.
  destruct Heff as (Hflag & _).
  exact (Hfa f true Hflag).
Qed.

(** X14: a hit. In every pool reached from a new pool by the pool's
    calls, [FetchPgImp] of a page that the page table maps to frame [f]
    returns [f]: the pin count of the page goes up by one, its id, data and
    dirty flag stay, the frame is not evictable afterwards, and the page
    table, the free list, the next page id, the disk and the other flags of
    the replacer are as before (no disk access, no frame taken). *)
Theorem FetchPgImp_resident_page
    (pool_size : nat) (k : Z) (bucket_size : nat) (calls : list PoolOp)
    (st : BufferPool) (page_id f now : Z) (p : Page) :
  1 ≤ k < 2 ^ 64 → Z.of_nat (3 * length calls) + 1 < 2 ^ 64 →
  pool_run hash fuel (BufferPoolManagerInstance pool_size k bucket_size) calls
  = Some st →
  EHT.Find hash (page_table_ st) page_id = Some f →
  page_at st f = Some p →
  ∃ r2,
    FetchPgImp hash fuel st page_id now
    = Some (Some f,
            mkPool (<[Z.to_nat f :=
                       mkPage (page_id_ p) (pin_count_ p + 1) (is_dirty_ p)
                              (data_ p)]> (pages_ st))
                   (page_table_ st) r2 (free_list_ st) (next_page_id_ st)
                   (disk_ st) (trace_ st)) ∧
    LRUK.evitable_ r2 !! f ≠ Some true ∧
    ∀ g, g ≠ f →
      LRUK.evitable_ r2 !! g = LRUK.evitable_ (replacer_ st) !! g.
Proof.
  intros Hk Hn Hrun Hfind Hp.
  destruct (reached_pool_safe pool_size k bucket_size calls st Hk ltac:(lia) Hrun)
    as [[Hnn [h HI]] Hfa].
  destruct (touch_not_evictable k _ _ h f now Hk Hn HI)
    as (r1 & r2 & H1 & H2 & _).
  exists r2. rewrite (FetchPgImp_hit_eq _ _ _ _ _ Hfind Hp), H1.
  cbn [mbind option_bind]. rewrite H2. cbn [mbind option_bind].
  split; [done|].
  exact (touch_flags k _ _ h f now r1 r2 Hk Hn HI H1 H2).
Qed.

(** X15: [DeletePgImp]. In every pool reached from a new pool by the
    pool's calls: a page that the page table does not hold gives [true] and
    no change; a pinned page gives [false] and no change; otherwise the
    call returns [true], the replacer's assertion on the frame holds, the
    frame is reset (invalid id, pin count 0, clean, zeroed) and goes to the
    back of the free list, the replacer keeps no record of it, and nothing
    is written to the disk, even for a dirty page. *)
Theorem DeletePgImp_frees_frame
    (pool_size : nat) (k : Z) (bucket_size : nat) (calls : list PoolOp)
    (st : BufferPool) (page_id : Z) :
  1 ≤ k < 2 ^ 64 → Z.of_nat (3 * length calls) < 2 ^ 64 →
  pool_run hash fuel (BufferPoolManagerInstance pool_size k bucket_size) calls
  = Some st →
  match EHT.Find hash (page_table_ st) page_id with
  | None => DeletePgImp hash st page_id = Some (true, st)
  | Some f =>
      ∀ p, page_at st f = Some p →
        if 0 <? pin_count_ p
        then DeletePgImp hash st page_id = Some (false, st)
        else
          ∃ st', DeletePgImp hash st page_id = Some (true, st') ∧
                 page_at st' f
                 = Some (mkPage INVALID_PAGE_ID 0 false zero_data) ∧
                 free_list_ st' = free_list_ st ++ [f] ∧
                 LRUK.frame_time_ (replacer_ st') !! f = None ∧
                 LRUK.evitable_ (replacer_ st') !! f = None ∧
                 disk_ st' = disk_ st ∧
                 next_page_id_ st' = next_page_id_ st
  end.
Proof.
  intros Hk Hn Hrun.
  destruct (reached_pool_safe _ _ _ _ _ Hk Hn Hrun) as [[Hnn [h HI]] Hfa].
  pose proof (reached_pool_table _ _ _ _ _ Hrun) as [Hshape _].
  destruct (EHT.Find hash (page_table_ st) page_id) as [f|] eqn:Hfind;
    [|unfold DeletePgImp; by rewrite Hfind].
  intros p Hp.
  destruct (Z.ltb_spec 0 (pin_count_ p)) as [Hpin|Hpin].
  { unfold DeletePgImp. rewrite Hfind, Hp. cbn [mbind option_bind].
    by destruct (Z.ltb_spec 0 (pin_count_ p)); [|lia]. }
  assert (Hflag : LRUK.evitable_ (replacer_ st) !! f ≠ Some false).
  { intros He. destruct (Hfa f false He) as (p' & Hp' & Hpos).
    rewrite Hp in Hp'. injection Hp' as <-. lia. }
  destruct (Remove_returns _ _ _ _ f HI Hflag) as [r Hr].
  destruct (Remove_total hash (page_table_ st) page_id Hshape)
    as [[b t] Hrm].
  destruct (page_at_nonneg _ _ _ Hp) as [Hf Hlt].
  exists (mkPool (<[Z.to_nat f := mkPage INVALID_PAGE_ID 0 false zero_data]>
                    (pages_ st))
            t r (free_list_ st ++ [f]) (next_page_id_ st) (disk_ st)
            (trace_ st ++ [EvResetMemory f; EvTableRemove page_id])).
  split.
  { unfold DeletePgImp. rewrite Hfind, Hp. cbn [mbind option_bind].
    destruct (Z.ltb_spec 0 (pin_count_ p)); [lia|].
    rewrite Hr. cbn [mbind option_bind].
    destruct st as [ps pt rp fl np dk tr]. bsimpl. bsimpl in Hrm.
    rewrite Hrm. cbn [mbind option_bind]. by rewrite <- app_assoc. }
  cbn [free_list_ replacer_ disk_ next_page_id_].
  split.
  { unfold page_at. cbn [pages_]. destruct (Z.ltb_spec f 0); [lia|].
    by apply list_lookup_insert_eq. }
  split; [done|].
  destruct (Remove_effect _ _ _ _ _ _ HI Hr)
    as [[Hno ->]|(_ & _ & _ & _ & _ & -> & ->)].
  - destruct (untracked_no_count _ _ _ _ _ HI Hno) as (_ & _ & Hnone).
    done.
  - by rewrite !lookup_delete_eq.
Qed.

(** [FlushPgImp], case by case. *)
Lemma FlushPgImp_cases (st st1 : BufferPool) (pid : Z) (b : bool) :
  FlushPgImp hash st pid = Some (b, st1) →
  (b = false ∧ st1 = st ∧
   (pid = INVALID_PAGE_ID ∨ EHT.Find hash (page_table_ st) pid = None)) ∨
  (b = true ∧ pid ≠ INVALID_PAGE_ID ∧
   ∃ f q, EHT.Find hash (page_table_ st) pid = Some f ∧
          page_at st f = Some q ∧ st1 = WritePage st pid (data_ q)).
Proof.
  unfold FlushPgImp. destruct (Z.eqb_spec pid INVALID_PAGE_ID) as [->|Hne].
  { intros [= <- <-]. left. split; [done|]. split; [done|]. by left. }
  destruct (EHT.Find _ _ _) as [f|] eqn:Hf.
  - destruct (page_at st f) as [q|] eqn:Hq; [|done]. cbn [mbind option_bind].
    intros [= <- <-]. right. split; [done|]. split; [exact Hne|].
    by exists f, q.
  - intros [= <- <-]. left. split; [done|]. split; [done|]. by right.
Qed.

(** The loop of [FlushAllPgsImp] over the frames [l]. *)
Lemma flush_loop (l : list nat) (st st' : BufferPool) :
  foldl (λ ost frame_id,
           st ← ost;
           p ← pages_ st !! frame_id;
           '(_, st) ← FlushPgImp hash st (page_id_ p);
           Some st)
        (Some st) l = Some st' →
  (pages_ st' = pages_ st ∧ page_table_ st' = page_table_ st ∧
   replacer_ st' = replacer_ st ∧ free_list_ st' = free_list_ st ∧
   next_page_id_ st' = next_page_id_ st) ∧
  (∀ pid,
     disk_ st' !! pid = disk_ st !! pid ∨
     ∃ f q, EHT.Find hash (page_table_ st) pid = Some f ∧
            page_at st f = Some q ∧ disk_ st' !! pid = Some (data_ q)) ∧
  (∀ i p f q,
     i ∈ l → pages_ st !! i = Some p → page_id_ p ≠ INVALID_PAGE_ID →
     EHT.Find hash (page_table_ st) (page_id_ p) = Some f →
     page_at st f = Some q →
     disk_ st' !! page_id_ p = Some (data_ q)) ∧
  (∀ pid,
     (∀ i p, i ∈ l → pages_ st !! i = Some p → page_id_ p ≠ pid) →
     disk_ st' !! pid = disk_ st !! pid).
Proof.
  revert st. induction l as [|i0 l IH]; intros st; cbn [foldl].
  - intros [= <-]. split; [done|]. split; [by left|].
    split; [by intros ? ? ? ? ?%elem_of_nil|done].
  - cbn [mbind option_bind].
    destruct (pages_ st !! i0) as [p0|] eqn:Hp0.
    2:{ intros Hrun. exfalso. revert Hrun. clear.
        induction l as [|i l IH]; [done|]. exact IH. }
    cbn [mbind option_bind].
    destruct (FlushPgImp hash st (page_id_ p0)) as [[b st1]|] eqn:Hfl.
    2:{ intros Hrun. exfalso. revert Hrun. clear.
        induction l as [|i l IH]; [done|]. exact IH. }
    cbn [mbind option_bind]. intros Hrun.
    destruct (IH _ Hrun) as ((Hps & Hpt & Hrp & Hfr & Hnp) & Hany & Hall & Hkeep).
    destruct (FlushPgImp_same _ _ _ _ Hfl) as (Hps1 & Hpt1 & Hrp1 & Hfr1 & Hnp1).
    assert (Hpa : ∀ f, page_at st1 f = page_at st f).
    { intros f. unfold page_at. by rewrite Hps1. }
    assert (Hdisk1 : ∀ pid,
      disk_ st1 !! pid = disk_ st !! pid ∨
      ∃ f q, EHT.Find hash (page_table_ st) pid = Some f ∧
             page_at st f = Some q ∧ pid = page_id_ p0 ∧
             page_id_ p0 ≠ INVALID_PAGE_ID ∧
             disk_ st1 !! pid = Some (data_ q)).
    { intros pid.
      apply FlushPgImp_cases in Hfl
        as [(_ & -> & _)|(_ & Hne & f & q & Hf & Hq & ->)]; [by left|].
      destruct (decide (pid = page_id_ p0)) as [->|Hpid].
      - right. exists f, q. repeat split; try done.
        destruct st. bsimpl. apply lookup_insert_eq.
      - left. destruct st. bsimpl. by rewrite lookup_insert_ne. }
    split; [repeat split; congruence|]. split; [|split].
    + intros pid.
      destruct (Hany pid) as [Heq|(f & q & Hf & Hq & Hd)].
      * rewrite Heq.
        destruct (Hdisk1 pid) as [?|(f & q & Hf & Hq & _ & _ & Hd)];
          [by left|]. right. by exists f, q.
      * right. exists f, q. rewrite <- Hpt1, <- Hpa. done.
    + intros i p f q Hi Hp Hne Hf Hq.
      assert (Hlater : disk_ st1 !! page_id_ p = Some (data_ q) →
                       disk_ st' !! page_id_ p = Some (data_ q)).
      { intros Hd1.
        destruct (Hany (page_id_ p)) as [Heq|(f' & q' & Hf' & Hq' & Hd)].
        - by rewrite Heq.
        - rewrite Hpt1, Hf in Hf'. injection Hf' as <-.
          rewrite Hpa, Hq in Hq'. by injection Hq' as <-. }
      destruct (decide (i ∈ l)) as [Hin|Hnin].
      * apply (Hall i p f q Hin); rewrite ?Hps1, ?Hpt1, ?Hpa; done.
      * apply elem_of_cons in Hi as [->|Hi]; [|done].
        rewrite Hp0 in Hp. injection Hp as ->.
        apply Hlater.
        apply FlushPgImp_cases in Hfl
          as [(_ & _ & [?|Hnone])|(_ & _ & f' & q' & Hf' & Hq' & ->)];
          [done|congruence|].
        rewrite Hf in Hf'. injection Hf' as <-.
        rewrite Hq in Hq'. injection Hq' as <-.
        destruct st. bsimpl. apply lookup_insert_eq.
    + intros pid Hnone. rewrite Hkeep.
      * destruct (Hdisk1 pid) as [?|(f & q & _ & _ & -> & _ & _)]; [done|].
        exfalso. by apply (Hnone i0 p0); [left|..].
      * intros i p Hi Hp. rewrite Hps1 in Hp.
        apply (Hnone i p); [by right|done].
Qed.

(** X16: [FlushAllPgsImp]. When it returns, only the disk has changed: the
    frames (with their dirty flags and pin counts), the page table, the
    replacer, the free list and the next page id are as before. Every page
    held by a frame and found in the page table is on the disk with the
    data of the frame that the table gives for it, and the disk content of a
    page id that no frame holds is as before. *)
Theorem FlushAllPgsImp_writes_resident_pages (st st' : BufferPool) :
  FlushAllPgsImp hash st = Some st' →
  (pages_ st' = pages_ st ∧ page_table_ st' = page_table_ st ∧
   replacer_ st' = replacer_ st ∧ free_list_ st' = free_list_ st ∧
   next_page_id_ st' = next_page_id_ st) ∧
  (∀ i p f q,
     pages_ st !! i = Some p → page_id_ p ≠ INVALID_PAGE_ID →
     EHT.Find hash (page_table_ st) (page_id_ p) = Some f →
     page_at st f = Some q →
     disk_ st' !! page_id_ p = Some (data_ q)) ∧
  (∀ pid, (∀ p, p ∈ pages_ st → page_id_ p ≠ pid) →
          disk_ st' !! pid = disk_ st !! pid).
Proof.
  unfold FlushAllPgsImp. intros Hrun.
  destruct (flush_loop _ _ _ Hrun) as (Hsame & _ & Hall & Hkeep).
  split; [done|]. split.
  - intros i p f q Hp. apply (Hall i p f q); [|done].
    apply elem_of_seq. split; [lia|]. cbn.
    by eapply lookup_lt_Some.
  - intros pid Hnone. apply Hkeep. intros i p _ Hp.
    apply Hnone. by eapply list_elem_of_lookup_2.
Qed.

(** *** Page ids *)

Lemma pool_step_next_page_id (st st' : BufferPool) (op : PoolOp) :
  pool_step hash fuel st op = Some st' →
  match op with
  | DoNewPage _ =>
      next_page_id_ st' = next_page_id_ st ∨
      next_page_id_ st' = next_page_id_ st + 1
  | _ => next_page_id_ st' = next_page_id_ st
  end.
Proof.
  destruct op as [now|pid now|pid d|pid|pid]; cbn [pool_step];
    intros Hst; apply fmap_Some in Hst as ([res st1] & Hst & ->); cbn [snd].
  - destruct res as [[pid f]|].
    + apply NewPgImp_Some_iff in Hst
        as (_ & _ & st0 & t & p & r1 & r2 & Htf & _ & _ & _ & _ & ->).
      apply TakeFrame_inv in Htf as (Hnp & _). cbn [next_page_id_].
      right. rewrite Hnp. by destruct st.
    + apply NewPgImp_null_inv in Hst as [_ ->]. by left.
  - destruct res as [f|];
      [|by apply FetchPgImp_null_inv in Hst as (_ & _ & ->)].
    destruct (EHT.Find hash (page_table_ st) pid) as [f0|] eqn:Hfind.
    + destruct (page_at st f0) as [p|] eqn:Hp;
        [|unfold FetchPgImp in Hst; by rewrite Hfind, Hp in Hst].
      rewrite (FetchPgImp_hit_eq _ _ _ _ _ Hfind Hp) in Hst.
      destruct (LRUK.RecordAccess _ _ _) as [r1|]; [|done].
      cbn [mbind option_bind] in Hst.
      destruct (LRUK.SetEvictable _ _ _) as [r2|]; [|done].
      cbn [mbind option_bind] in Hst. by injection Hst as <- <-.
    + apply FetchPgImp_miss_full in Hst
        as (_ & st0 & t & p & r1 & r2 & Htf & _ & _ & _ & _ & ->); [|done].
      by apply TakeFrame_inv in Htf as (Hnp & _).
  - by apply UnpinPgImp_cases in Hst
      as [[_ ->]|(f & p & r' & _ & _ & _ & _ & _ & ->)].
  - by destruct (FlushPgImp_same _ _ _ _ Hst) as (_ & _ & _ & _ & ->).
  - by apply DeletePgImp_cases in Hst
      as [(_ & _ & ->)|(f & p & _ & _ &
            [(_ & _ & ->)|(_ & _ & r & b & t & _ & _ & ->)])].
Qed.

Lemma pool_run_next_page_id (calls : list PoolOp) (st st' : BufferPool) :
  pool_run hash fuel st calls = Some st' →
  next_page_id_ st ≤ next_page_id_ st'.
Proof.
  unfold pool_run. revert st.
  induction calls as [|op calls IH]; intros st; cbn [foldl].
  - intros [= <-]. lia.
  - cbn [mbind option_bind].
    destruct (pool_step hash fuel st op) as [st1|] eqn:Hst.
    + intros Hrun. specialize (IH _ Hrun).
      pose proof (pool_step_next_page_id _ _ _ Hst) as Hnp.
      destruct op; lia.
    + intros Hrun. exfalso. clear -Hrun.
      induction calls as [|o calls IH]; [done|]. by apply IH.
Qed.

(** X17: page ids are not handed out twice. A page id returned by
    [NewPgImp] is the value of [next_page_id_], which the call raises by
    one; no other call of the pool changes [next_page_id_]; hence a page id
    that [NewPgImp] returns after any further calls is larger than every id
    it returned before. *)
Theorem NewPgImp_page_ids_increase
    (st st1 st2 st3 : BufferPool) (calls : list PoolOp)
    (now now' pid f pid' f' : Z) :
  NewPgImp hash fuel st now = Some (Some (pid, f), st1) →
  pool_run hash fuel st1 calls = Some st2 →
  NewPgImp hash fuel st2 now' = Some (Some (pid', f'), st3) →
  pid = next_page_id_ st ∧ next_page_id_ st1 = pid + 1 ∧ pid < pid' ∧
  ∀ sa sb op, pool_step hash fuel sa op = Some sb →
    match op with
    | DoNewPage _ => True
    | _ => next_page_id_ sb = next_page_id_ sa
    end.
Proof.
  intros H1 Hrun H2.
  apply NewPgImp_Some_iff in H1
    as (_ & -> & s1 & t & p & r1 & r2 & Htf & _ & _ & _ & _ & ->).
  apply NewPgImp_Some_iff in H2 as (_ & -> & _).
  apply TakeFrame_inv in Htf as (Hnp & _).
  apply pool_run_next_page_id in Hrun. cbn [next_page_id_] in *.
  assert (next_page_id_ s1 = next_page_id_ st + 1) as Heq
    by (rewrite Hnp; by destruct st).
  split; [done|]. split; [done|]. split; [lia|].
  intros sa sb op Hst. pose proof (pool_step_next_page_id _ _ _ Hst).
  by destruct op.
Qed.

(** X18: a miss. When [FetchPgImp] of a page that the page table does not
    hold returns a frame, the frame holds the page with pin count 1 and the
    data that the disk has for the page (zeroes if the page was never
    written); [next_page_id_] is as before; the frame is the front of the
    free list if the list is not empty, and else the replacer's victim,
    whose frame is then clean. *)
Theorem FetchPgImp_miss_reads_disk
    (st st' : BufferPool) (page_id f now : Z) :
  EHT.Find hash (page_table_ st) page_id = None →
  FetchPgImp hash fuel st page_id now = Some (Some f, st') →
  (∃ q, page_at st' f = Some q ∧ page_id_ q = page_id ∧ pin_count_ q = 1 ∧
        data_ q = ReadPage st' page_id ∧
        (free_list_ st = [] → is_dirty_ q = false)) ∧
  next_page_id_ st' = next_page_id_ st ∧
  match free_list_ st with
  | f0 :: rest => f = f0 ∧ free_list_ st' = rest ∧ disk_ st' = disk_ st
  | [] => (LRUK.Evict (replacer_ st)).1 = Some f
  end.
Proof.
  intros Hfind Hfetch.
  apply FetchPgImp_miss_full in Hfetch
    as (_ & st1 & t & p & r1 & r2 & Htf & _ & Hp & _ & _ & ->); [|done].
  destruct (page_at_nonneg _ _ _ Hp) as [Hf Hlt].
  apply TakeFrame_inv in Htf as (Hnp & _ & Hcase).
  cbn [next_page_id_ free_list_ disk_].
  split; [|split; [done|]].
  - eexists. split.
    { unfold page_at. cbn [pages_]. destruct (Z.ltb_spec f 0); [lia|].
      by apply list_lookup_insert_eq. }
    cbn [page_id_ pin_count_ data_ is_dirty_].
    repeat split; try done. intros Hfl.
    destruct Hcase as [(rest & Hfl' & _)|Hcase]; [congruence|].
    destruct Hcase as (_ & rep & p' & b & _ & Hp' & _ & _ & _ & _ & _ & Hps).
    revert Hp. unfold page_at. destruct (Z.ltb_spec f 0); [lia|].
    rewrite Hps, list_lookup_insert_eq.
    + by intros [= <-].
    + rewrite Hps, length_insert in Hlt. done.
  - destruct Hcase as [(rest & -> & ->)|Hcase].
    + by destruct st.
    + destruct Hcase as (-> & rep & p' & b & -> & _). done.
Qed.

End BPM_more.

Section BPM_more_witnesses.

Import BPM.

Lemma evictable_frames_are_unpinned_witness :
  pool_run int_hash 8 (BufferPoolManagerInstance 1 2 4)
    [DoNewPage 1; DoUnpinPage 0 true] = Some pool1_dirty ∧
  (LRUK.Evict (replacer_ pool1_dirty)).1 = Some 0 ∧
  pins_nonneg pool1_dirty ∧
  (∀ (f : Z) (e : bool),
     LRUK.evitable_ (replacer_ pool1_dirty) !! f = Some e →
     ∃ p, page_at pool1_dirty f = Some p ∧
          if e then pin_count_ p = 0 else 0 < pin_count_ p) ∧
  (∀ f rep, LRUK.Evict (replacer_ pool1_dirty) = (Some f, rep) →
     ∃ p, page_at pool1_dirty f = Some p ∧ pin_count_ p = 0).
Proof.
  split; [vm_compute; reflexivity|]. split; [vm_compute; reflexivity|].
  apply (evictable_frames_are_unpinned int_hash 8 1 2 4
           [DoNewPage 1; DoUnpinPage 0 true] pool1_dirty).
  - lia.
  - vm_compute. reflexivity.
  - vm_compute. reflexivity.
Defined.

Lemma FetchPgImp_resident_page_witness :
  pool_run int_hash 8 (BufferPoolManagerInstance 1 2 4)
    [DoNewPage 1; DoUnpinPage 0 true] = Some pool1_dirty ∧
  EHT.Find int_hash (page_table_ pool1_dirty) 0 = Some 0 ∧
  page_at pool1_dirty 0 = Some (mkPage 0 0 true zero_data) ∧
  ∃ r2,
    FetchPgImp int_hash 8 pool1_dirty 0 3
    = Some (Some 0,
            mkPool (<[Z.to_nat 0 := mkPage 0 (0 + 1) true zero_data]>
                      (pages_ pool1_dirty))
                   (page_table_ pool1_dirty) r2 (free_list_ pool1_dirty)
                   (next_page_id_ pool1_dirty) (disk_ pool1_dirty)
                   (trace_ pool1_dirty)) ∧
    LRUK.evitable_ r2 !! 0 ≠ Some true ∧
    ∀ g, g ≠ 0 →
      LRUK.evitable_ r2 !! g
      = LRUK.evitable_ (replacer_ pool1_dirty) !! g.
Proof.
  split; [vm_compute; reflexivity|]. split; [vm_compute; reflexivity|].
  split; [vm_compute; reflexivity|].
  apply (FetchPgImp_resident_page int_hash 8 1 2 4
           [DoNewPage 1; DoUnpinPage 0 true] pool1_dirty 0 0 3
           (mkPage 0 0 true zero_data)).
  - lia.
  - vm_compute. reflexivity.
  - vm_compute. reflexivity.
  - vm_compute. reflexivity.
  - vm_compute. reflexivity.
Defined.

Lemma DeletePgImp_frees_frame_witness :
  pool_run int_hash 8 (BufferPoolManagerInstance 1 2 4)
    [DoNewPage 1; DoUnpinPage 0 true] = Some pool1_dirty ∧
  EHT.Find int_hash (page_table_ pool1_dirty) 0 = Some 0 ∧
  match EHT.Find int_hash (page_table_ pool1_dirty) 0 with
  | None => DeletePgImp int_hash pool1_dirty 0 = Some (true, pool1_dirty)
  | Some f =>
      ∀ p, page_at pool1_dirty f = Some p →
        if 0 <? pin_count_ p
        then DeletePgImp int_hash pool1_dirty 0 = Some (false, pool1_dirty)
        else
          ∃ st', DeletePgImp int_hash pool1_dirty 0 = Some (true, st') ∧
                 page_at st' f
                 = Some (mkPage INVALID_PAGE_ID 0 false zero_data) ∧
                 free_list_ st' = free_list_ pool1_dirty ++ [f] ∧
                 LRUK.frame_time_ (replacer_ st') !! f = None ∧
                 LRUK.evitable_ (replacer_ st') !! f = None ∧
                 disk_ st' = disk_ pool1_dirty ∧
                 next_page_id_ st' = next_page_id_ pool1_dirty
  end.
Proof.
  split; [vm_compute; reflexivity|]. split; [vm_compute; reflexivity|].
  apply (DeletePgImp_frees_frame int_hash 8 1 2 4
           [DoNewPage 1; DoUnpinPage 0 true] pool1_dirty 0).
  - lia.
  - vm_compute. reflexivity.
  - vm_compute. reflexivity.
Defined.

Lemma FlushAllPgsImp_writes_resident_pages_witness :
  FlushAllPgsImp int_hash pool1_dirty
  = Some (WritePage pool1_dirty 0 zero_data) ∧
  pages_ (WritePage pool1_dirty 0 zero_data) = pages_ pool1_dirty ∧
  disk_ (WritePage pool1_dirty 0 zero_data) !! 0 = Some zero_data.
Proof.
  split; [vm_compute; reflexivity|].
  pose proof (FlushAllPgsImp_writes_resident_pages int_hash pool1_dirty
                (WritePage pool1_dirty 0 zero_data)
                ltac:(vm_compute; reflexivity)) as (Hsame & Hall & _).
  split; [apply Hsame|].
  apply (Hall 0%nat (mkPage 0 0 true zero_data) 0
              (mkPage 0 0 true zero_data)).
  - vm_compute. reflexivity.
  - vm_compute. discriminate.
  - vm_compute. reflexivity.
  - vm_compute. reflexivity.
Defined.

Lemma NewPgImp_page_ids_increase_witness :
  NewPgImp int_hash 8 pool1 1 = Some (Some (0, 0), pool1_new) ∧
  pool_run int_hash 8 pool1_new [DoUnpinPage 0 true] = Some pool1_dirty ∧
  NewPgImp int_hash 8 pool1_dirty 3 = Some (Some (1, 0), pool1_second) ∧
  0 = next_page_id_ pool1 ∧ next_page_id_ pool1_new = 0 + 1 ∧ 0 < 1.
Proof.
  split; [vm_compute; reflexivity|]. split; [vm_compute; reflexivity|].
  split; [vm_compute; reflexivity|].
  pose proof (NewPgImp_page_ids_increase int_hash 8 pool1 pool1_new
                pool1_dirty pool1_second [DoUnpinPage 0 true] 1 3 0 0 1 0
                ltac:(vm_compute; reflexivity)
                ltac:(vm_compute; reflexivity)
                ltac:(vm_compute; reflexivity)) as (H1 & H2 & H3 & _).
  by repeat split.
Defined.

Lemma FetchPgImp_miss_reads_disk_witness :
  EHT.Find int_hash (page_table_ pool1_dirty) 7 = None ∧
  FetchPgImp int_hash 8 pool1_dirty 7 3 = Some (Some 0, pool1_fetch7) ∧
  page_at pool1_fetch7 0 = Some (mkPage 7 1 false zero_data) ∧
  disk_ pool1_fetch7 !! 0 = Some zero_data ∧
  (∃ q, page_at pool1_fetch7 0 = Some q ∧ page_id_ q = 7 ∧
        pin_count_ q = 1 ∧ data_ q = ReadPage pool1_fetch7 7 ∧
        (free_list_ pool1_dirty = [] → is_dirty_ q = false)) ∧
  next_page_id_ pool1_fetch7 = next_page_id_ pool1_dirty.
Proof.
  split; [vm_compute; reflexivity|]. split; [vm_compute; reflexivity|].
  split; [vm_compute; reflexivity|]. split; [vm_compute; reflexivity|].
  pose proof (FetchPgImp_miss_reads_disk int_hash 8 pool1_dirty pool1_fetch7
                7 0 3 ltac:(vm_compute; reflexivity)
                ltac:(vm_compute; reflexivity)) as (H1 & H2 & _).
  by split.
Defined.

End BPM_more_witnesses.
(** ** B+-tree: the empty tree, insertion into a leaf, the split of a root leaf *)

Section BPT_more.

Import BPT.

Variable internal_LowerBound : list (Z * Z) → Z → Z.
Variable internal_InsertAt : list (Z * Z) → Z → Z → Z → list (Z * Z).
Variable internal_Split :
  list (Z * Z) → Z → Z → list (Z * Z) * list (Z * Z).
Variable leaf_Remove : TreePage → Z → bool * TreePage.

Local Abbreviation Insert :=
  (Insert internal_LowerBound internal_InsertAt internal_Split).
Local Abbreviation InsertPessimistic :=
  (InsertPessimistic internal_LowerBound internal_InsertAt internal_Split).
Local Abbreviation Remove := (Remove leaf_Remove).

(** *** The search inside a leaf *)

(** [leaf_GetValue] on the array. *)
Local Abbreviation get := (λ (a : list (Z * Z)) (key : Z),
  match a !! lower_bound a key with
  | Some (k, v) => if k =? key then Some v else None
  | None => None
  end).

Lemma get_cons (k0 v0 : Z) (r : list (Z * Z)) (key : Z) :
  get ((k0, v0) :: r) key
  = if k0 <? key then get r key
    else if k0 =? key then Some v0 else None.
Proof. cbn [lower_bound]. by destruct (k0 <? key). Qed.

Lemma get_inserted (a : list (Z * Z)) (key value : Z) :
  get (take (lower_bound a key) a ++ (key, value)
         :: drop (lower_bound a key) a) key = Some value.
Proof.
  induction a as [|[k0 v0] r IH].
  - cbn [lower_bound take drop app]. rewrite Z.ltb_irrefl.
    cbn [lookup list_lookup]. by rewrite Z.eqb_refl.
  - cbn [lower_bound]. destruct (k0 <? key) eqn:Hlt.
    + cbn [take drop app]. rewrite get_cons, Hlt. exact IH.
    + cbn [take drop app]. rewrite get_cons.
      by rewrite Z.ltb_irrefl, Z.eqb_refl.
Qed.

Lemma get_insert_other (a : list (Z * Z)) (key value key' : Z) :
  key' ≠ key →
  get (take (lower_bound a key) a ++ (key, value)
         :: drop (lower_bound a key) a) key' = get a key'.
Proof.
  intros Hne. induction a as [|[k0 v0] r IH].
  - cbn [lower_bound take drop app].
    destruct (key <? key'); cbn [lookup list_lookup]; [done|].
    by destruct (Z.eqb_spec key key').
  - rewrite (get_cons k0 v0 r key').
    cbn [lower_bound]. destruct (Z.ltb_spec k0 key) as [Hlt|Hge].
    + cbn [take drop app]. rewrite get_cons.
      destruct (k0 <? key'); [exact IH|done].
    + cbn [take drop app]. rewrite (get_cons key).
      destruct (Z.ltb_spec key key') as [Hk|Hk].
      { by rewrite (get_cons k0 v0 r key'). }
      destruct (Z.eqb_spec key key') as [?|_]; [done|].
      destruct (Z.ltb_spec k0 key'); [lia|].
      destruct (Z.eqb_spec k0 key'); [lia|done].
Qed.

Lemma lower_bound_le (a : list (Z * Z)) (key : Z) :
  (lower_bound a key ≤ length a)%nat.
Proof.
  induction a as [|[k0 v0] r IH]; cbn [lower_bound length]; [lia|].
  destruct (k0 <? key); lia.
Qed.

(** [leaf_Insert] of a key that the leaf does not hold. *)
Lemma leaf_Insert_absent (n : TreePage) (key value : Z) :
  leaf_GetValue n key = None →
  leaf_Insert n key value
  = (true, set_array n (take (lower_bound (array_ n) key) (array_ n)
                          ++ (key, value)
                          :: drop (lower_bound (array_ n) key) (array_ n))).
Proof.
  unfold leaf_GetValue, leaf_Insert.
  destruct (array_ n !! lower_bound (array_ n) key) as [[k v]|] eqn:Hl.
  - by destruct (k =? key).
  - intros _. f_equal. f_equal.
    apply lookup_ge_None in Hl. pose proof (lower_bound_le (array_ n) key).
    rewrite take_ge, drop_ge by lia. done.
Qed.

(** *** The descent after a write to a leaf *)

Lemma descend_store_leaf (fuel : nat) (t : BPlusTree) (at_ a key : Z)
    (n n' : TreePage) :
  pages_ t !! at_ = Some n → is_leaf_ n = true → is_leaf_ n' = true →
  parent_page_id_ n' = parent_page_id_ n →
  descend fuel (store t at_ n') a key = descend fuel t a key.
Proof.
  intros Hn Hleaf Hleaf' Hparent. revert a.
  assert (Hlook : ∀ x, pages_ (store t at_ n') !! x
                       = if decide (x = at_) then Some n' else pages_ t !! x).
  { intros x. unfold store, set_pages. cbn [pages_].
    destruct (decide (x = at_)) as [->|Hne].
    - apply lookup_insert_eq.
    - by apply lookup_insert_ne. }
  induction fuel as [|fuel IH]; intros a; cbn [descend]; rewrite Hlook.
  - destruct (decide (a = at_)) as [->|Hne].
    + rewrite Hn. cbn [mbind option_bind]. by rewrite Hleaf, Hleaf'.
    + done.
  - destruct (decide (a = at_)) as [->|Hne].
    + rewrite Hn. cbn [mbind option_bind]. by rewrite Hleaf, Hleaf'.
    + destruct (pages_ t !! a) as [node|]; [|done]. cbn [mbind option_bind].
      destruct (is_leaf_ node); [done|].
      destruct (array_ node !! _) as [[k child]|]; [|done].
      cbn [mbind option_bind]. rewrite Hlook.
      destruct (decide (child = at_)) as [->|Hc].
      * rewrite Hn. cbn [mbind option_bind]. rewrite Hparent.
        destruct (_ =? _); [|done]. apply IH.
      * destruct (pages_ t !! child) as [next|]; [|done].
        cbn [mbind option_bind]. destruct (_ =? _); [|done]. apply IH.
Qed.

Lemma descend_leaf (fuel : nat) (t : BPlusTree) (a key at_ : Z) :
  descend fuel t a key = Some at_ →
  ∃ n, pages_ t !! at_ = Some n ∧ is_leaf_ n = true.
Proof.
  revert a. induction fuel as [|fuel IH]; intros a; cbn [descend].
  - destruct (pages_ t !! a) as [node|] eqn:Hn; [|done].
    cbn [mbind option_bind]. destruct (is_leaf_ node) eqn:Hl; [|done].
    intros [= <-]. by exists node.
  - destruct (pages_ t !! a) as [node|] eqn:Hn; [|done].
    cbn [mbind option_bind]. destruct (is_leaf_ node) eqn:Hl.
    + intros [= <-]. by exists node.
    + destruct (array_ node !! _) as [[k child]|]; [|done].
      cbn [mbind option_bind].
      destruct (pages_ t !! child) as [next|]; [|done].
      cbn [mbind option_bind]. destruct (_ =? _); [|done]. apply IH.
Qed.

(** [GetValue] of a tree that is not empty. *)
Lemma GetValue_nonempty (fuel : nat) (t : BPlusTree) (key : Z) :
  IsEmpty t = false →
  GetValue fuel t key
  = at_ ← descend fuel t (root_page_id_ t) key;
    leaf_node ← pages_ t !! at_;
    Some (leaf_GetValue leaf_node key).
Proof.
  intros He. unfold GetValue, FindLeafPage. rewrite He.
  by destruct (descend fuel t (root_page_id_ t) key).
Qed.

(** [FindLeafPage] for an insertion: the tree is not empty afterwards, the
    page returned is the leaf that the descent from the root reaches, and
    the lookups are those of the tree before. *)
Lemma FindLeafPage_INSERT_inv (fuel : nat) (t t1 : BPlusTree) (key at_ : Z) :
  0 ≤ alloc_ t →
  FindLeafPage fuel t key INSERT = Some (Some at_, t1) →
  IsEmpty t1 = false ∧
  descend fuel t1 (root_page_id_ t1) key = Some at_ ∧
  ∀ key', GetValue fuel t1 key' = GetValue fuel t key'.
Proof.
  intros Halloc. unfold FindLeafPage.
  destruct (IsEmpty t) eqn:He.
  - unfold NewLeafRootPage, new_page, set_root. intros [= <- <-].
    assert (Hne : IsEmpty
      (mkTree (alloc_ t) (leaf_max_size_ t) (internal_max_size_ t)
         (right_most_ t)
         (<[alloc_ t := mkTreePage true (alloc_ t) INVALID_PAGE_ID
                          (leaf_max_size_ t) INVALID_PAGE_ID []]> (pages_ t))
         (alloc_ t + 1)) = false).
    { unfold IsEmpty, INVALID_PAGE_ID. cbn [root_page_id_]. lia. }
    cbn [root_page_id_ leaf_max_size_ internal_max_size_ right_most_ pages_
         alloc_].
    split; [exact Hne|]. split.
    + destruct fuel; cbn [descend pages_]; rewrite lookup_insert_eq; done.
    + intros key'. rewrite (GetValue_nonempty _ _ _ Hne).
      cbn [root_page_id_ pages_].
      assert (Hd : descend fuel
        (mkTree (alloc_ t) (leaf_max_size_ t) (internal_max_size_ t)
           (right_most_ t)
           (<[alloc_ t := mkTreePage true (alloc_ t) INVALID_PAGE_ID
                            (leaf_max_size_ t) INVALID_PAGE_ID []]>
              (pages_ t))
           (alloc_ t + 1)) (alloc_ t) key' = Some (alloc_ t)).
      { destruct fuel; cbn [descend pages_]; rewrite lookup_insert_eq; done. }
      rewrite Hd. cbn [mbind option_bind]. rewrite lookup_insert_eq.
      cbn [mbind option_bind]. unfold GetValue, FindLeafPage. by rewrite He.
  - destruct (descend fuel t (root_page_id_ t) key) as [leaf|] eqn:Hd;
      [|done].
    cbn [mbind option_bind]. intros [= <- <-]. done.
Qed.

(** X19: the empty tree. On a tree without a root, [GetValue] finds
    nothing and [Remove] changes nothing; [Insert] (leaf size above 0)
    makes the page that the pool hands out the root, a leaf that holds the
    one pair, and the key is found afterwards. *)
Theorem empty_tree_operations (fuel : nat) (t : BPlusTree) (key value : Z) :
  IsEmpty t = true →
  GetValue fuel t key = Some None ∧
  Remove fuel t key = Some t ∧
  (0 < leaf_max_size_ t → 0 ≤ alloc_ t →
   ∃ t', Insert fuel t key value = Some (true, t') ∧
         root_page_id_ t' = alloc_ t ∧ alloc_ t' = alloc_ t + 1 ∧
         pages_ t' !! alloc_ t
         = Some (mkTreePage true (alloc_ t) INVALID_PAGE_ID
                   (leaf_max_size_ t) INVALID_PAGE_ID [(key, value)]) ∧
         IsEmpty t' = false ∧
         GetValue fuel t' key = Some (Some value)).
Proof.
  intros He. split; [|split].
  - unfold GetValue, FindLeafPage. by rewrite He.
  - unfold BPT.Remove, FindLeafPage. by rewrite He.
  - intros Hmax Halloc.
    unfold BPT.Insert, FindLeafPage. rewrite He.
    unfold NewLeafRootPage, new_page, set_root. cbn [mbind option_bind].
    cbn [pages_]. rewrite lookup_insert_eq. cbn [mbind option_bind].
    unfold IsSafe, GetSize. cbn [array_ max_size_ length].
    destruct (Z.ltb_spec (Z.of_nat 0) (leaf_max_size_ t)) as [_|]; [|lia].
    unfold leaf_Insert. cbn [array_ lower_bound lookup list_lookup app].
    eexists. split; [reflexivity|].
    unfold store, set_pages, set_array.
    cbn [root_page_id_ alloc_ pages_ is_leaf_ page_id_ parent_page_id_
         max_size_ next_page_id_ leaf_max_size_ internal_max_size_
         right_most_].
    rewrite insert_insert_eq, lookup_insert_eq.
    split; [done|]. split; [done|]. split; [done|].
    assert (Hne : ∀ ps, IsEmpty
      (mkTree (alloc_ t) (leaf_max_size_ t) (internal_max_size_ t)
         (right_most_ t) ps (alloc_ t + 1)) = false).
    { intros ps. unfold IsEmpty, INVALID_PAGE_ID. cbn [root_page_id_]. lia. }
    split; [apply Hne|].
    rewrite (GetValue_nonempty _ _ _ (Hne _)). cbn [root_page_id_].
    assert (Hd : ∀ k, descend fuel
      (mkTree (alloc_ t) (leaf_max_size_ t) (internal_max_size_ t)
         (right_most_ t)
         (<[alloc_ t := mkTreePage true (alloc_ t) INVALID_PAGE_ID
                          (leaf_max_size_ t) INVALID_PAGE_ID [(key, value)]]>
            (pages_ t))
         (alloc_ t + 1)) (alloc_ t) k = Some (alloc_ t)).
    { intros k. destruct fuel; cbn [descend pages_];
        rewrite lookup_insert_eq; done. }
    rewrite Hd. cbn [mbind option_bind pages_]. rewrite lookup_insert_eq.
    cbn [mbind option_bind]. unfold leaf_GetValue.
    cbn [array_ lower_bound]. rewrite Z.ltb_irrefl.
    cbn [lookup list_lookup]. by rewrite Z.eqb_refl.
Qed.

(** X21: insertion into a leaf with room. When the leaf found for the key
    is safe for an insertion and does not hold the key, [Insert] returns
    [true] after the optimistic attempt: the key is found with its value
    afterwards, every other key is found as before, and the root and the
    next page to allocate are those left by [FindLeafPage] (no page is
    added). *)
Theorem Insert_into_leaf_with_room
    (fuel : nat) (t t1 : BPlusTree) (key value at_ : Z) (leaf : TreePage) :
  0 ≤ alloc_ t →
  FindLeafPage fuel t key INSERT = Some (Some at_, t1) →
  pages_ t1 !! at_ = Some leaf →
  IsSafe leaf INSERT = true →
  leaf_GetValue leaf key = None →
  ∃ t', Insert fuel t key value = Some (true, t') ∧
        GetValue fuel t' key = Some (Some value) ∧
        (∀ key', key' ≠ key → GetValue fuel t' key' = GetValue fuel t key') ∧
        root_page_id_ t' = root_page_id_ t1 ∧ alloc_ t' = alloc_ t1.
Proof.
  intros Halloc Hfind Hleaf Hsafe Habsent.
  destruct (FindLeafPage_INSERT_inv _ _ _ _ _ Halloc Hfind)
    as (Hne & Hd & Hget).
  destruct (descend_leaf _ _ _ _ _ Hd) as (n & Hn & Hisleaf).
  rewrite Hleaf in Hn. injection Hn as <-.
  set (arr := take (lower_bound (array_ leaf) key) (array_ leaf)
              ++ (key, value) :: drop (lower_bound (array_ leaf) key)
                                   (array_ leaf)).
  exists (store t1 at_ (set_array leaf arr)).
  assert (Hne' : IsEmpty (store t1 at_ (set_array leaf arr)) = false)
    by exact Hne.
  assert (Hdesc : ∀ a k, descend fuel (store t1 at_ (set_array leaf arr)) a k
                         = descend fuel t1 a k).
  { intros a k. by apply (descend_store_leaf fuel t1 at_ a k leaf). }
  split; [|split; [|split; [|done]]].
  - unfold BPT.Insert. rewrite Hfind. cbn [mbind option_bind].
    rewrite Hleaf. cbn [mbind option_bind]. rewrite Hsafe.
    by rewrite (leaf_Insert_absent _ _ _ Habsent).
  - rewrite (GetValue_nonempty _ _ _ Hne'), Hdesc.
    change (root_page_id_ (store t1 at_ (set_array leaf arr)))
      with (root_page_id_ t1).
    rewrite Hd. cbn [mbind option_bind].
    unfold store, set_pages. cbn [pages_]. rewrite lookup_insert_eq.
    cbn [mbind option_bind]. unfold leaf_GetValue, set_array. cbn [array_].
    f_equal. apply get_inserted.
  - intros key' Hk. rewrite <- Hget.
    rewrite (GetValue_nonempty _ _ _ Hne'), (GetValue_nonempty _ _ _ Hne).
    rewrite Hdesc.
    change (root_page_id_ (store t1 at_ (set_array leaf arr)))
      with (root_page_id_ t1).
    destruct (descend fuel t1 (root_page_id_ t1) key') as [a|]; [|done].
    cbn [mbind option_bind]. unfold store, set_pages. cbn [pages_].
    destruct (decide (a = at_)) as [->|Ha].
    + rewrite lookup_insert_eq, Hleaf. cbn [mbind option_bind].
      unfold leaf_GetValue, set_array. cbn [array_]. f_equal.
      by apply get_insert_other.
    + by rewrite lookup_insert_ne.
Qed.

(** *** The split of a root leaf *)

(** A sorted array searched through its two halves: the keys from the key
    of position [m] on are in the upper half, the others in the lower. *)
Lemma get_split (a : list (Z * Z)) (m : nat) (key0 v0 key : Z) :
  StronglySorted (λ x y : Z * Z, x.1 < y.1) a →
  a !! m = Some (key0, v0) →
  get a key = if key0 <=? key then get (drop m a) key else get (take m a) key.
Proof.
  intros Hs. revert m. induction Hs as [|[k1 v1] r Hs IH Hall]; intros m Hm.
  - done.
  - destruct m as [|m].
    + injection Hm as -> ->. cbn [drop take].
      destruct (Z.leb_spec key0 key) as [Hle|Hgt]; [done|].
      rewrite (get_cons key0 v0 r key).
      destruct (Z.ltb_spec key0 key); [lia|].
      destruct (Z.eqb_spec key0 key); [lia|done].
    + cbn [lookup list_lookup] in Hm.
      change ((k1, v1) :: r) with ([(k1, v1)] ++ r) in Hm.
      assert (Hlt : k1 < key0).
      { rewrite Forall_forall in Hall.
        apply (Hall (key0, v0)), (list_elem_of_lookup_2 _ m).
        by destruct m. }
      assert (Hm' : r !! m = Some (key0, v0)) by (by destruct m).
      cbn [drop take]. rewrite (get_cons k1 v1 r key).
      rewrite (get_cons k1 v1 (take m r) key).
      specialize (IH m Hm').
      destruct (Z.leb_spec key0 key) as [Hle|Hgt].
      * destruct (Z.ltb_spec k1 key); [exact IH|lia].
      * destruct (k1 <? key); [exact IH|done].
Qed.

(** The pair goes into a sorted array without breaking the order, when the
    array does not hold the key. *)
Lemma sorted_inserted (a : list (Z * Z)) (key value : Z) :
  StronglySorted (λ x y : Z * Z, x.1 < y.1) a →
  get a key = None →
  StronglySorted (λ x y : Z * Z, x.1 < y.1)
    (take (lower_bound a key) a ++ (key, value)
       :: drop (lower_bound a key) a).
Proof.
  intros Hs. induction Hs as [|[k1 v1] r Hs IH Hall]; intros Habs.
  - cbn [lower_bound take drop app]. repeat constructor.
  - rewrite (get_cons k1 v1 r key) in Habs. cbn [lower_bound].
    destruct (Z.ltb_spec k1 key) as [Hlt|Hge].
    + cbn [take drop app]. constructor; [by apply IH|].
      apply Forall_app. split.
      * by apply Forall_take.
      * constructor; [done|]. by apply Forall_drop.
    + destruct (Z.eqb_spec k1 key) as [|Hne]; [done|].
      cbn [take drop app]. constructor; [by constructor|].
      constructor; [cbn; lia|].
      eapply Forall_impl; [exact Hall|]. intros [k2 v2]. cbn. lia.
Qed.

(** [InsertInParent] at the root: a new internal root over the two
    nodes. *)
Lemma InsertInParent_root (fuel : nat) (t : BPlusTree)
    (left_at right_at key value : Z) (left_node right_node : TreePage) :
  pages_ t !! left_at = Some left_node →
  pages_ t !! right_at = Some right_node →
  IsRootPage left_node = true →
  InsertInParent internal_LowerBound internal_InsertAt internal_Split
    fuel t left_at right_at key value
  = Some (mkTree (alloc_ t) (leaf_max_size_ t) (internal_max_size_ t)
            (right_most_ t)
            (<[right_at := SetParentPageId right_node (alloc_ t)]>
               (<[left_at := SetParentPageId left_node (alloc_ t)]>
                  (<[alloc_ t :=
                       mkTreePage false (alloc_ t) INVALID_PAGE_ID
                         (internal_max_size_ t) INVALID_PAGE_ID
                         [(0, page_id_ left_node);
                          (key, page_id_ right_node)]]> (pages_ t))))
            (alloc_ t + 1)).
Proof.
  intros Hl Hr Hroot.
  destruct fuel; cbn [InsertInParent]; rewrite Hl; cbn [mbind option_bind];
    rewrite Hr; cbn [mbind option_bind]; rewrite Hroot;
    unfold NewInternalRootPage, new_page, set_root;
    cbn [pages_ alloc_ root_page_id_ leaf_max_size_ internal_max_size_
         right_most_];
    rewrite lookup_insert_eq; cbn [mbind option_bind];
    unfold store, set_pages, set_array;
    cbn [pages_ alloc_ root_page_id_ leaf_max_size_ internal_max_size_
         right_most_ is_leaf_ page_id_ parent_page_id_ max_size_
         next_page_id_];
    by rewrite insert_insert_eq.
Qed.

(** The lookups of a tree whose root is an internal page over two
    leaves. *)
Lemma GetValue_two_leaves (fuel : nat) (t : BPlusTree)
    (root_node left_node right_node : TreePage) (l r key0 k0 key : Z) :
  root_page_id_ t ≠ INVALID_PAGE_ID →
  pages_ t !! root_page_id_ t = Some root_node →
  is_leaf_ root_node = false →
  page_id_ root_node = root_page_id_ t →
  array_ root_node = [(k0, l); (key0, r)] →
  pages_ t !! l = Some left_node → is_leaf_ left_node = true →
  parent_page_id_ left_node = root_page_id_ t →
  pages_ t !! r = Some right_node → is_leaf_ right_node = true →
  parent_page_id_ right_node = root_page_id_ t →
  GetValue (S fuel) t key
  = Some (if key0 <=? key then leaf_GetValue right_node key
          else leaf_GetValue left_node key).
Proof.
  intros Hne Hroot Hint Hid Harr Hl Hll Hlp Hr Hrl Hrp.
  rewrite GetValue_nonempty
    by (unfold IsEmpty; by destruct (Z.eqb_spec (root_page_id_ t)
                                       INVALID_PAGE_ID)).
  cbn [descend]. rewrite Hroot. cbn [mbind option_bind]. rewrite Hint.
  unfold internal_Search. rewrite Harr. cbn [tail search_from].
  destruct (key0 <=? key); cbn [lookup list_lookup mbind option_bind].
  - rewrite Hr. cbn [mbind option_bind]. rewrite Hrp, Hid, Z.eqb_refl.
    destruct fuel; cbn [descend]; rewrite Hr; cbn [mbind option_bind];
      rewrite Hrl; cbn [mbind option_bind]; by rewrite Hr.
  - rewrite Hl. cbn [mbind option_bind]. rewrite Hlp, Hid, Z.eqb_refl.
    destruct fuel; cbn [descend]; rewrite Hl; cbn [mbind option_bind];
      rewrite Hll; cbn [mbind option_bind]; by rewrite Hl.
Qed.

(** X22: the split of a root leaf keeps the lookups. When the root is a
    leaf with sorted keys that is not safe for an insertion and does not
    hold the key, [Insert] returns [true] through [InsertPessimistic]: the
    two pages handed out by the pool become the right sibling and the new
    internal root, the old leaf keeps the lower half of the pairs and the
    sibling gets the upper half, and afterwards the key is found with its
    value and every other key is found exactly as before. *)
Theorem root_leaf_split_keeps_lookups
    (fuel : nat) (t : BPlusTree) (leaf : TreePage) (key value : Z) :
  0 ≤ root_page_id_ t < alloc_ t →
  pages_ t !! root_page_id_ t = Some leaf →
  is_leaf_ leaf = true →
  page_id_ leaf = root_page_id_ t →
  parent_page_id_ leaf = INVALID_PAGE_ID →
  StronglySorted (λ x y : Z * Z, x.1 < y.1) (array_ leaf) →
  IsSafe leaf INSERT = false →
  leaf_GetValue leaf key = None →
  ∃ t' arr,
    Insert fuel t key value = Some (true, t') ∧
    (leaf_Insert leaf key value).2 = set_array leaf arr ∧
    root_page_id_ t' = alloc_ t + 1 ∧ alloc_ t' = alloc_ t + 2 ∧
    array_ <$> pages_ t' !! root_page_id_ t
    = Some (take (length arr / 2) arr) ∧
    array_ <$> pages_ t' !! alloc_ t = Some (drop (length arr / 2) arr) ∧
    GetValue (S fuel) t' key = Some (Some value) ∧
    ∀ key', key' ≠ key → GetValue (S fuel) t' key' = GetValue fuel t key'.
Proof.
  intros Hids Hleaf Hisleaf Hpid Hparent Hsorted Hfull Habsent.
  set (arr := take (lower_bound (array_ leaf) key) (array_ leaf)
              ++ (key, value) :: drop (lower_bound (array_ leaf) key)
                                   (array_ leaf)).
  assert (Hne : IsEmpty t = false).
  { unfold IsEmpty, INVALID_PAGE_ID. lia. }
  assert (Hdesc : ∀ k, descend fuel t (root_page_id_ t) k = Some (root_page_id_ t)).
  { intros k. destruct fuel; cbn [descend]; rewrite Hleaf;
      cbn [mbind option_bind]; by rewrite Hisleaf. }
  assert (Hfind : FindLeafPage fuel t key INSERT = Some (Some (root_page_id_ t), t)).
  { unfold FindLeafPage. rewrite Hne. by rewrite Hdesc. }
  assert (Hold : ∀ k, GetValue fuel t k = Some (leaf_GetValue leaf k)).
  { intros k. rewrite (GetValue_nonempty _ _ _ Hne).
    rewrite Hdesc. cbn [mbind option_bind]. by rewrite Hleaf. }
  assert (Hlen : (length arr / 2 < length arr)%nat).
  { assert (0 < length arr)%nat.
    { unfold arr. rewrite length_app. cbn [length]. lia. }
    apply Nat.div_lt; lia. }
  destruct (lookup_lt_is_Some_2 arr (length arr / 2) Hlen)
    as [[key0 v0] Hkey0].
  assert (Hsorted' : StronglySorted (λ x y : Z * Z, x.1 < y.1) arr).
  { by apply sorted_inserted. }
  set (left_node := mkTreePage true (page_id_ leaf) (alloc_ t + 1)
                      (max_size_ leaf) (next_page_id_ leaf)
                      (take (length arr / 2) arr)).
  set (right_node := mkTreePage true (alloc_ t) (alloc_ t + 1)
                       (leaf_max_size_ t) (next_page_id_ leaf)
                       (drop (length arr / 2) arr)).
  set (root_node := mkTreePage false (alloc_ t + 1) INVALID_PAGE_ID
                      (internal_max_size_ t) INVALID_PAGE_ID
                      [(0, page_id_ leaf); (key0, alloc_ t)]).
  assert (Hins : ∃ t', Insert fuel t key value = Some (true, t') ∧
    root_page_id_ t' = alloc_ t + 1 ∧ alloc_ t' = alloc_ t + 2 ∧
    pages_ t' !! (root_page_id_ t) = Some left_node ∧
    pages_ t' !! alloc_ t = Some right_node ∧
    pages_ t' !! (alloc_ t + 1) = Some root_node).
  { unfold BPT.Insert. rewrite Hfind. cbn [mbind option_bind].
    rewrite Hleaf. cbn [mbind option_bind]. rewrite Hfull.
    unfold BPT.InsertPessimistic. rewrite Hfind. cbn [mbind option_bind].
    rewrite Hleaf. cbn [mbind option_bind]. rewrite Hfull.
    rewrite (leaf_Insert_absent _ _ _ Habsent). fold arr. cbn [negb].
    unfold NewLeafPage, new_page, store, set_pages.
    cbn [pages_ alloc_ root_page_id_ leaf_max_size_ internal_max_size_
         right_most_].
    rewrite lookup_insert_eq. cbn [mbind option_bind].
    unfold leaf_Split, link_sibling, SetNextPageId, set_array.
    cbn [is_leaf_ page_id_ parent_page_id_ max_size_ next_page_id_ array_
         pages_ alloc_ root_page_id_ leaf_max_size_ internal_max_size_
         right_most_].
    rewrite lookup_drop, Nat.add_0_r, Hkey0. cbn [mbind option_bind].
    assert (Hroot : IsRootPage
      (mkTreePage (is_leaf_ leaf) (page_id_ leaf) (parent_page_id_ leaf)
         (max_size_ leaf) (next_page_id_ leaf) (take (length arr / 2) arr))
      = true).
    { unfold IsRootPage. cbn [parent_page_id_]. rewrite Hparent. done. }
    destruct (right_most_ t =? page_id_ leaf).
    all: erewrite InsertInParent_root;
      [|unfold set_right_most; cbn [pages_];
        rewrite lookup_insert_ne by lia;
        apply lookup_insert_eq
       |unfold set_right_most; cbn [pages_]; apply lookup_insert_eq
       |exact Hroot].
    all: cbn [mbind option_bind]; eexists; split; [reflexivity|].
    all: unfold set_right_most, SetParentPageId;
      cbn [is_leaf_ page_id_ parent_page_id_ max_size_ next_page_id_ array_
           pages_ alloc_ root_page_id_ leaf_max_size_ internal_max_size_
           right_most_].
    all: split; [done|]; split; [lia|].
    all: rewrite Hisleaf, Hparent.
    all: split; [|split].
    all: try (rewrite lookup_insert_ne by lia; by rewrite lookup_insert_eq).
    all: try (by rewrite lookup_insert_eq).
    all: rewrite lookup_insert_ne by lia;
      rewrite lookup_insert_ne by lia;
      by rewrite lookup_insert_eq. }
  destruct Hins as (t' & Hrun & Hroot' & Halloc' & Hl & Hr & Hrootn).
  exists t', arr.
  assert (Hlook : ∀ k, GetValue (S fuel) t' k
    = Some (if key0 <=? k then leaf_GetValue right_node k
            else leaf_GetValue left_node k)).
  { intros k.
    apply (GetValue_two_leaves fuel t' root_node left_node right_node
             (root_page_id_ t) (alloc_ t) key0 0 k).
    - rewrite Hroot'. unfold INVALID_PAGE_ID. lia.
    - by rewrite Hroot'.
    - done.
    - by rewrite Hroot'.
    - unfold root_node. cbn [array_]. by rewrite Hpid.
    - done.
    - done.
    - by rewrite Hroot'.
    - done.
    - done.
    - by rewrite Hroot'. }
  assert (Hget : ∀ k, GetValue (S fuel) t' k = Some (get arr k)).
  { intros k. rewrite Hlook. f_equal.
    rewrite (get_split arr (length arr / 2) key0 v0 k Hsorted' Hkey0).
    by destruct (key0 <=? k). }
  split; [exact Hrun|].
  split; [by rewrite (leaf_Insert_absent _ _ _ Habsent)|].
  split; [done|]. split; [done|].
  split; [by rewrite Hl|]. split; [by rewrite Hr|].
  split.
  - rewrite Hget. f_equal. apply get_inserted.
  - intros key' Hk. rewrite Hget, Hold. f_equal.
    by apply get_insert_other.
Qed.

End BPT_more.

Section BPT_more_witnesses.

Import BPT.

Lemma empty_tree_operations_witness :
  IsEmpty (BPlusTree_new 3 3 1) = true ∧
  0 < leaf_max_size_ (BPlusTree_new 3 3 1) ∧
  0 ≤ alloc_ (BPlusTree_new 3 3 1) ∧
  ∀ lb ia sp lr,
    GetValue 5 (BPlusTree_new 3 3 1) 7 = Some None ∧
    Remove lr 5 (BPlusTree_new 3 3 1) 7 = Some (BPlusTree_new 3 3 1) ∧
    ∃ t', Insert lb ia sp 5 (BPlusTree_new 3 3 1) 7 70 = Some (true, t') ∧
          root_page_id_ t' = 1 ∧ GetValue 5 t' 7 = Some (Some 70).
Proof.
  split; [reflexivity|]. split; [reflexivity|]. split; [discriminate|].
  intros lb ia sp lr.
  destruct (empty_tree_operations lb ia sp lr 5 (BPlusTree_new 3 3 1) 7 70
              eq_refl) as (Hget & Hrem & Hins).
  split; [exact Hget|]. split; [exact Hrem|].
  destruct (Hins eq_refl ltac:(discriminate))
    as (t' & Hrun & Hroot & _ & _ & _ & Hfound).
  exists t'. split; [exact Hrun|]. split; [exact Hroot|exact Hfound].
Defined.

Lemma Insert_into_leaf_with_room_witness :
  0 ≤ alloc_ tree_1234 ∧
  FindLeafPage 5 tree_1234 5 INSERT = Some (Some 2, tree_1234) ∧
  pages_ tree_1234 !! 2
  = Some (mkTreePage true 2 3 3 INVALID_PAGE_ID [(3, 13); (4, 14)]) ∧
  IsSafe (mkTreePage true 2 3 3 INVALID_PAGE_ID [(3, 13); (4, 14)]) INSERT
  = true ∧
  leaf_GetValue (mkTreePage true 2 3 3 INVALID_PAGE_ID [(3, 13); (4, 14)]) 5
  = None ∧
  ∀ lb ia sp,
    ∃ t', Insert lb ia sp 5 tree_1234 5 15 = Some (true, t') ∧
          GetValue 5 t' 5 = Some (Some 15) ∧
          (∀ key', key' ≠ 5 → GetValue 5 t' key' = GetValue 5 tree_1234 key') ∧
          root_page_id_ t' = root_page_id_ tree_1234 ∧
          alloc_ t' = alloc_ tree_1234.
Proof.
  split; [discriminate|]. split; [vm_compute; reflexivity|].
  split; [vm_compute; reflexivity|]. split; [reflexivity|].
  split; [reflexivity|].
  intros lb ia sp.
  apply (Insert_into_leaf_with_room lb ia sp 5 tree_1234 tree_1234 5 15 2
           (mkTreePage true 2 3 3 INVALID_PAGE_ID [(3, 13); (4, 14)])).
  - discriminate.
  - vm_compute. reflexivity.
  - vm_compute. reflexivity.
  - reflexivity.
  - reflexivity.
Defined.

Lemma root_leaf_split_keeps_lookups_witness :
  0 ≤ root_page_id_ tree_123 < alloc_ tree_123 ∧
  pages_ tree_123 !! root_page_id_ tree_123
  = Some (mkTreePage true 1 INVALID_PAGE_ID 3 INVALID_PAGE_ID
            [(1, 11); (2, 12); (3, 13)]) ∧
  StronglySorted (λ x y : Z * Z, x.1 < y.1) [(1, 11); (2, 12); (3, 13)] ∧
  IsSafe (mkTreePage true 1 INVALID_PAGE_ID 3 INVALID_PAGE_ID
            [(1, 11); (2, 12); (3, 13)]) INSERT = false ∧
  leaf_GetValue (mkTreePage true 1 INVALID_PAGE_ID 3 INVALID_PAGE_ID
                   [(1, 11); (2, 12); (3, 13)]) 4 = None ∧
  ∀ lb ia sp,
    ∃ t' arr,
      Insert lb ia sp 5 tree_123 4 14 = Some (true, t') ∧
      (leaf_Insert (mkTreePage true 1 INVALID_PAGE_ID 3 INVALID_PAGE_ID
                      [(1, 11); (2, 12); (3, 13)]) 4 14).2
      = set_array (mkTreePage true 1 INVALID_PAGE_ID 3 INVALID_PAGE_ID
                     [(1, 11); (2, 12); (3, 13)]) arr ∧
      root_page_id_ t' = alloc_ tree_123 + 1 ∧
      alloc_ t' = alloc_ tree_123 + 2 ∧
      array_ <$> pages_ t' !! root_page_id_ tree_123
      = Some (take (length arr / 2) arr) ∧
      array_ <$> pages_ t' !! alloc_ tree_123
      = Some (drop (length arr / 2) arr) ∧
      GetValue 6 t' 4 = Some (Some 14) ∧
      ∀ key', key' ≠ 4 → GetValue 6 t' key' = GetValue 5 tree_123 key'.
Proof.
  assert (Hs : StronglySorted (λ x y : Z * Z, x.1 < y.1)
                 [(1, 11); (2, 12); (3, 13)]).
  { repeat constructor. }
  split; [split; [discriminate|reflexivity]|].
  split; [vm_compute; reflexivity|]. split; [exact Hs|].
  split; [reflexivity|]. split; [reflexivity|].
  intros lb ia sp.
  apply (root_leaf_split_keeps_lookups lb ia sp 5 tree_123
           (mkTreePage true 1 INVALID_PAGE_ID 3 INVALID_PAGE_ID
              [(1, 11); (2, 12); (3, 13)]) 4 14).
  - split; [discriminate|reflexivity].
  - vm_compute. reflexivity.
  - reflexivity.
  - reflexivity.
  - reflexivity.
  - exact Hs.
  - reflexivity.
  - reflexivity.
Defined.

End BPT_more_witnesses.
(** ** The page table inside the pool: pages it loses, insertions that do
    not return, and the order of an eviction *)

Section EHT_stuck_facts.

Import EHT.

Lemma mod8_low (k g : Z) : 3 ≤ g → (k mod 2 ^ g) mod 8 = k mod 8.
Proof.
  intros Hg.
  replace (2 ^ g) with (8 * 2 ^ (g - 3)).
  2:{ change 8 with (2 ^ 3). rewrite <- Z.pow_add_r by lia. f_equal. lia. }
  assert (0 < 2 ^ (g - 3)) by (apply Z.pow_pos_nonneg; lia).
  rewrite Z.rem_mul_r by lia.
  rewrite (Z.mul_comm 8), Z_mod_plus_full. apply Z.mod_mod. lia.
Qed.

Lemma IndexOf_int (t : Table (V:=Z)) (k : Z) :
  0 ≤ global_depth_ t →
  IndexOf int_hash t k = k mod 2 ^ global_depth_ t.
Proof.
  intros Hg. unfold IndexOf, int_hash.
  change (Z.shiftl 1 (global_depth_ t) - 1) with (Z.ones (global_depth_ t)).
  by rewrite Z.land_ones.
Qed.

(** The last loop of [RedistributeBucket] on a table whose slots 5 modulo
    8 all hold bucket [r]: the items, whose keys are 5 modulo 8, all go
    back into bucket [r], which has room for them. *)
Lemma reinsert_all (g : Z) (bsz : nat) (nbk : Z) (dir : list nat)
    (r n : nat) (d : Z) (rest pre : list (Z * Z)) (bs : list Bucket) :
  3 ≤ g → length dir = Z.to_nat (2 ^ g) →
  (∀ s : nat, (s < length dir)%nat → Z.of_nat s mod 8 = 5 →
              dir !! s = Some r) →
  bs !! r = Some (mkBucket n d pre) →
  (length pre + length rest ≤ n)%nat →
  NoDup (pre ++ rest).*1 →
  Forall (λ kv : Z * Z, 0 ≤ kv.1 ∧ kv.1 mod 8 = 5) rest →
  ∃ bs', foldl (reinsert int_hash) (Some (mkTable g bsz nbk dir bs)) rest
         = Some (mkTable g bsz nbk dir bs') ∧
         bs' !! r = Some (mkBucket n d (pre ++ rest)) ∧
         length bs' = length bs.
Proof.
  intros Hg Hlen Hslots. revert pre bs.
  induction rest as [|[k v] rest IH]; intros pre bs Hb Hroom Hnd Hkeys.
  - exists bs. by rewrite app_nil_r.
  - apply Forall_cons in Hkeys as [[Hk0 Hk5] Hkeys].
    cbn [foldl]. unfold reinsert at 2. cbn [mbind option_bind fst snd].
    rewrite IndexOf_int by (cbn; lia). cbn [global_depth_ dir_ buckets_].
    assert (Hpos : 0 < 2 ^ g) by (apply Z.pow_pos_nonneg; lia).
    pose proof (Z.mod_pos_bound k (2 ^ g) Hpos) as Hbound.
    set (s := k mod 2 ^ g) in *.
    assert (Hs : (Z.to_nat s < length dir)%nat) by (rewrite Hlen; lia).
    assert (Hs5 : Z.of_nat (Z.to_nat s) mod 8 = 5).
    { rewrite Z2Nat.id by lia. unfold s. by rewrite mod8_low. }
    rewrite (Hslots (Z.to_nat s) Hs Hs5).
    cbn [mbind option_bind]. rewrite Hb. cbn [mbind option_bind].
    assert (Hfresh : Bucket_Find pre k = None).
    { apply Bucket_Find_None. rewrite fmap_app in Hnd.
      apply NoDup_app in Hnd as (_ & Hdis & _).
      intros Hin. apply (Hdis k Hin). cbn. apply list_elem_of_here. }
    unfold Bucket_Insert. cbn [list_ size_ depth_].
    rewrite (proj2 (Bucket_update_None pre k v) Hfresh).
    unfold IsFull. cbn [list_ size_ length] in *.
    destruct (Nat.leb_spec n (length pre)) as [|_]; [lia|].
    cbn [snd]. unfold set_buckets.
    cbn [global_depth_ bucket_size_ num_buckets_ dir_ buckets_].
    pose proof (lookup_lt_Some _ _ _ Hb) as Hr.
    destruct (IH (pre ++ [(k, v)])
                (<[r := mkBucket n d (pre ++ [(k, v)])]> bs))
      as (bs' & Hfold & Hb' & Hlen').
    + by apply list_lookup_insert_eq.
    + rewrite length_app. cbn [length]. lia.
    + by rewrite <- app_assoc.
    + done.
    + exists bs'. split; [exact Hfold|].
      rewrite <- app_assoc in Hb'. split; [exact Hb'|].
      by rewrite Hlen', length_insert.
Qed.

(** One round of the retry loop on such a table: the directory doubles,
    the bucket is split, its items go back into it, and the table has the
    same shape one level deeper. *)
Lemma stuck_full_round (t : Table (V:=Z)) :
  stuck_full t →
  ∃ t', RedistributeBucket int_hash (Expansion t) (IndexOf int_hash t 3)
        = Some t' ∧ stuck_full t'.
Proof.
  intros (Hg & Hlen & r & l & H3 & Hslots & Hb & Hnd & Hkeys).
  destruct t as [g bsz nbk dir bs]; simpl in *.
  pose proof (pow2_ge_8 g Hg) as H8.
  assert (Hidx : IndexOf int_hash (mkTable g bsz nbk dir bs) 3 = 3).
  { unfold IndexOf, int_hash; simpl. apply mask_small; lia. }
  rewrite Hidx.
  unfold RedistributeBucket, Expansion, bucket_at.
  cbn [global_depth_ bucket_size_ num_buckets_ dir_ buckets_].
  rewrite !Z.shiftl_1_l.
  replace (g + 1 - 1) with g by lia.
  rewrite <- Hlen, firstn_all.
  change (Z.to_nat 3) with 3%nat.
  assert (Hl8 : (8 ≤ length dir)%nat) by lia.
  rewrite (lookup_app_l dir dir 3) by lia.
  rewrite H3; cbn [mbind option_bind].
  rewrite Hb; cbn [mbind option_bind depth_ size_ list_].
  rewrite Z.shiftl_1_l.
  change (2 ^ g - 1) with (Z.pred (2 ^ g)).
  rewrite <- Z.ones_equiv, Z.land_ones, (Z.mod_small 3) by lia.
  replace (Z.to_nat (3 + 2 ^ g)) with (length dir + 3)%nat by lia.
  change (Z.to_nat 3) with 3%nat.
  pose proof (lookup_lt_Some _ _ _ Hb) as Hr.
  set (d1 := <[(length dir + 3)%nat := length bs]> (dir ++ dir)).
  assert (Hd1len : length d1 = (length dir + length dir)%nat).
  { unfold d1. by rewrite length_insert, length_app. }
  assert (Hd13 : d1 !! 3%nat = Some r).
  { unfold d1. rewrite list_lookup_insert_ne by lia.
    by rewrite lookup_app_l by lia. }
  assert (Hd1n : d1 !! (length dir + 3)%nat = Some (length bs)).
  { unfold d1. apply list_lookup_insert_eq. rewrite length_app. lia. }
  assert (Hlen8 : Z.of_nat (length dir) mod 8 = 0).
  { rewrite Hlen, Z2Nat.id by lia. rewrite <- (mod8_low _ g Hg).
    by rewrite Z.mod_same by lia. }
  assert (Hd1s : ∀ s : nat, (s < length d1)%nat → Z.of_nat s mod 8 = 5 →
                            d1 !! s = Some r).
  { intros s Hs Hs5. unfold d1.
    rewrite list_lookup_insert_ne.
    2:{ intros <-. rewrite Nat2Z.inj_add, Z.add_mod, Hlen8 in Hs5 by lia.
        vm_compute in Hs5. discriminate. }
    destruct (Nat.lt_ge_cases s (length dir)) as [Hlt|Hge].
    - rewrite lookup_app_l by done. by apply Hslots.
    - rewrite lookup_app_r by done. apply Hslots; [lia|].
      rewrite Nat2Z.inj_sub by done.
      rewrite Zminus_mod, Hlen8, Hs5. done. }
  rewrite lookup_app_r, Nat.add_sub', H3 by lia.
  cbn [mbind option_bind].
  rewrite Hd13; cbn [mbind option_bind].
  rewrite (lookup_app_l bs), Hb by done.
  cbn [mbind option_bind].
  rewrite Hd1n; cbn [mbind option_bind].
  rewrite list_lookup_insert_ne by lia.
  rewrite lookup_app_r, Nat.sub_diag by lia.
  cbn [lookup list_lookup mbind option_bind].
  assert (Hrw : foldl (rewire g 3 (length dir + 3)) (Some d1) [0; 1] = Some d1).
  { cbn [foldl]. unfold rewire at 2. cbn [mbind option_bind Z.odd].
    rewrite Z.shiftl_0_l. change (Z.to_nat (0 + 3)) with 3%nat.
    change (Z.to_nat 3) with 3%nat.
    rewrite Hd13. cbn [mbind option_bind].
    rewrite (list_insert_id d1 3 r Hd13).
    destruct (Nat.ltb_spec 3 (length d1)); [|lia].
    unfold rewire. cbn [mbind option_bind Z.odd].
    rewrite Z.shiftl_1_l.
    replace (Z.to_nat (2 ^ g + 3)) with (length dir + 3)%nat by lia.
    rewrite Hd1n. cbn [mbind option_bind].
    rewrite (list_insert_id d1 _ _ Hd1n).
    destruct (Nat.ltb_spec (length dir + 3) (length d1)); [done|lia]. }
  rewrite Hrw. cbn [mbind option_bind].
  rewrite Hd13. cbn [mbind option_bind].
  rewrite list_lookup_insert_ne by lia.
  rewrite list_lookup_insert_eq by (rewrite length_app; lia).
  cbn [mbind option_bind IncrementDepth size_ depth_ list_].
  assert (Hpow : 2 ^ (g + 1) = 2 * 2 ^ g) by (rewrite Z.pow_add_r; lia).
  match goal with
  | |- ∃ t', foldl _ (Some (mkTable _ _ _ _ ?bs4)) _ = _ ∧ _ =>
      destruct (reinsert_all (g + 1) bsz (nbk + 1) d1 r (length l) (g + 1)
                  l [] bs4) as (bs' & Hfold & Hb' & _)
  end.
  - lia.
  - rewrite Hd1len, Hpow. lia.
  - exact Hd1s.
  - apply list_lookup_insert_eq.
    rewrite !length_insert, length_app. lia.
  - cbn [length]. lia.
  - done.
  - done.
  - exists (mkTable (g + 1) bsz (nbk + 1) d1 bs'). split; [exact Hfold|].
    unfold stuck_full.
    cbn [global_depth_ bucket_size_ num_buckets_ dir_ buckets_].
    split; [lia|]. split; [rewrite Hd1len, Hpow; lia|].
    exists r, l. done.
Qed.

(** On such a table no amount of fuel lets [Insert] of key 3 return. *)
Lemma stuck_full_Insert_None (fuel : nat) (t : Table (V:=Z)) (value : Z) :
  stuck_full t → Insert int_hash fuel t 3 value = None.
Proof.
  revert t; induction fuel as [|fuel IH]; intros t Hst; [done|].
  destruct (stuck_full_round t Hst) as (t' & Hred & Hst').
  destruct Hst as (Hg & Hlen & r & l & H3 & Hslots & Hb & Hnd & Hkeys).
  pose proof (pow2_ge_8 _ Hg) as H8.
  cbn [Insert].
  assert (Hidx : IndexOf int_hash t 3 = 3).
  { unfold IndexOf, int_hash. apply mask_small; lia. }
  rewrite Hidx in Hred |- *.
  change (Z.to_nat 3) with 3%nat.
  rewrite H3; cbn [mbind option_bind].
  rewrite Hb; cbn [mbind option_bind].
  assert (Hfresh : Bucket_Find l 3 = None).
  { apply Bucket_Find_None.
    intros ([k v] & Hk & Hin)%list_elem_of_fmap. cbn in Hk. subst k.
    rewrite Forall_forall in Hkeys. by destruct (Hkeys _ Hin) as [_ ?]. }
  unfold Bucket_Insert. cbn [list_ size_ depth_].
  rewrite (proj2 (Bucket_update_None l 3 value) Hfresh).
  unfold IsFull. cbn [list_ size_]. rewrite Nat.leb_refl.
  rewrite Z.eqb_refl, Hred. cbn [mbind option_bind].
  by apply IH.
Qed.

Lemma stuck_table1_split_stuck : stuck_full stuck_table1_split.
Proof.
  unfold stuck_full, stuck_table1_split.
  cbn [global_depth_ dir_ buckets_].
  split; [lia|]. split; [done|].
  exists 4%nat, [(5, 3)]. split; [done|]. split.
  { intros s Hs Hs5. cbn [length] in Hs.
    do 8 (destruct s as [|s];
          [first [reflexivity|vm_compute in Hs5; discriminate]|]).
    lia. }
  split; [done|]. split.
  - apply (bool_decide_unpack _). by vm_compute.
  - repeat (constructor; [split; [cbn; lia|reflexivity]|]). constructor.
Qed.

Lemma stuck_table4_split_stuck : stuck_full stuck_table4_split.
Proof.
  unfold stuck_full, stuck_table4_split.
  cbn [global_depth_ dir_ buckets_].
  split; [lia|]. split; [done|].
  exists 4%nat, [(5, 9); (13, 10); (21, 11); (29, 12)].
  split; [done|]. split.
  { intros s Hs Hs5. cbn [length] in Hs.
    do 8 (destruct s as [|s];
          [first [reflexivity|vm_compute in Hs5; discriminate]|]).
    lia. }
  split; [done|]. split.
  - apply (bool_decide_unpack _). by vm_compute.
  - repeat (constructor; [split; [cbn; lia|reflexivity]|]). constructor.
Qed.

End EHT_stuck_facts.

Section EHT_table_steps.

Import EHT.

Context {V : Type} `{EqDecision V}.

Variable hash : Z → Z.



End EHT_table_steps.

Section BPM_eviction.

Import BPM.

Variable hash : Z → Z.
Variable fuel : nat.

Tactic Notation "bsimpl" :=
  cbv beta iota zeta delta
      [pages_ page_table_ replacer_ free_list_ next_page_id_ disk_ trace_
       set_pages set_table set_replacer set_free_list set_next_page_id
       set_disk emit set_page WritePage AllocatePage fst snd].

Tactic Notation "bsimpl" "in" hyp(H) :=
  cbv beta iota zeta delta
      [pages_ page_table_ replacer_ free_list_ next_page_id_ disk_ trace_
       set_pages set_table set_replacer set_free_list set_next_page_id
       set_disk emit set_page WritePage AllocatePage fst snd] in H.



(** [NewPgImp] has no result when a frame is free but the page table
    insertion of the new page id does not return. *)
Lemma NewPgImp_table_stuck (st : BufferPool) (now f : Z) (rest : list Z) :
  is_free_page st = true → free_list_ st = f :: rest →
  EHT.Insert hash fuel (page_table_ st) (next_page_id_ st) f = None →
  NewPgImp hash fuel st now = None.
Proof.
  intros Hfree Hfl Hins. unfold NewPgImp. rewrite Hfree. cbn [negb].
  destruct st as [ps pt rp fl np dk tr].
  bsimpl in Hfl. bsimpl in Hins. subst fl.
  unfold AllocatePage, TakeFrame, TableInsert. bsimpl.
  cbn [mbind option_bind]. bsimpl. by rewrite Hins.
Qed.

End BPM_eviction.

Section BPM_reached_facts.

Import BPM.

Lemma stuck_pool1_run :
  pool_run int_hash 8 (BufferPoolManagerInstance 8 2 1) stuck_calls1
  = Some stuck_pool1.
Proof. vm_compute. reflexivity. Qed.

Lemma stuck_pool4_run :
  pool_run int_hash 8 (BufferPoolManagerInstance 16 2 4) stuck_calls4
  = Some stuck_pool4.
Proof. vm_compute. reflexivity. Qed.

Lemma lost_pool1_run :
  pool_run int_hash 8 (BufferPoolManagerInstance 8 2 1) lost_calls1
  = Some lost_pool1.
Proof. vm_compute. reflexivity. Qed.

Lemma lost_pool4_run :
  pool_run int_hash 8 (BufferPoolManagerInstance 12 2 4) lost_calls4
  = Some lost_pool4.
Proof. vm_compute. reflexivity. Qed.

(** The insertion of page 3 into the page table of [stuck_pool1] and of
    [stuck_pool4] does not return, whatever the number of rounds. *)
Lemma stuck_pool1_Insert (fuel : nat) :
  EHT.Insert int_hash fuel (page_table_ stuck_pool1)
    (next_page_id_ stuck_pool1) 5 = None.
Proof.
  replace (page_table_ stuck_pool1) with stuck_table1
    by (vm_compute; reflexivity).
  replace (next_page_id_ stuck_pool1) with 3 by (vm_compute; reflexivity).
  destruct fuel as [|fuel]; [done|].
  change (EHT.Insert int_hash (S fuel) stuck_table1 3 5)
    with (EHT.Insert int_hash fuel stuck_table1_split 3 5).
  apply stuck_full_Insert_None, stuck_table1_split_stuck.
Qed.

Lemma stuck_pool4_Insert (fuel : nat) :
  EHT.Insert int_hash fuel (page_table_ stuck_pool4)
    (next_page_id_ stuck_pool4) 14 = None.
Proof.
  replace (page_table_ stuck_pool4) with stuck_table4
    by (vm_compute; reflexivity).
  replace (next_page_id_ stuck_pool4) with 3 by (vm_compute; reflexivity).
  destruct fuel as [|fuel]; [done|].
  change (EHT.Insert int_hash (S fuel) stuck_table4 3 14)
    with (EHT.Insert int_hash fuel stuck_table4_split 3 14).
  apply stuck_full_Insert_None, stuck_table4_split_stuck.
Qed.

Lemma not_all_pinned (st : BufferPool) (i : nat) (p : Page) :
  pages_ st !! i = Some p → pin_count_ p = 0 → ¬ all_pinned st.
Proof.
  intros Hp Hpin Hall. apply (Forall_lookup_1 _ _ _ _ Hall) in Hp. lia.
Qed.

(** C5 (as found in the code): [NewPgImp] does not always return a page
    when a frame is free. A null result does mean that every frame is
    pinned, and a page that is returned has the next page id, pin count 1
    and a frame that is not evictable, taken from the free list first and
    from the replacer otherwise; a pool of one frame gives a page and then
    null. But in the pool reached by [NewPage], [FetchPage(4)], [NewPage],
    [FetchPage(5)], [NewPage] (eight frames, page table of bucket size 1)
    the frames 5, 6, 7 are free and not every frame is pinned, and the next
    [NewPgImp] has no result at all: the insertion of page 3 into the page
    table never leaves its retry loop, whatever the number of rounds. The
    same holds with bucket size 4 in a pool of sixteen frames that holds
    the pages 0, 8, 16, 24, 4, 1, 9, 17, 25, 5, 13, 21, 29, 2, where the
    frames 14 and 15 are free. *)
Theorem NewPgImp_no_result_with_free_frames :
  (pool_run int_hash 8 (BufferPoolManagerInstance 8 2 1) stuck_calls1
   = Some stuck_pool1 ∧
   free_list_ stuck_pool1 = [5; 6; 7] ∧ next_page_id_ stuck_pool1 = 3 ∧
   ¬ all_pinned stuck_pool1 ∧
   ∀ fuel now,
     EHT.Insert int_hash fuel (page_table_ stuck_pool1) 3 5 = None ∧
     NewPgImp int_hash fuel stuck_pool1 now = None) ∧
  (pool_run int_hash 8 (BufferPoolManagerInstance 16 2 4) stuck_calls4
   = Some stuck_pool4 ∧
   free_list_ stuck_pool4 = [14; 15] ∧ next_page_id_ stuck_pool4 = 3 ∧
   ¬ all_pinned stuck_pool4 ∧
   ∀ fuel now,
     EHT.Insert int_hash fuel (page_table_ stuck_pool4) 3 14 = None ∧
     NewPgImp int_hash fuel stuck_pool4 now = None) ∧
  (∀ hash fuel pool_size k bucket_size calls st now,
     1 ≤ k < 2 ^ 64 → Z.of_nat (3 * length calls) + 3 < 2 ^ 64 →
     pool_run hash fuel (BufferPoolManagerInstance pool_size k bucket_size)
       calls = Some st →
     ((∃ st', NewPgImp hash fuel st now = Some (None, st')) ↔ all_pinned st) ∧
     ∀ pid f st',
       NewPgImp hash fuel st now = Some (Some (pid, f), st') →
       pid = next_page_id_ st ∧ next_page_id_ st' = next_page_id_ st + 1 ∧
       match free_list_ st with
       | f0 :: rest => f = f0 ∧ free_list_ st' = rest
       | [] => (LRUK.Evict (replacer_ st)).1 = Some f
       end ∧
       (∃ p, page_at st' f = Some p ∧ page_id_ p = pid ∧ pin_count_ p = 1) ∧
       LRUK.evitable_ (replacer_ st') !! f ≠ Some true) ∧
  (∃ st1, NewPgImp int_hash 8 pool1 1 = Some (Some (0, 0), st1) ∧
          NewPgImp int_hash 8 st1 2 = Some (None, st1)).
Proof.
  split; [|split; [|split]].
  - split; [apply stuck_pool1_run|].
    split; [vm_compute; reflexivity|]. split; [vm_compute; reflexivity|].
    split.
    { apply (not_all_pinned stuck_pool1 5 empty_page);
        [vm_compute; reflexivity|done]. }
    intros fuel now.
    pose proof (stuck_pool1_Insert fuel) as Hins.
    split.
    + replace 3 with (next_page_id_ stuck_pool1) at 1
        by (vm_compute; reflexivity).
      exact Hins.
    + apply (NewPgImp_table_stuck int_hash fuel stuck_pool1 now 5 [6; 7]).
      * vm_compute. reflexivity.
      * vm_compute. reflexivity.
      * exact Hins.
  - split; [apply stuck_pool4_run|].
    split; [vm_compute; reflexivity|]. split; [vm_compute; reflexivity|].
    split.
    { apply (not_all_pinned stuck_pool4 14 empty_page);
        [vm_compute; reflexivity|done]. }
    intros fuel now.
    pose proof (stuck_pool4_Insert fuel) as Hins.
    split.
    + replace 3 with (next_page_id_ stuck_pool4) at 1
        by (vm_compute; reflexivity).
      exact Hins.
    + apply (NewPgImp_table_stuck int_hash fuel stuck_pool4 now 14 [15]).
      * vm_compute. reflexivity.
      * vm_compute. reflexivity.
      * exact Hins.
  - intros hash fuel pool_size k bucket_size calls st now Hk Hlen Hrun.
    destruct (NewPgImp_reached hash fuel pool_size k bucket_size calls st now
                Hk Hlen Hrun) as (Hnull & Hres & _ & _).
    split; [exact Hnull|].
    intros pid f st' Hnew.
    destruct (Hres pid f st' Hnew) as (H1 & H2 & H3 & H4 & H5 & _).
    done.
  - eexists. split; [vm_compute; reflexivity|].
    vm_compute. reflexivity.
Qed.

(** C6 (as found in the code): [UnpinPgImp] decides by the page table, and
    the page table loses pages. For a page that the page table finds,
    with a positive pin count, it returns true, lowers the pin count by
    one, sets the dirty flag when [is_dirty] is true and keeps it
    otherwise, and tells the replacer [SetEvictable(f, true)] exactly when
    the pin count has reached zero; with pin count zero, or for a page that
    the table does not find, it returns false and changes nothing. But in
    the pool reached by [FetchPage] of the pages 0, 4, 1, 5, 9 (eight
    frames, page table of bucket size 1) frame 3 holds page 5 with pin
    count 1, the page table does not find page 5, and [UnpinPgImp] of
    page 5 returns false and leaves the pin count at 1. The same holds with
    bucket size 4 in the pool reached by [FetchPage] of 0, 8, 16, 24, 4, 1,
    9, 17, 25, 5, 33 (twelve frames), where frame 9 holds page 5. *)
Theorem UnpinPgImp_false_for_pinned_page :
  (pool_run int_hash 8 (BufferPoolManagerInstance 8 2 1) lost_calls1
   = Some lost_pool1 ∧
   page_at lost_pool1 3 = Some (mkPage 5 1 false zero_data) ∧
   EHT.Find int_hash (page_table_ lost_pool1) 5 = None ∧
   ∀ is_dirty,
     UnpinPgImp int_hash lost_pool1 5 is_dirty = Some (false, lost_pool1)) ∧
  (pool_run int_hash 8 (BufferPoolManagerInstance 12 2 4) lost_calls4
   = Some lost_pool4 ∧
   page_at lost_pool4 9 = Some (mkPage 5 1 false zero_data) ∧
   EHT.Find int_hash (page_table_ lost_pool4) 5 = None ∧
   ∀ is_dirty,
     UnpinPgImp int_hash lost_pool4 5 is_dirty = Some (false, lost_pool4)) ∧
  (∀ hash st page_id is_dirty,
     match EHT.Find hash (page_table_ st) page_id with
     | None => UnpinPgImp hash st page_id is_dirty = Some (false, st)
     | Some f =>
         ∀ p, page_at st f = Some p →
           if 0 <? pin_count_ p
           then
             ∃ r',
               (if pin_count_ p - 1 =? 0
                then LRUK.SetEvictable (replacer_ st) f true = Some r'
                else r' = replacer_ st) ∧
               UnpinPgImp hash st page_id is_dirty
               = Some (true,
                       mkPool (<[Z.to_nat f :=
                                  mkPage (page_id_ p) (pin_count_ p - 1)
                                         (is_dirty || is_dirty_ p) (data_ p)]>
                                 (pages_ st))
                              (page_table_ st) r' (free_list_ st)
                              (next_page_id_ st) (disk_ st) (trace_ st))
           else UnpinPgImp hash st page_id is_dirty = Some (false, st)
     end).
Proof.
  assert (Hmiss : ∀ hash st page_id is_dirty,
            EHT.Find hash (page_table_ st) page_id = None →
            UnpinPgImp hash st page_id is_dirty = Some (false, st)).
  { intros hash st page_id is_dirty Hfind. unfold UnpinPgImp.
    by rewrite Hfind. }
  split; [|split].
  - assert (Hfind : EHT.Find int_hash (page_table_ lost_pool1) 5 = None)
      by (vm_compute; reflexivity).
    split; [apply lost_pool1_run|]. split; [vm_compute; reflexivity|].
    split; [exact Hfind|]. intros is_dirty. by apply Hmiss.
  - assert (Hfind : EHT.Find int_hash (page_table_ lost_pool4) 5 = None)
      by (vm_compute; reflexivity).
    split; [apply lost_pool4_run|]. split; [vm_compute; reflexivity|].
    split; [exact Hfind|]. intros is_dirty. by apply Hmiss.
  - intros hash st page_id is_dirty.
    destruct (EHT.Find hash (page_table_ st) page_id) as [f|] eqn:Hfind;
      [|by apply Hmiss].
    intros p Hp.
    destruct (UnpinPgImp_found_page hash st page_id f is_dirty p Hfind Hp)
      as (Hpos & Hzero & _).
    destruct (Z.ltb_spec 0 (pin_count_ p)) as [Hpin|Hpin].
    + destruct (Hpos Hpin) as (r' & Hr' & Heq & _). by exists r'.
    + by apply Hzero.
Qed.


End BPM_reached_facts.
